(** * HTK label refiner: a shallow embedding of [htk_label_refiner.py]

    The development follows the source file top to bottom: the phoneme
    group table and the classifier, the merge decision, the label file
    parser and writer, the two-pass merger [merge_labels], and the batch
    loop of [process_lab_files].

    Conventions.
    - A Python [str] is a Rocq [string]; a character is a Unicode code
      point below 256, so that [str.lower], [str.isspace] and the digits
      accepted by [int] are exactly Python's on that range.
    - A Python [int] is a [Z]; a Python [float] is a binary64
      [spec_float] ([prec = 53], [emax = 1024]).  [int(s)] and [str(n)]
      raise [ValueError] beyond 4300 decimal digits, the default of
      [sys.int_info.default_max_str_digits] in CPython 3.11.
    - A raised exception is the [None] of an [option] where only one
      exception can be raised ([ValueError] in the parser, [OverflowError]
      in the time conversion); the writer returns what it has written
      with a flag that is [false] for its [ValueError]; [merge_labels] has
      an [outcome] that names the exception.
    - [merge_labels] is given twice: on lists of segments, and on a heap
      of list and dictionary objects, where [copy], [append] and the
      assignments to a key act on a store; the second is shown to compute
      the first. *)

From Stdlib Require Import ZArith String Ascii SpecFloat Lia.
From stdpp Require Import base option list sorting gmap strings.

Local Open Scope Z_scope.

(** ** Strings *)

Module Str.

(** Code points of the characters that [str.lower] maps to another
    character: [A]-[Z] and the Latin-1 capitals U+00C0-U+00DE except
    the multiplication sign U+00D7. *)
Definition is_upper (c : ascii) : bool :=
  let n := Z.of_N (N_of_ascii c) in
  ((65 <=? n) && (n <=? 90)) ||
  ((192 <=? n) && (n <=? 222) && negb (n =? 215)).

Definition lower_char (c : ascii) : ascii :=
  if is_upper c then ascii_of_N (N_of_ascii c + 32) else c.

(** [s.lower()] *)
Fixpoint lower (s : string) : string :=
  match s with
  | EmptyString => EmptyString
  | String c s' => String (lower_char c) (lower s')
  end.

(** [c.isspace()] for a code point below 256: TAB, LF, VT, FF, CR,
    FS, GS, RS, US, SPACE, NEL (U+0085) and NBSP (U+00A0). *)
Definition isspace (c : ascii) : bool :=
  let n := Z.of_N (N_of_ascii c) in
  ((9 <=? n) && (n <=? 13)) || ((28 <=? n) && (n <=? 32)) ||
  (n =? 133) || (n =? 160).

(** [s.lstrip()], [s.rstrip()] and [s.strip()] without argument. *)
Fixpoint lstrip (s : list ascii) : list ascii :=
  match s with
  | c :: s' => if isspace c then lstrip s' else s
  | [] => []
  end.

Definition rstrip (s : list ascii) : list ascii := rev (lstrip (rev s)).

Definition strip (s : list ascii) : list ascii := rstrip (lstrip s).

(** [s.split()] without argument: the maximal runs of characters that
    are not whitespace, in order.  A character that is not whitespace
    opens a new field when the next character is whitespace or absent,
    and otherwise joins the field its successor starts. *)
Fixpoint split (s : list ascii) : list (list ascii) :=
  match s with
  | [] => []
  | c :: s' =>
      if isspace c then split s'
      else match s' with
           | [] => [[c]]
           | c' :: _ =>
               if isspace c' then [c] :: split s'
               else match split s' with
                    | field :: fields => (c :: field) :: fields
                    | [] => [[c]]
                    end
           end
  end.

Definition LF : ascii := ascii_of_N 10.
Definition CR : ascii := ascii_of_N 13.

(** Reading a file opened in text mode with the default [newline=None]:
    every CR LF pair and every lone CR arrives as LF. *)
Fixpoint universal_newlines (s : list ascii) : list ascii :=
  match s with
  | [] => []
  | c :: s' =>
      if Ascii.eqb c CR then
        LF :: match s' with
              | c' :: s'' =>
                  if Ascii.eqb c' LF then universal_newlines s''
                  else universal_newlines s'
              | [] => []
              end
      else c :: universal_newlines s'
  end.

(** Writing to a file opened in text mode with the default [newline=None]:
    every LF is written as the line separator of the platform, [linesep]. *)
Definition write_newlines (linesep : list ascii) (s : list ascii) : list ascii :=
  flat_map (λ c, if Ascii.eqb c LF then linesep else [c]) s.

(** [for line in f]: the lines of the translated text, each with its
    terminating LF (the last one may lack it). *)
Fixpoint lines (s : list ascii) : list (list ascii) :=
  match s with
  | [] => []
  | c :: s' =>
      if Ascii.eqb c LF then [c] :: lines s'
      else match lines s' with
           | line :: rest => (c :: line) :: rest
           | [] => [[c]]
           end
  end.

End Str.

(** ** The phoneme group table (source lines 8-18)

    A Python [dict] iterates in insertion order, and the classifier
    depends on that order, so the table is an association list. *)

Definition PHONEME_GROUPS : list (string * list string) :=
  [ ("sibilants",  ["s"; "z"; "sh"; "zh"; "ts"; "dz"; "ch"; "dj"; "x"]);
    ("vowels",     ["a"; "e"; "i"; "o"; "u"; "N"]);
    ("consonants", ["b"; "c"; "d"; "f"; "g"; "h"; "j"; "k"; "l"; "m"; "n";
                    "p"; "q"; "r"; "t"; "v"; "w"]);
    ("liquids",    ["l"; "r"]);
    ("nasals",     ["m"; "n"; "ng"]);
    ("stops",      ["p"; "b"; "t"; "d"; "k"; "g"]);
    ("fricatives", ["f"; "v"; "th"; "dh"; "s"; "z"; "sh"; "zh"; "h"]);
    ("silence",    ["pau"; "sil"; "SP"]);
    ("special",    ["cl"; "vf"]) ]%string.

(** [d[key]], with [None] for a [KeyError]. *)
Fixpoint dict_get (d : list (string * list string)) (key : string)
  : option (list string) :=
  match d with
  | [] => None
  | (k, v) :: d' => if String.eqb k key then Some v else dict_get d' key
  end.

(** The [for group_name, phonemes in PHONEME_GROUPS.items()] loop of
    [get_phoneme_group]: the first group whose list holds the token. *)
Fixpoint scan_groups (items : list (string * list string)) (phoneme_lower : string)
  : option string :=
  match items with
  | [] => None
  | (group_name, phonemes) :: items' =>
      if bool_decide (phoneme_lower ∈ phonemes) then Some group_name
      else scan_groups items' phoneme_lower
  end.

(** Source lines 26-36. *)
Definition get_phoneme_group (phoneme : string) : string :=
  let phoneme_lower := Str.lower phoneme in
  if bool_decide (phoneme_lower ∈ default [] (dict_get PHONEME_GROUPS "silence"))
  then "silence"%string
  else match scan_groups PHONEME_GROUPS phoneme_lower with
       | Some group_name => group_name
       | None => "unknown"%string
       end.

(** ** The merge decision (source lines 38-54) *)

Definition merge_rules : list (string * string) :=
  [ ("vowels", "vowels"); ("consonants", "consonants"); ("silence", "silence");
    ("sibilants", "sibilants"); ("liquids", "liquids"); ("nasals", "nasals");
    ("stops", "stops"); ("fricatives", "fricatives"); ("special", "special")
  ]%string.

Definition should_merge_phonemes (phoneme1 phoneme2 group1 group2 : string) : bool :=
  if String.eqb group1 group2 then true
  else bool_decide ((group1, group2) ∈ merge_rules)
       || bool_decide ((group2, group1) ∈ merge_rules).

(** ** Integers as text: [int(s)] and [str(n)] *)

Module PyInt.

Definition digit_value (c : ascii) : option Z :=
  let n := Z.of_N (N_of_ascii c) in
  if (48 <=? n) && (n <=? 57) then Some (n - 48) else None.

Definition underscore : ascii := ascii_of_N 95.
Definition minus : ascii := ascii_of_N 45.
Definition plus : ascii := ascii_of_N 43.

(** The digits of a base-10 literal, left to right.  An underscore is
    allowed between two digits only; [prev_digit] tells whether the
    previous character was a digit. *)
Fixpoint int_digits (acc : Z) (prev_digit : bool) (s : list ascii) : option Z :=
  match s with
  | [] => if prev_digit then Some acc else None
  | c :: s' =>
      if Ascii.eqb c underscore then
        if prev_digit then int_digits acc false s' else None
      else match digit_value c with
           | Some d => int_digits (10 * acc + d) true s'
           | None => None
           end
  end.

(** [sys.int_info.default_max_str_digits]: the largest number of decimal
    digits that [int(s)] reads and that [str(n)] writes; beyond it either
    raises [ValueError]. *)
Definition int_max_str_digits : Z := 4300.

(** The number of digits in a text; signs and underscores do not count. *)
Fixpoint digit_count (s : list ascii) : Z :=
  match s with
  | [] => 0
  | c :: s' =>
      match digit_value c with
      | Some _ => 1 + digit_count s'
      | None => digit_count s'
      end
  end.

(** The literal after the sign: its digits, no more of them than
    [int_max_str_digits]. *)
Definition literal (s : list ascii) : option Z :=
  if digit_count s <=? int_max_str_digits then int_digits 0 false s else None.

(** The whitespace that [int] skips around the literal: TAB, LF, VT, FF,
    CR and SPACE, and the whitespace from U+0080 on (NEL and NBSP, below
    256).  Unlike [str.isspace] it does not hold FS, GS, RS and US. *)
Definition is_space (c : ascii) : bool :=
  let n := Z.of_N (N_of_ascii c) in
  ((9 <=? n) && (n <=? 13)) || (n =? 32) || (n =? 133) || (n =? 160).

Fixpoint skip_spaces (s : list ascii) : list ascii :=
  match s with
  | c :: s' => if is_space c then skip_spaces s' else s
  | [] => []
  end.

Definition strip_spaces (s : list ascii) : list ascii :=
  rev (skip_spaces (rev (skip_spaces s))).

(** [int(s)] for a string [s]; [None] is the [ValueError], of a text that
    is no literal or of a literal of too many digits. *)
Definition int (s : list ascii) : option Z :=
  match strip_spaces s with
  | c :: s' =>
      if Ascii.eqb c minus then Z.opp <$> literal s'
      else if Ascii.eqb c plus then literal s'
      else literal (c :: s')
  | [] => None
  end.

Definition digit_char (d : Z) : ascii := ascii_of_N (Z.to_N (48 + d)).

(** The decimal digits of [n >= 0] in front of [acc]; [fuel] bounds the
    number of digits. *)
Fixpoint digits (fuel : nat) (n : Z) (acc : list ascii) : list ascii :=
  match fuel with
  | O => acc
  | S fuel' =>
      let acc' := digit_char (n mod 10) :: acc in
      if n <? 10 then acc' else digits fuel' (n / 10) acc'
  end.

(** The text of [n]: the minus sign of a number below zero, and the
    decimal digits of its magnitude. *)
Definition decimal (n : Z) : list ascii :=
  let m := Z.abs n in
  let ds := digits (S (Z.to_nat (Z.log2 m))) m [] in
  if n <? 0 then minus :: ds else ds.

(** [str(n)], as the f-string of [write_lab_file] formats an [int]: the
    text of [n], or the [ValueError] ([None]) of a number of more digits
    than [int_max_str_digits]. *)
Definition str (n : Z) : option (list ascii) :=
  let text := decimal n in
  if digit_count text <=? int_max_str_digits then Some text else None.

End PyInt.

(** ** Time conversion (source lines 20-21) *)

(** The [int] to [float] conversion that [int * float] performs: the
    nearest binary64 value, ties to even, and an [OverflowError] ([None])
    when that value is not finite. *)
Definition float_of_int (n : Z) : option spec_float :=
  match binary_normalize 53 1024 n 0 false with
  | S754_infinity _ => None
  | x => Some x
  end.

(** The literal [1e-7]: the binary64 value 0x1.ad7f29abcaf48p-24. *)
Definition float_1e_7 : spec_float := S754_finite false 7555786372591432 (-76).

Definition convert_htk_time_to_seconds (htk_time : Z) : option spec_float :=
  x ← float_of_int htk_time; Some (SFmul 53 1024 x float_1e_7).

(** ** Segments *)

(** The dictionary [{'start': .., 'end': .., 'phoneme': ..}]. *)
Record label := Label { start : Z; end_ : Z; phoneme : string }.

Definition set_end (l : label) (e : Z) : label :=
  {| start := start l; end_ := e; phoneme := phoneme l |}.

Definition set_phoneme (l : label) (p : string) : label :=
  {| start := start l; end_ := end_ l; phoneme := p |}.

(** ** Reading and writing label files (source lines 56-72, 127-130) *)

(** The body of [for line in f], threading the list [labels]. *)
Fixpoint parse_lines (lines : list (list ascii)) (labels : list label)
  : option (list label) :=
  match lines with
  | [] => Some labels
  | line :: lines' =>
      let line := Str.strip line in
      if bool_decide (line ≠ []) then
        let parts := Str.split line in
        if bool_decide (3 ≤ length parts)%nat then
          match parts with
          | p0 :: p1 :: p2 :: _ =>
              start_time ← PyInt.int p0;
              end_time ← PyInt.int p1;
              let phoneme := string_of_list_ascii p2 in
              parse_lines lines' (labels ++ [Label start_time end_time phoneme])
          | _ => parse_lines lines' labels
          end
        else parse_lines lines' labels
      else parse_lines lines' labels
  end.

(** [parse_lab_file] on the characters of the file; [None] is the
    [ValueError] of an [int] call. *)
Definition parse_lab_file (content : list ascii) : option (list label) :=
  parse_lines (Str.lines (Str.universal_newlines content)) [].

(** The f-string of source line 130; [None] is the [ValueError] of a start
    or an end of too many digits. *)
Definition write_line (l : label) : option (list ascii) :=
  start_text ← PyInt.str (start l);
  end_text ← PyInt.str (end_ l);
  Some (start_text ++ [" "%char] ++ end_text ++ [" "%char]
        ++ list_ascii_of_string (phoneme l) ++ [Str.LF]).

(** The loop of [write_lab_file] on a file that holds [f]: the characters of
    the file when the loop ends, and whether it came to its end; [false] is
    the [ValueError] of an f-string, which leaves the lines written before
    it in the file. *)
Fixpoint write_lines (labels : list label) (f : list ascii) : list ascii * bool :=
  match labels with
  | [] => (f, true)
  | label :: labels' =>
      match write_line label with
      | Some line => write_lines labels' (f ++ line)
      | None => (f, false)
      end
  end.

(** [write_lab_file]: the file is opened for writing, which empties it,
    and the loop runs.  The result is the characters given to [f.write],
    which are the characters of the file where the line separator is LF,
    and whether the call returned ([true]) or raised [ValueError]
    ([false]). *)
Definition write_lab_file (labels : list label) : list ascii * bool :=
  write_lines labels [].


(** ** The merger (source lines 74-125) *)

Inductive exn := OverflowError | TypeError | IndexError.

(** What a call does: it returns a value, raises, or (in the model only)
    uses up the fuel given to a [while] loop. *)
Inductive outcome (A : Type) :=
  | Returns (a : A)
  | Raises (e : exn)
  | OutOfFuel.
Arguments Returns {A} a.
Arguments Raises {A} e.
Arguments OutOfFuel {A}.

Definition SP : string := "SP".
Definition silence : string := "silence".

(** Pass 1 keeps [merged], [current_label] and [current_group]. *)
Definition pass1_state : Type := list label * label * string.

(** The relabelling [if current_group == 'silence': current_label['phoneme'] = 'SP']
    (source lines 98-99 and 105-106). *)
Definition relabel_silence (current_group : string) (current_label : label) : label :=
  if String.eqb current_group silence then set_phoneme current_label SP
  else current_label.

(** One iteration of the [for] loop (source lines 83-103); [None] is the
    [OverflowError] of the time conversion. *)
Definition pass1_body (max_gap_seconds : spec_float) (st : pass1_state)
    (next_label : label) : option pass1_state :=
  let '(merged, current_label, current_group) := st in
  let next_group := get_phoneme_group (phoneme next_label) in
  gap_seconds ← convert_htk_time_to_seconds (start next_label - end_ current_label);
  if SFleb gap_seconds max_gap_seconds
     && should_merge_phonemes (phoneme current_label) (phoneme next_label)
          current_group next_group
  then
    let current_label := set_end current_label (end_ next_label) in
    let current_label :=
      if String.eqb current_group silence && String.eqb next_group silence
      then set_phoneme current_label SP else current_label in
    Some (merged, current_label, current_group)
  else
    let current_label := relabel_silence current_group current_label in
    Some (merged ++ [current_label], next_label, next_group).

(** [for i in range(1, len(labels))] over [labels[1:]]. *)
Fixpoint pass1_loop (max_gap_seconds : spec_float) (rest : list label)
    (st : pass1_state) : option pass1_state :=
  match rest with
  | [] => Some st
  | next_label :: rest' =>
      st' ← pass1_body max_gap_seconds st next_label;
      pass1_loop max_gap_seconds rest' st'
  end.

(** Source lines 78-107 for a list that is not empty: the list [merged]
    when pass 1 is over. *)
Definition pass1 (first : label) (rest : list label) (max_gap_seconds : spec_float)
  : option (list label) :=
  let merged := [] in
  let current_label := first in
  let current_group := get_phoneme_group (phoneme current_label) in
  '(merged, current_label, current_group) ←
     pass1_loop max_gap_seconds rest (merged, current_label, current_group);
  let current_label := relabel_silence current_group current_label in
  Some (merged ++ [current_label]).

(** The inner [while j < len(merged) and merged[j]['phoneme'] == 'SP']
    (source lines 116-118); it returns [current_label] and the final [j]. *)
Fixpoint pass2_inner (fuel : nat) (merged : list label) (current_label : label)
    (j : nat) : option (label * nat) :=
  match fuel with
  | O => None
  | S fuel' =>
      match merged !! j with
      | Some merged_j =>
          if String.eqb (phoneme merged_j) SP
          then pass2_inner fuel' merged (set_end current_label (end_ merged_j)) (j + 1)
          else Some (current_label, j)
      | None => Some (current_label, j)
      end
  end.

(** The outer [while i < len(merged)] (source lines 111-123). *)
Fixpoint pass2_outer (fuel : nat) (merged final_merged : list label) (i : nat)
  : option (list label) :=
  match fuel with
  | O => None
  | S fuel' =>
      match merged !! i with
      | Some merged_i =>
          let current_label := merged_i in
          if String.eqb (phoneme current_label) SP then
            '(current_label, j) ←
               pass2_inner (length merged) merged current_label (i + 1);
            pass2_outer fuel' merged (final_merged ++ [current_label]) j
          else pass2_outer fuel' merged (final_merged ++ [current_label]) (i + 1)
      | None => Some final_merged
      end
  end.

(** Pass 2 with the fuel [merge_labels] gives it. *)
Definition pass2 (merged : list label) : option (list label) :=
  pass2_outer (S (length merged)) merged [] 0.

Definition merge_labels (labels : list label) (max_gap_seconds : spec_float)
  : outcome (list label) :=
  match labels with
  | [] => Returns labels
  | first :: rest =>
      match pass1 first rest max_gap_seconds with
      | None => Raises OverflowError
      | Some merged =>
          match pass2 merged with
          | Some final_merged => Returns final_merged
          | None => OutOfFuel
          end
      end
  end.

(** The default threshold [0.1]: the binary64 value 0x1.999999999999ap-4. *)
Definition float_0_1 : spec_float := S754_finite false 7205759403792794 (-56).

(** ** The merger on a heap of Python objects

    [merge_labels] again, statement by statement, with the objects it
    handles kept in a store: a segment list is a list object holding
    references to dictionary objects, [.copy()] allocates, and the
    assignments to ['end'] and ['phoneme'] and the [append] calls update
    an object in place.  This is the model in which aliasing between the
    argument and the result can be asked about. *)

Module Heap.

Inductive obj :=
  | Dict (d : label)
  | PyList (items : list positive).

Abbreviation heap := (gmap positive obj).

(** A computation: the store goes in, the outcome and the store come
    out (the store survives an exception). *)
Definition M (A : Type) : Type := heap → outcome A * heap.

Definition ret {A} (a : A) : M A := λ h, (Returns a, h).

Definition raise {A} (e : exn) : M A := λ h, (Raises e, h).

Definition out_of_fuel {A} : M A := λ h, (OutOfFuel, h).

Definition bind {A B} (m : M A) (k : A → M B) : M B :=
  λ h, match m h with
       | (Returns a, h') => k a h'
       | (Raises e, h') => (Raises e, h')
       | (OutOfFuel, h') => (OutOfFuel, h')
       end.

Declare Scope heap_scope.
Delimit Scope heap_scope with heap.
Notation "x <- m ;; k" := (bind m (λ x, k))
  (at level 100, m at next level, right associativity) : heap_scope.
Notation "m ;; k" := (bind m (λ _, k))
  (at level 100, right associativity) : heap_scope.
Local Open Scope heap_scope.

(** A new object, at an address the store does not use. *)
Definition new (o : obj) : M positive :=
  λ h, let l := fresh (dom h) in (Returns l, <[l:=o]> h).

Definition read_dict (l : positive) : M label :=
  λ h, match h !! l with
       | Some (Dict d) => (Returns d, h)
       | _ => (Raises TypeError, h)
       end.

Definition read_list (l : positive) : M (list positive) :=
  λ h, match h !! l with
       | Some (PyList items) => (Returns items, h)
       | _ => (Raises TypeError, h)
       end.

Definition write (l : positive) (o : obj) : M unit :=
  λ h, (Returns (), <[l:=o]> h).

(** [d.copy()] *)
Definition dict_copy (l : positive) : M positive :=
  d <- read_dict l;; new (Dict d).

(** [d['end'] = v] and [d['phoneme'] = v] *)
Definition setitem_end (l : positive) (v : Z) : M unit :=
  d <- read_dict l;; write l (Dict (set_end d v)).

Definition setitem_phoneme (l : positive) (v : string) : M unit :=
  d <- read_dict l;; write l (Dict (set_phoneme d v)).

(** [len(xs)], [xs[i]] and [xs.append(x)] *)
Definition len (l : positive) : M nat :=
  items <- read_list l;; ret (length items).

Definition getitem (l : positive) (i : nat) : M positive :=
  items <- read_list l;;
  match items !! i with
  | Some x => ret x
  | None => raise IndexError
  end.

Definition append (l : positive) (x : positive) : M unit :=
  items <- read_list l;; write l (PyList (items ++ [x])).

Definition of_option {A} (e : exn) (o : option A) : M A :=
  match o with
  | Some a => ret a
  | None => raise e
  end.

Definition when (b : bool) (m : M unit) : M unit := if b then m else ret ().

(** The [for] loop of pass 1 over the indices [range(1, len(labels))];
    it returns the variables [current_label] and [current_group]. *)
Fixpoint pass1_loop (max_gap_seconds : spec_float) (labels merged : positive)
    (range : list nat) (current_label : positive) (current_group : string)
  : M (positive * string) :=
  match range with
  | [] => ret (current_label, current_group)
  | i :: range' =>
      next_label <- getitem labels i;;
      next <- read_dict next_label;;
      let next_group := get_phoneme_group (phoneme next) in
      current <- read_dict current_label;;
      gap_seconds <- of_option OverflowError
        (convert_htk_time_to_seconds (start next - end_ current));;
      if SFleb gap_seconds max_gap_seconds
         && should_merge_phonemes (phoneme current) (phoneme next)
              current_group next_group
      then
        setitem_end current_label (end_ next);;
        when (String.eqb current_group silence && String.eqb next_group silence)
             (setitem_phoneme current_label SP);;
        pass1_loop max_gap_seconds labels merged range' current_label current_group
      else
        when (String.eqb current_group silence) (setitem_phoneme current_label SP);;
        append merged current_label;;
        current_label <- dict_copy next_label;;
        pass1_loop max_gap_seconds labels merged range' current_label next_group
  end.

(** The inner [while] of pass 2; it returns the final [j]. *)
Fixpoint pass2_inner (fuel : nat) (merged current_label : positive) (j : nat)
  : M nat :=
  match fuel with
  | O => out_of_fuel
  | S fuel' =>
      n <- len merged;;
      if bool_decide (j < n)%nat then
        merged_j <- getitem merged j;;
        d <- read_dict merged_j;;
        if String.eqb (phoneme d) SP then
          setitem_end current_label (end_ d);;
          pass2_inner fuel' merged current_label (j + 1)
        else ret j
      else ret j
  end.

(** The outer [while] of pass 2. *)
Fixpoint pass2_outer (fuel : nat) (merged final_merged : positive) (i : nat)
  : M unit :=
  match fuel with
  | O => out_of_fuel
  | S fuel' =>
      n <- len merged;;
      if bool_decide (i < n)%nat then
        merged_i <- getitem merged i;;
        current_label <- dict_copy merged_i;;
        d <- read_dict current_label;;
        if String.eqb (phoneme d) SP then
          j <- pass2_inner n merged current_label (i + 1);;
          append final_merged current_label;;
          pass2_outer fuel' merged final_merged j
        else
          append final_merged current_label;;
          pass2_outer fuel' merged final_merged (i + 1)
      else ret ()
  end.

(** [merge_labels(labels, max_gap_seconds)]: the argument and the result
    are references to list objects. *)
Definition merge_labels (labels : positive) (max_gap_seconds : spec_float)
  : M positive :=
  n <- len labels;;
  if bool_decide (n = 0)%nat then ret labels
  else
    merged <- new (PyList []);;
    labels_0 <- getitem labels 0;;
    current_label <- dict_copy labels_0;;
    current <- read_dict current_label;;
    let current_group := get_phoneme_group (phoneme current) in
    st <- pass1_loop max_gap_seconds labels merged (seq 1 (n - 1))
            current_label current_group;;
    let '(current_label, current_group) := st in
    when (String.eqb current_group silence) (setitem_phoneme current_label SP);;
    append merged current_label;;
    final_merged <- new (PyList []);;
    m <- len merged;;
    pass2_outer (S m) merged final_merged 0;;
    ret final_merged.

(** The segments a list object holds, read through the store. *)
Definition deref_dict (h : heap) (l : positive) : option label :=
  match h !! l with
  | Some (Dict d) => Some d
  | _ => None
  end.

Definition deref_list (h : heap) (l : positive) : option (list label) :=
  match h !! l with
  | Some (PyList items) => mapM (deref_dict h) items
  | _ => None
  end.

(** A store holding the list [ds] at address [1 + length ds], its
    segments at the addresses below. *)
Definition store_of (ds : list label) : heap * positive :=
  let addrs := Pos.of_nat <$> seq 1 (length ds) in
  (<[Pos.of_nat (S (length ds)) := PyList addrs]>
     (list_to_map (zip addrs (Dict <$> ds))),
   Pos.of_nat (S (length ds))).

End Heap.

(** ** Vocabulary of the statements *)

(** Pass 1 on a whole list (it is not run on the empty list). *)
Definition pass1_of (labels : list label) (max_gap_seconds : spec_float)
  : option (list label) :=
  match labels with
  | [] => Some []
  | first :: rest => pass1 first rest max_gap_seconds
  end.

(** Two segments as one: from the start of the first to the end of the
    second, under the first one's phoneme. *)
Definition coalesce (a b : label) : label :=
  {| start := start a; end_ := end_ b; phoneme := phoneme a |}.

(** What pass 1 does with the state it reaches at the end of the list. *)
Definition pass1_finish (st : pass1_state) : list label :=
  let '(merged, current_label, current_group) := st in
  merged ++ [relabel_silence current_group current_label].

(** The state with [m] in front of its [merged]. *)
Definition prepend (m : list label) (st : pass1_state) : pass1_state :=
  let '(merged, current_label, current_group) := st in
  (m ++ merged, current_label, current_group).

(** Two states that differ at most by a relabelling to [SP] that is still
    to come. *)
Definition same_up_to_relabel (st st' : pass1_state) : Prop :=
  let '(merged, c, g) := st in
  let '(merged', c', g') := st' in
  merged = merged' ∧ g = g' ∧ start c = start c' ∧ end_ c = end_ c' ∧
  relabel_silence g c = relabel_silence g c'.

(** [label['phoneme'] == 'SP'] *)
Definition is_SP (l : label) : bool := String.eqb (phoneme l) SP.

(** [current_label] after the inner loop of pass 2 has read the entries
    [rest] that follow it, and the number of entries it has absorbed. *)
Fixpoint absorb_label (current_label : label) (rest : list label) : label :=
  match rest with
  | r :: rest' =>
      if is_SP r then absorb_label (set_end current_label (end_ r)) rest'
      else current_label
  | [] => current_label
  end.

Fixpoint run_length (rest : list label) : nat :=
  match rest with
  | r :: rest' => if is_SP r then S (run_length rest') else O
  | [] => O
  end.

(** Pass 2 as a function of the list, from the right: an [SP] entry in
    front of an [SP] entry takes over the end of what that entry became. *)
Fixpoint coalesce_SP (l : list label) : list label :=
  match l with
  | [] => []
  | m :: rest =>
      if is_SP m then
        match rest with
        | r :: _ =>
            if is_SP r then
              match coalesce_SP rest with
              | y :: ys => set_end m (end_ y) :: ys
              | [] => [m]
              end
            else m :: coalesce_SP rest
        | [] => [m]
        end
      else m :: coalesce_SP rest
  end.

(** No entry labelled [SP] is followed by another one. *)
Fixpoint no_adjacent_SP (l : list label) : Prop :=
  match l with
  | a :: rest =>
      match rest with
      | b :: _ => ¬ (is_SP a = true ∧ is_SP b = true)
      | [] => True
      end ∧ no_adjacent_SP rest
  | [] => True
  end.

(** Every gap that pass 1 converts to seconds, from [prev] on, is in the
    range of a float. *)
Fixpoint gaps_convertible (prev : label) (rest : list label) : Prop :=
  match rest with
  | [] => True
  | next :: rest' =>
      is_Some (convert_htk_time_to_seconds (start next - end_ prev))
      ∧ gaps_convertible next rest'
  end.

(** The fields of a line as [parse_lab_file] sees them. *)
Definition fields (line : list ascii) : list (list ascii) :=
  Str.split (Str.strip line).

(** What one line contributes: a [ValueError] ([None]), nothing, or one
    segment. *)
Definition parse_line (line : list ascii) : option (option label) :=
  match fields line with
  | p0 :: p1 :: p2 :: _ =>
      start_time ← PyInt.int p0;
      end_time ← PyInt.int p1;
      Some (Some (Label start_time end_time (string_of_list_ascii p2)))
  | _ => Some None
  end.

(** A string that [split] returns as one field: not empty, no whitespace. *)
Definition is_token (s : list ascii) : bool :=
  match s with
  | [] => false
  | _ => forallb (λ c, negb (Str.isspace c)) s
  end.

Definition is_digit (c : ascii) : bool := bool_decide (is_Some (PyInt.digit_value c)).

(** The number a string of digits denotes, continuing from [acc]. *)
Definition decimal_value (acc : Z) (s : list ascii) : Z :=
  fold_left (λ a c, 10 * a + default 0 (PyInt.digit_value c)) s acc.

(** A segment whose phoneme is one field of a line. *)
Definition writable (l : label) : bool :=
  is_token (list_ascii_of_string (phoneme l)).

(** A number that [str] writes: of no more digits than
    [PyInt.int_max_str_digits]. *)
Definition in_str_range (n : Z) : Prop :=
  Z.abs n < 10 ^ PyInt.int_max_str_digits.

(** A segment whose start and end [str] writes. *)
Definition printable (l : label) : Prop :=
  in_str_range (start l) ∧ in_str_range (end_ l).

(** The line and the text that are written for segments that are
    printable. *)
Definition line_text (l : label) : list ascii :=
  PyInt.decimal (start l) ++ [" "%char] ++ PyInt.decimal (end_ l) ++ [" "%char]
  ++ list_ascii_of_string (phoneme l) ++ [Str.LF].

Definition file_text (labels : list label) : list ascii :=
  flat_map line_text labels.

(** [m] changes no object of the store [h0], from whatever store that
    extends [h0] it starts; when it returns, its result satisfies [P]. *)
Definition keeps_store (h0 : Heap.heap) {A} (m : Heap.M A) (P : A → Prop) : Prop :=
  ∀ h, h0 ⊆ h →
    h0 ⊆ (m h).2 ∧
    match (m h).1 with Returns a => P a | _ => True end.

(** An address that the store [h0] does not use. *)
Definition fresh_in (h0 : Heap.heap) (l : positive) : Prop := h0 !! l = None.

(** The addresses [xs] hold, in the store [h], the segments [vs]. *)
Definition holds (h : Heap.heap) (xs : list positive) (vs : list label) : Prop :=
  Forall2 (λ x d, h !! x = Some (Heap.Dict d)) xs vs.

(** The store [h] and the variables [merged] and [current_label] of pass 1
    on the heap stand for the lists and the segment of the pure pass 1; the
    two objects were made after the store [h0]. *)
Definition pass1_rel (h0 h : Heap.heap) (merged current_label : positive)
    (m : list label) (c : label) : Prop :=
  h0 ⊆ h ∧ h0 !! merged = None ∧ h0 !! current_label = None ∧
  h !! current_label = Some (Heap.Dict c) ∧
  ∃ ms, h !! merged = Some (Heap.PyList ms) ∧ holds h ms m ∧ current_label ∉ ms.

(** The same for the list [final_merged] of pass 2, made after the store
    [h1] that pass 1 has left. *)
Definition pass2_rel (h1 h : Heap.heap) (final_merged : positive)
    (f : list label) : Prop :=
  h1 ⊆ h ∧ h1 !! final_merged = None ∧
  ∃ fs, h !! final_merged = Some (Heap.PyList fs) ∧ holds h fs f.

(** An adjacent pair of the output of pass 1 that pass 1 would not merge. *)
Definition stable_pair (max_gap_seconds : spec_float) (x y : label) : Prop :=
  ∃ gap_seconds,
    convert_htk_time_to_seconds (start y - end_ x) = Some gap_seconds ∧
    String.eqb (get_phoneme_group (phoneme x)) (get_phoneme_group (phoneme y))
      && SFleb gap_seconds max_gap_seconds = false.

(** Every adjacent pair without an [SP] entry is stable. *)
Fixpoint pass1_stable (max_gap_seconds : spec_float) (l : list label) : Prop :=
  match l with
  | x :: rest =>
      match rest with
      | y :: _ => is_SP x = false → is_SP y = false → stable_pair max_gap_seconds x y
      | [] => True
      end ∧ pass1_stable max_gap_seconds rest
  | [] => True
  end.

(** An entry that pass 1 has closed: labelled [SP], or of a group that is
    not silence. *)
Definition settled (x : label) : Prop :=
  is_SP x = true ∨ get_phoneme_group (phoneme x) ≠ silence.

(** ** Vocabulary of the further properties *)

(** The table that the classifier acts on: each token under the one group
    it is given, the groups in the order of [PHONEME_GROUPS]. *)
Definition EFFECTIVE_GROUPS : list (string * list string) :=
  [ ("sibilants",  ["s"; "z"; "sh"; "zh"; "ts"; "dz"; "ch"; "dj"; "x"]);
    ("vowels",     ["a"; "e"; "i"; "o"; "u"]);
    ("consonants", ["b"; "c"; "d"; "f"; "g"; "h"; "j"; "k"; "l"; "m"; "n";
                    "p"; "q"; "r"; "t"; "v"; "w"]);
    ("nasals",     ["ng"]);
    ("fricatives", ["th"; "dh"]);
    ("silence",    ["pau"; "sil"]);
    ("special",    ["cl"; "vf"]) ]%string.

(** The time marks of a segment list: start, end, start, end, ... *)
Definition marks (l : list label) : list Z :=
  flat_map (λ a, [start a; end_ a]) l.

(** A float that is zero, finite or infinite, with the sign [s]. *)
Definition has_sign (s : bool) (x : spec_float) : Prop :=
  match x with
  | S754_zero s' | S754_infinity s' | S754_finite s' _ _ => s' = s
  | S754_nan => False
  end.

(** Every adjacent pair from [prev] on is eligible for merging. *)
Fixpoint all_eligible (max_gap_seconds : spec_float) (prev : label)
    (rest : list label) : Prop :=
  match rest with
  | [] => True
  | next :: rest' =>
      (∃ gap_seconds,
         convert_htk_time_to_seconds (start next - end_ prev) = Some gap_seconds ∧
         String.eqb (get_phoneme_group (phoneme prev))
                    (get_phoneme_group (phoneme next))
           && SFleb gap_seconds max_gap_seconds = true)
      ∧ all_eligible max_gap_seconds next rest'
  end.

(** The gaps of a segment list: the end of each segment with the start of
    the segment that follows it. *)
Fixpoint gaps (l : list label) : list (Z * Z) :=
  match l with
  | a :: rest =>
      match rest with
      | b :: _ => (end_ a, start b) :: gaps rest
      | [] => []
      end
  | [] => []
  end.

(** A segment moved in time by [d] ticks. *)
Definition shift (d : Z) (l : label) : label :=
  {| start := start l + d; end_ := end_ l + d; phoneme := phoneme l |}.

(** ** The batch run (source lines 141-170)

    [process_lab_files] from the list [lab_files] on; the choice of the
    output path, [mkdir] and [glob] (source lines 133-139) are the file
    system's and are not modelled.  A file is its name and the characters
    it holds, so every file listed can be opened and decoded; the output
    directory is a map from names to the characters written, so that
    [output_path / lab_file.name] is the key [name], and every output
    file can be opened and written to.  The calls of [print] are kept as a list of messages, each
    without the fixed words of its text and without the text of the
    exception it reports.  Every exception that the body of the [try]
    raises ([ValueError] of the parser or of the writer, [OverflowError]
    of the merger) is caught there. *)

Inductive message :=
  | NoLabFiles
  | Found (n : nat)
  | Processing (name : string)
  | EmptyFile (name : string)
  | OriginalLabels (n : nat)
  | AfterMerging (n : nat)
  | Saved (name : string)
  | ErrorDuringProcessing (name : string)
  | Completed.

(** One iteration of [for lab_file in lab_files] (source lines 148-168).
    [None] is the model's out of fuel of [merge_labels]. *)
Definition process_lab_file (max_gap_seconds : spec_float)
    (st : gmap string (list ascii) * list message)
    (lab_file : string * list ascii)
  : option (gmap string (list ascii) * list message) :=
  let '(output, printed) := st in
  let '(name, content) := lab_file in
  let printed := printed ++ [Processing name] in
  match parse_lab_file content with
  | None => Some (output, printed ++ [ErrorDuringProcessing name])
  | Some labels =>
      if bool_decide (labels = []) then Some (output, printed ++ [EmptyFile name])
      else
        let printed := printed ++ [OriginalLabels (length labels)] in
        match merge_labels labels max_gap_seconds with
        | Returns merged_labels =>
            let printed := printed ++ [AfterMerging (length merged_labels)] in
            let '(f, returned) := write_lab_file merged_labels in
            let output := <[name := f]> output in
            if returned then Some (output, printed ++ [Saved name])
            else Some (output, printed ++ [ErrorDuringProcessing name])
        | Raises _ => Some (output, printed ++ [ErrorDuringProcessing name])
        | OutOfFuel => None
        end
  end.

Fixpoint process_loop (max_gap_seconds : spec_float)
    (lab_files : list (string * list ascii))
    (st : gmap string (list ascii) * list message)
  : option (gmap string (list ascii) * list message) :=
  match lab_files with
  | [] => Some st
  | lab_file :: lab_files' =>
      st' ← process_lab_file max_gap_seconds st lab_file;
      process_loop max_gap_seconds lab_files' st'
  end.

(** Source lines 141-170: the output directory and the messages printed,
    from the files found and the output directory as it was. *)
Definition process_lab_files (lab_files : list (string * list ascii))
    (output : gmap string (list ascii)) (max_gap_seconds : spec_float)
  : option (gmap string (list ascii) * list message) :=
  if bool_decide (lab_files = []) then Some (output, [NoLabFiles])
  else
    st ← process_loop max_gap_seconds lab_files
           (output, [Found (length lab_files)]);
    Some (st.1, st.2 ++ [Completed]).

(** What a run writes for a file that holds [content], if anything. *)
Definition refined (max_gap_seconds : spec_float) (content : list ascii)
  : option (list ascii) :=
  match parse_lab_file content with
  | Some (first :: rest) =>
      match merge_labels (first :: rest) max_gap_seconds with
      | Returns merged_labels => Some (write_lab_file merged_labels).1
      | _ => None
      end
  | _ => None
  end.

(** The messages that the iteration for one file prints. *)
Definition file_messages (max_gap_seconds : spec_float)
    (lab_file : string * list ascii) : list message :=
  match process_lab_file max_gap_seconds (∅, []) lab_file with
  | Some st => st.2
  | None => []
  end.

(** [Q] holds of the result of [m] and of the store it leaves, where [m]
    returns from the store [h]. *)
Definition returns_with {A} (m : Heap.M A) (h : Heap.heap)
    (Q : A → Heap.heap → Prop) : Prop :=
  match m h with
  | (Returns a, h') => Q a h'
  | _ => True
  end.

(** The list object at [l] holds objects that the store [h0] does not
    have, each of them once. *)
Definition fresh_items (h0 h : Heap.heap) (l : positive) : Prop :=
  ∃ items, h !! l = Some (Heap.PyList items) ∧ NoDup items ∧
           Forall (λ x, h0 !! x = None ∧ is_Some (h !! x)) items.

(** * Properties *)

(** ** The classifier *)

Lemma lower_char_not_upper (c : ascii) : Str.is_upper (Str.lower_char c) = false.
Proof.
  destruct c as [[] [] [] [] [] [] [] []]; vm_compute; reflexivity.
Qed.

Lemma lower_cons_inv (t : string) (c : ascii) (s : string) :
  Str.lower t = String c s → Str.is_upper c = false.
Proof.
  destruct t as [|c' t']; simpl; [discriminate|].
  intros [= <- _]. apply lower_char_not_upper.
Qed.

(** No lowercased token is one of the capitalised table entries. *)
Lemma lower_neq_N (t : string) : Str.lower t ≠ "N"%string.
Proof. intros H. apply lower_cons_inv in H. vm_compute in H. discriminate. Qed.

Lemma lower_neq_SP (t : string) : Str.lower t ≠ "SP"%string.
Proof. intros H. apply lower_cons_inv in H. vm_compute in H. discriminate. Qed.

Lemma get_phoneme_group_lower (t : string) :
  get_phoneme_group t =
    (let p := Str.lower t in
     if bool_decide (p ∈ ["pau"; "sil"; "SP"]%string) then "silence"%string
     else default "unknown"%string (scan_groups PHONEME_GROUPS p)).
Proof.
  unfold get_phoneme_group.
  change (default [] (dict_get PHONEME_GROUPS "silence"))
    with ["pau"; "sil"; "SP"]%string.
  cbv zeta. case_bool_decide; [reflexivity|].
  destruct (scan_groups PHONEME_GROUPS (Str.lower t)); reflexivity.
Qed.

(** The group of a token whose lowercased form is given. *)
Lemma get_phoneme_group_of_lower (t p : string) :
  Str.lower t = p →
  get_phoneme_group t =
    (if bool_decide (p ∈ ["pau"; "sil"; "SP"]%string) then "silence"%string
     else default "unknown"%string (scan_groups PHONEME_GROUPS p)).
Proof. intros <-. apply get_phoneme_group_lower. Qed.

(** The scan never answers [silence]: its entry is reached only by a
    token that the first test has already taken. *)
Lemma scan_groups_silence (p : string) :
  scan_groups PHONEME_GROUPS p = Some "silence"%string →
  p ∈ ["pau"; "sil"; "SP"]%string.
Proof.
  unfold PHONEME_GROUPS. cbn [scan_groups].
  repeat (case_bool_decide; [discriminate|]).
  case_bool_decide; [intros _; assumption|].
  case_bool_decide; discriminate.
Qed.

(** The tokens classified as silence are those whose lowercased form is
    [pau] or [sil]. *)
Lemma get_phoneme_group_silence (t : string) :
  get_phoneme_group t = silence ↔
  Str.lower t = "pau"%string ∨ Str.lower t = "sil"%string.
Proof.
  split.
  - rewrite get_phoneme_group_lower. cbv zeta. case_bool_decide as Hin.
    + intros _.
      apply elem_of_cons in Hin as [Hin|Hin]; [by left|].
      apply elem_of_cons in Hin as [Hin|Hin]; [by right|].
      apply elem_of_cons in Hin as [Hin|Hin]; [by apply lower_neq_SP in Hin|].
      by apply elem_of_nil in Hin.
    + destruct (scan_groups PHONEME_GROUPS (Str.lower t)) as [g|] eqn:Hscan;
        simpl; [|discriminate].
      intros ->. by apply scan_groups_silence in Hscan.
  - intros [H|H]; rewrite (get_phoneme_group_of_lower _ _ H); reflexivity.
Qed.

(** C2, at the token the code itself writes for silence: its lowercased
    form is [sp], which no table entry equals, and the group is [unknown]. *)
Theorem get_phoneme_group_SP_unknown :
  Str.lower "SP" = "sp"%string ∧
  get_phoneme_group "SP" = "unknown"%string ∧
  get_phoneme_group "sp" = "unknown"%string.
Proof. repeat split; reflexivity. Qed.

(** C10: the capitalised table entries [N] and [SP] are never matched.  A
    token whose lowercased form is [n] is a consonant and not a vowel; no
    lowercased token equals [N] or [SP]; and the tokens classified as
    silence are exactly those that lowercase to [pau] or [sil]. *)
Theorem uppercase_entries_unreachable :
  (∀ t : string, Str.lower t = "n"%string →
     get_phoneme_group t = "consonants"%string ∧
     get_phoneme_group t ≠ "vowels"%string) ∧
  (∀ t : string, Str.lower t ≠ "N"%string ∧ Str.lower t ≠ "SP"%string) ∧
  (∀ t : string, get_phoneme_group t = "silence"%string ↔
     Str.lower t = "pau"%string ∨ Str.lower t = "sil"%string).
Proof.
  split; [|split].
  - intros t H. rewrite (get_phoneme_group_of_lower _ _ H).
    split; [reflexivity|discriminate].
  - intros t. split; [apply lower_neq_N|apply lower_neq_SP].
  - apply get_phoneme_group_silence.
Qed.

Lemma uppercase_entries_unreachable_witness :
  Str.lower "N" = "n"%string ∧
  get_phoneme_group "N" = "consonants"%string ∧
  get_phoneme_group "N" ≠ "vowels"%string.
Proof.
  split; [reflexivity|].
  apply (proj1 uppercase_entries_unreachable "N"%string). reflexivity.
Defined.

(** ** The merge decision *)

Lemma merge_rules_diagonal (group1 group2 : string) :
  (group1, group2) ∈ merge_rules → group1 = group2.
Proof.
  intros H. unfold merge_rules in H.
  repeat (apply elem_of_cons in H as [[= -> ->]|H]; [reflexivity|]).
  by apply elem_of_nil in H.
Qed.

Lemma should_merge_phonemes_eqb (phoneme1 phoneme2 group1 group2 : string) :
  should_merge_phonemes phoneme1 phoneme2 group1 group2 = String.eqb group1 group2.
Proof.
  unfold should_merge_phonemes.
  destruct (String.eqb_spec group1 group2) as [|Hne]; [reflexivity|].
  apply orb_false_intro; apply bool_decide_eq_false; intros H;
    apply merge_rules_diagonal in H; congruence.
Qed.

(** C4: [should_merge_phonemes] is the test [group1 == group2], whatever
    the phonemes; a pair of the allow-list has equal components, so the
    list grants nothing that the equality test does not. *)
Theorem should_merge_phonemes_is_equality :
  (∀ phoneme1 phoneme2 group1 group2 : string,
     should_merge_phonemes phoneme1 phoneme2 group1 group2
     = String.eqb group1 group2) ∧
  (∀ group1 group2 : string,
     bool_decide ((group1, group2) ∈ merge_rules)
     || bool_decide ((group2, group1) ∈ merge_rules) = true →
     group1 = group2).
Proof.
  split; [exact should_merge_phonemes_eqb|].
  intros g1 g2 H. apply orb_true_iff in H as [H|H];
    apply bool_decide_eq_true in H; apply merge_rules_diagonal in H; congruence.
Qed.

Lemma should_merge_phonemes_is_equality_witness :
  bool_decide (("vowels", "vowels")%string ∈ merge_rules)
  || bool_decide (("vowels", "vowels")%string ∈ merge_rules) = true ∧
  "vowels"%string = "vowels"%string.
Proof.
  split; [reflexivity|].
  apply (proj2 should_merge_phonemes_is_equality "vowels" "vowels")%string.
  reflexivity.
Defined.

(** ** The range of the time conversion *)

Section FloatRange.

Lemma digits2_pos_size p : digits2_pos p = Pos.size p.
Proof. induction p; simpl; congruence. Qed.

Lemma Zdigits2_le m k : 0 ≤ m < 2 ^ k → 0 ≤ k → Zdigits2 m ≤ k.
Proof.
  intros [Hm Hlt] Hk. destruct m as [|p|p]; [done| |lia]. simpl.
  rewrite digits2_pos_size.
  assert (Z.log2 (Zpos p) < k) by (apply Z.log2_lt_pow2; lia).
  pose proof (Pos.size_gt p) as Hs.
  destruct (Z.le_gt_cases (Zpos (Pos.size p)) k) as [|Hgt]; [done|].
  exfalso.
  assert (2 ^ k ≤ Zpos p); [|lia].
  pose proof (Pos.size_le p) as Hle.
  assert (Zpos (2 ^ Pos.size p) ≤ Zpos p~0) as Hle' by exact Hle.
  rewrite Pos2Z.inj_pow in Hle'.
  assert (2 ^ (k + 1) ≤ 2 ^ Zpos (Pos.size p)) by (apply Z.pow_le_mono_r; lia).
  rewrite Z.pow_add_r in * by lia. lia.
Qed.

Lemma shr_1_m mrs : 0 ≤ shr_m mrs → shr_m (shr_1 mrs) = shr_m mrs / 2.
Proof.
  destruct mrs as [m r s]. simpl. intros Hm.
  destruct m as [|[p|p|]|p]; try reflexivity; try lia; simpl shr_m.
  - apply (Z.div_unique _ _ _ 1); lia.
  - apply (Z.div_unique _ _ _ 0); lia.
Qed.

Lemma iter_pos_shr_1_m p mrs :
  0 ≤ shr_m mrs → shr_m (SpecFloat.iter_pos shr_1 p mrs) = shr_m mrs / 2 ^ Zpos p.
Proof.
  revert mrs. induction p as [p IH|p IH|]; intros mrs Hm; simpl SpecFloat.iter_pos.
  - assert (0 ≤ shr_m (shr_1 mrs)) as H1
      by (rewrite shr_1_m by done; apply Z.div_pos; lia).
    assert (0 ≤ shr_m (SpecFloat.iter_pos shr_1 p (shr_1 mrs))) as H2
      by (rewrite IH by done; apply Z.div_pos; lia).
    rewrite IH, IH, shr_1_m by done.
    rewrite !Z.div_div by lia. f_equal.
    replace (Z.pos p~1) with (1 + Z.pos p + Z.pos p) by lia.
    rewrite !Z.pow_add_r by lia. lia.
  - assert (0 ≤ shr_m (SpecFloat.iter_pos shr_1 p mrs)) as H2
      by (rewrite IH by done; apply Z.div_pos; lia).
    rewrite IH, IH by done.
    rewrite !Z.div_div by lia. f_equal.
    replace (Z.pos p~0) with (Z.pos p + Z.pos p) by lia.
    rewrite !Z.pow_add_r by lia. lia.
  - rewrite shr_1_m by done. reflexivity.
Qed.

Lemma shr_spec mrs e n :
  0 ≤ shr_m mrs →
  shr_m (fst (shr mrs e n)) = shr_m mrs / 2 ^ Z.max 0 n ∧
  snd (shr mrs e n) = e + Z.max 0 n.
Proof.
  intros Hm. destruct n as [|p|p]; simpl.
  - rewrite Z.div_1_r. lia.
  - rewrite iter_pos_shr_1_m by done. split; [reflexivity|lia].
  - rewrite Z.div_1_r. lia.
Qed.

Lemma round_nearest_even_bounds m l :
  m ≤ round_nearest_even m l ≤ m + 1.
Proof.
  destruct l as [|[]]; simpl; try lia. destruct (Z.even m); lia.
Qed.

(** Rounding a positive value below [2 ^ 1023] gives no infinity. *)
Lemma binary_round_aux_not_infinity s mx ex :
  0 < mx → ex ≤ 971 → mx < 2 ^ (1023 - ex) →
  ∀ s', binary_round_aux 53 1024 s mx ex loc_Exact ≠ S754_infinity s'.
Proof.
  intros Hpos Hex Hlt s'. unfold binary_round_aux, shr_fexp.
  set (n1 := fexp 53 1024 (Zdigits2 mx + ex) - ex).
  pose proof (shr_spec (shr_record_of_loc mx loc_Exact) ex n1) as [Hm1 He1];
    [simpl; lia|].
  destruct (shr (shr_record_of_loc mx loc_Exact) ex n1) as [mrs1 e1].
  simpl in Hm1, He1.
  set (m1 := round_nearest_even (shr_m mrs1) (loc_of_shr_record mrs1)).
  set (n2 := fexp 53 1024 (Zdigits2 m1 + e1) - e1).
  assert (Zdigits2 mx ≤ 1023 - ex) as Hd by (apply Zdigits2_le; lia).
  assert (e1 ≤ 971) as He1'.
  { subst e1 n1. unfold fexp, emin. lia. }
  assert (0 ≤ shr_m mrs1 < 2 ^ (1023 - e1)) as Hm1'.
  { rewrite Hm1. split; [apply Z.div_pos; lia|].
    apply Z.div_lt_upper_bound; [lia|].
    rewrite <- Z.pow_add_r by lia. replace (Z.max 0 n1 + (1023 - e1)) with (1023 - ex) by lia.
    done. }
  pose proof (round_nearest_even_bounds (shr_m mrs1) (loc_of_shr_record mrs1)) as Hr.
  fold m1 in Hr.
  assert (Zdigits2 m1 ≤ 1024 - e1) as Hd1.
  { apply Zdigits2_le; [|lia]. split; [lia|].
    replace (1024 - e1) with (1 + (1023 - e1)) by lia.
    rewrite Z.pow_add_r by lia. lia. }
  pose proof (shr_spec (shr_record_of_loc m1 loc_Exact) e1 n2) as [_ He2];
    [simpl; lia|].
  destruct (shr (shr_record_of_loc m1 loc_Exact) e1 n2) as [mrs2 e2].
  simpl in He2.
  assert (e2 ≤ 971) as He2'.
  { subst e2 n2. unfold fexp, emin. lia. }
  destruct (shr_m mrs2); [done| |done].
  destruct (Z.leb_spec e2 (1024 - 53)); [done|lia].
Qed.

Lemma pos_iter_xO m d : Zpos (Pos.iter xO m d) = Zpos m * 2 ^ Zpos d.
Proof.
  induction d as [|d IH] using Pos.peano_ind.
  - simpl. lia.
  - rewrite Pos.iter_succ, Pos2Z.inj_xO, IH, Pos2Z.inj_succ, Z.pow_succ_r by lia.
    lia.
Qed.

Lemma binary_round_not_infinity s m :
  Zpos m < 2 ^ 1023 → ∀ s', binary_round 53 1024 s m 0 ≠ S754_infinity s'.
Proof.
  intros Hlt s'. unfold binary_round, shl_align.
  set (e := fexp 53 1024 (Z.pos (digits2_pos m) + 0)).
  destruct (e - 0) as [|d|d] eqn:He.
  - apply binary_round_aux_not_infinity; lia.
  - apply binary_round_aux_not_infinity; lia.
  - apply binary_round_aux_not_infinity; [lia|lia|].
    rewrite pos_iter_xO.
    replace (1023 - e) with (1023 + Zpos d) by lia.
    rewrite Z.pow_add_r by lia.
    apply Z.mul_lt_mono_pos_r; lia.
Qed.

(** An integer below [2 ^ 1023] in magnitude converts to a float. *)
Lemma float_of_int_in_range n :
  Z.abs n < 2 ^ 1023 → is_Some (float_of_int n).
Proof.
  intros Hn. unfold float_of_int.
  destruct (binary_normalize 53 1024 n 0 false) as [| s' | |] eqn:Hb;
    try by eexists.
  exfalso. destruct n as [|m|m]; simpl in Hb; [done| |].
  - by apply binary_round_not_infinity in Hb; [|lia].
  - by apply binary_round_not_infinity in Hb; [|lia].
Qed.

End FloatRange.


Lemma convert_htk_time_to_seconds_in_range (htk_time : Z) :
  Z.abs htk_time < 2 ^ 1023 → is_Some (convert_htk_time_to_seconds htk_time).
Proof.
  intros H. apply float_of_int_in_range in H as [x Hx].
  unfold convert_htk_time_to_seconds. rewrite Hx. by eexists.
Qed.

(** ** Pass 1 *)

Section Pass1.

Variable max_gap_seconds : spec_float.

Abbreviation body := (pass1_body max_gap_seconds).
Abbreviation loop := (pass1_loop max_gap_seconds).

(** The iteration, with the merge decision written as the equality of
    the groups and the gap test. *)
Lemma pass1_body_eq merged current_label current_group next_label :
  body (merged, current_label, current_group) next_label =
    (gap_seconds ←
       convert_htk_time_to_seconds (start next_label - end_ current_label);
     let next_group := get_phoneme_group (phoneme next_label) in
     Some (if String.eqb current_group next_group
              && SFleb gap_seconds max_gap_seconds
           then (merged,
                 relabel_silence current_group
                   (set_end current_label (end_ next_label)),
                 current_group)
           else (merged ++ [relabel_silence current_group current_label],
                 next_label, next_group))).
Proof.
  unfold pass1_body.
  destruct (convert_htk_time_to_seconds _) as [g|]; simpl; [|reflexivity].
  rewrite should_merge_phonemes_eqb, andb_comm.
  destruct (String.eqb_spec current_group (get_phoneme_group (phoneme next_label)))
    as [<-|]; simpl; [|reflexivity].
  destruct (SFleb g max_gap_seconds); [|reflexivity].
  unfold relabel_silence. rewrite andb_diag. reflexivity.
Qed.

Lemma pass1_loop_cons next_label rest st :
  loop (next_label :: rest) st = body st next_label ≫= loop rest.
Proof. reflexivity. Qed.

Lemma pass1_loop_app l1 l2 st :
  loop (l1 ++ l2) st = loop l1 st ≫= loop l2.
Proof.
  revert st. induction l1 as [|a l1 IH]; intros st; simpl; [reflexivity|].
  destruct (body st a) as [st'|]; simpl; [apply IH|reflexivity].
Qed.

Lemma pass1_body_prepend m st next_label :
  body (prepend m st) next_label = prepend m <$> body st next_label.
Proof.
  destruct st as [[merged c] g]. unfold prepend at 1.
  rewrite !pass1_body_eq.
  destruct (convert_htk_time_to_seconds _); simpl; [|reflexivity].
  destruct (_ && _); simpl; [reflexivity|].
  by rewrite app_assoc.
Qed.

Lemma pass1_loop_prepend m rest st :
  loop rest (prepend m st) = prepend m <$> loop rest st.
Proof.
  revert st. induction rest as [|a rest IH]; intros st; simpl; [reflexivity|].
  rewrite pass1_body_prepend.
  destruct (body st a) as [st'|]; simpl; [apply IH|reflexivity].
Qed.

Lemma relabel_silence_set_end g c e :
  relabel_silence g (set_end c e) = set_end (relabel_silence g c) e.
Proof. unfold relabel_silence. destruct (String.eqb g silence); reflexivity. Qed.

Lemma relabel_silence_idem g c :
  relabel_silence g (relabel_silence g c) = relabel_silence g c.
Proof. unfold relabel_silence. destruct (String.eqb g silence); reflexivity. Qed.

Lemma relabel_silence_start g c : start (relabel_silence g c) = start c.
Proof. unfold relabel_silence. destruct (String.eqb g silence); reflexivity. Qed.

Lemma relabel_silence_end g c : end_ (relabel_silence g c) = end_ c.
Proof. unfold relabel_silence. destruct (String.eqb g silence); reflexivity. Qed.

(** One iteration brings two such states to the same state. *)
Lemma pass1_body_up_to_relabel st st' next_label :
  same_up_to_relabel st st' → body st next_label = body st' next_label.
Proof.
  destruct st as [[m c] g], st' as [[m' c'] g'].
  intros (-> & <- & Hs & He & Hr). rewrite !pass1_body_eq, He.
  destruct (convert_htk_time_to_seconds _); simpl; [|reflexivity].
  rewrite !relabel_silence_set_end, Hr. reflexivity.
Qed.

Lemma pass1_run_up_to_relabel rest st st' :
  same_up_to_relabel st st' →
  pass1_finish <$> loop rest st = pass1_finish <$> loop rest st'.
Proof.
  intros H. destruct rest as [|a rest]; simpl.
  - destruct st as [[m c] g], st' as [[m' c'] g'].
    destruct H as (-> & <- & _ & _ & Hr). simpl. by rewrite Hr.
  - by rewrite (pass1_body_up_to_relabel _ _ _ H).
Qed.

Lemma pass1_loop_from_nil rest m c g :
  loop rest (m, c, g) = prepend m <$> loop rest ([], c, g).
Proof. rewrite <- pass1_loop_prepend. simpl. by rewrite app_nil_r. Qed.

(** After an iteration the state carries the end and the group of the
    segment just read. *)
Lemma pass1_body_tracks st next_label merged c g :
  body st next_label = Some (merged, c, g) →
  end_ c = end_ next_label ∧ g = get_phoneme_group (phoneme next_label).
Proof.
  destruct st as [[m0 c0] g0]. rewrite pass1_body_eq.
  destruct (convert_htk_time_to_seconds _); simpl; [|discriminate].
  destruct (String.eqb_spec g0 (get_phoneme_group (phoneme next_label))) as [Heq|];
    simpl; [destruct (SFleb _ _)|]; intros [= <- <- <-];
    rewrite ?relabel_silence_end; auto.
Qed.

Lemma pass1_loop_tracks l a st merged c g :
  loop (l ++ [a]) st = Some (merged, c, g) →
  end_ c = end_ a ∧ g = get_phoneme_group (phoneme a).
Proof.
  rewrite pass1_loop_app. destruct (loop l st) as [st1|]; simpl; [|discriminate].
  destruct (body st1 a) as [[[m2 c2] g2]|] eqn:Hb; simpl; [|discriminate].
  intros [= <- <- <-]. by apply pass1_body_tracks in Hb.
Qed.

(** [pass1] as the run of the loop from the first segment. *)
Lemma pass1_eq first rest :
  pass1 first rest max_gap_seconds =
    pass1_finish <$> loop rest ([], first, get_phoneme_group (phoneme first)).
Proof.
  unfold pass1. destruct (loop rest _) as [[[m c] g]|]; reflexivity.
Qed.

(** Reading [a] and then a [b] that merges with it is reading the two
    as one segment. *)
Lemma pass1_two_steps_merge st a b l2 gap_seconds :
  convert_htk_time_to_seconds (start b - end_ a) = Some gap_seconds →
  String.eqb (get_phoneme_group (phoneme a)) (get_phoneme_group (phoneme b))
    && SFleb gap_seconds max_gap_seconds = true →
  pass1_finish <$> loop (a :: b :: l2) st
  = pass1_finish <$> loop (coalesce a b :: l2) st.
Proof.
  intros Hgap Hcond. destruct st as [[m c] g].
  cbn [pass1_loop]. rewrite !pass1_body_eq. cbn [start coalesce phoneme].
  destruct (convert_htk_time_to_seconds (start a - end_ c)) as [g1|];
    simpl; [|reflexivity].
  destruct (String.eqb g (get_phoneme_group (phoneme a)) && SFleb g1 max_gap_seconds)
    eqn:Hc1.
  - apply andb_true_iff in Hc1 as [Hg _]. apply String.eqb_eq in Hg. subst g.
    rewrite pass1_body_eq, relabel_silence_end. cbn [end_ set_end].
    rewrite Hgap. simpl. rewrite Hcond.
    apply pass1_run_up_to_relabel.
    repeat split; unfold relabel_silence;
      destruct (String.eqb _ silence); reflexivity.
  - rewrite pass1_body_eq. rewrite Hgap. simpl. rewrite Hcond.
    apply pass1_run_up_to_relabel.
    repeat split; unfold relabel_silence;
      destruct (String.eqb _ silence); reflexivity.
Qed.

(** A [b] that does not merge closes the output before it: what follows
    is pass 1 on the list that starts at [b]. *)
Lemma pass1_step_split m c g b l2 gap_seconds :
  convert_htk_time_to_seconds (start b - end_ c) = Some gap_seconds →
  String.eqb g (get_phoneme_group (phoneme b))
    && SFleb gap_seconds max_gap_seconds = false →
  pass1_finish <$> loop (b :: l2) (m, c, g)
  = (λ m2, pass1_finish (m, c, g) ++ m2) <$> pass1 b l2 max_gap_seconds.
Proof.
  intros Hgap Hcond. cbn [pass1_loop]. rewrite pass1_body_eq, Hgap. simpl.
  rewrite Hcond, pass1_eq, pass1_loop_from_nil.
  destruct (loop l2 _) as [[[m2 c2] g2]|]; simpl; [|reflexivity].
  by rewrite <- !app_assoc.
Qed.

Lemma pass1_of_cons_app first l l' :
  pass1_of (first :: l ++ l') max_gap_seconds
  = pass1_finish <$>
      (loop l ([], first, get_phoneme_group (phoneme first)) ≫= loop l').
Proof. cbn [pass1_of]. by rewrite pass1_eq, pass1_loop_app. Qed.

(** An adjacent pair that is eligible is read as one segment. *)
Lemma pass1_merge_pair l1 a b l2 gap_seconds :
  convert_htk_time_to_seconds (start b - end_ a) = Some gap_seconds →
  String.eqb (get_phoneme_group (phoneme a)) (get_phoneme_group (phoneme b))
    && SFleb gap_seconds max_gap_seconds = true →
  pass1_of (l1 ++ a :: b :: l2) max_gap_seconds
  = pass1_of (l1 ++ coalesce a b :: l2) max_gap_seconds.
Proof.
  intros Hgap Hcond. destruct l1 as [|first l1]; cbn [app].
  - cbn [pass1_of]. rewrite !pass1_eq. cbn [pass1_loop phoneme coalesce].
    rewrite pass1_body_eq, Hgap. simpl. rewrite Hcond.
    apply pass1_run_up_to_relabel.
    repeat split; unfold relabel_silence;
      destruct (String.eqb _ silence); reflexivity.
  - rewrite !pass1_of_cons_app.
    destruct (loop l1 _) as [st|]; simpl; [|reflexivity].
    by apply (pass1_two_steps_merge st a b l2 gap_seconds).
Qed.

(** An adjacent pair that is not eligible separates the output. *)
Lemma pass1_split_pair l1 a b l2 gap_seconds :
  convert_htk_time_to_seconds (start b - end_ a) = Some gap_seconds →
  String.eqb (get_phoneme_group (phoneme a)) (get_phoneme_group (phoneme b))
    && SFleb gap_seconds max_gap_seconds = false →
  pass1_of (l1 ++ a :: b :: l2) max_gap_seconds
  = (m1 ← pass1_of (l1 ++ [a]) max_gap_seconds;
     m2 ← pass1_of (b :: l2) max_gap_seconds;
     Some (m1 ++ m2)).
Proof.
  intros Hgap Hcond. destruct l1 as [|first l1]; cbn [app].
  - cbn [pass1_of]. rewrite (pass1_eq a (b :: l2)).
    rewrite (pass1_step_split [] a _ b l2 gap_seconds Hgap Hcond).
    rewrite (pass1_eq a []). cbn [pass1_loop].
    destruct (pass1 b l2 _); reflexivity.
  - change (first :: l1 ++ a :: b :: l2) with (first :: l1 ++ [a] ++ b :: l2).
    rewrite app_assoc, !pass1_of_cons_app.
    rewrite <- (pass1_loop_app l1 [a]).
    destruct (loop (l1 ++ [a]) _) as [[[m c] g]|] eqn:Hst;
      cbn [mbind option_bind fmap option_fmap option_map]; [|reflexivity].
    apply pass1_loop_tracks in Hst as [He ->].
    rewrite <- He in Hgap.
    pose proof (pass1_step_split m c _ b l2 gap_seconds Hgap Hcond) as Hs.
    cbn [fmap option_fmap option_map] in Hs. rewrite Hs.
    cbn [pass1_of]. destruct (pass1 b l2 _); reflexivity.
Qed.

(** The loop raises exactly when one of the gaps does not convert. *)
Lemma pass1_loop_is_Some rest prev merged c g :
  end_ c = end_ prev →
  is_Some (loop rest (merged, c, g)) ↔ gaps_convertible prev rest.
Proof.
  revert prev merged c g.
  induction rest as [|next rest IH]; intros prev merged c g He.
  - simpl. split; [done|]. intros _. by eexists.
  - cbn [pass1_loop gaps_convertible]. rewrite <- He.
    destruct (body (merged, c, g) next) as [[[m' c'] g']|] eqn:Hb.
    + pose proof (pass1_body_tracks _ _ _ _ _ Hb) as [He' _].
      cbn [mbind option_bind]. rewrite (IH next m' c' g' He').
      rewrite pass1_body_eq in Hb.
      destruct (convert_htk_time_to_seconds _); [|discriminate].
      split; [intros ?; split; [by eexists|done]|by intros [_ ?]].
    + cbn [mbind option_bind]. rewrite pass1_body_eq in Hb.
      destruct (convert_htk_time_to_seconds _); [discriminate|].
      split; [by intros [? ?]|]. by intros [[? ?] _].
Qed.

Lemma pass1_is_Some first rest :
  is_Some (pass1 first rest max_gap_seconds) ↔ gaps_convertible first rest.
Proof.
  rewrite pass1_eq, fmap_is_Some. by apply pass1_loop_is_Some.
Qed.

End Pass1.

(** ** Pass 2 *)

Section Pass2.

Lemma set_end_end (c : label) : set_end c (end_ c) = c.
Proof. by destruct c. Qed.

(** The inner loop only moves the end of [current_label]. *)
Lemma absorb_label_set_end c rest :
  absorb_label c rest = set_end c (end_ (absorb_label c rest)).
Proof.
  revert c. induction rest as [|r rest IH]; intros c; simpl.
  - by rewrite set_end_end.
  - destruct (is_SP r); [|by rewrite set_end_end].
    rewrite (IH (set_end c (end_ r))) at 1. reflexivity.
Qed.

Lemma absorb_label_end c c' rest :
  end_ c = end_ c' → end_ (absorb_label c rest) = end_ (absorb_label c' rest).
Proof.
  revert c c'. induction rest as [|r rest IH]; intros c c' H; simpl; [done|].
  destruct (is_SP r); [|done]. by apply IH.
Qed.

Lemma absorb_label_phoneme c rest : phoneme (absorb_label c rest) = phoneme c.
Proof. rewrite absorb_label_set_end. reflexivity. Qed.

Lemma absorb_label_start c rest : start (absorb_label c rest) = start c.
Proof. rewrite absorb_label_set_end. reflexivity. Qed.

Lemma run_length_le rest : (run_length rest ≤ length rest)%nat.
Proof.
  induction rest as [|r rest IH]; simpl; [lia|]. destruct (is_SP r); lia.
Qed.

Lemma drop_lookup_cons (merged : list label) j x :
  merged !! j = Some x → drop j merged = x :: drop (S j) merged.
Proof. intros H. by rewrite (drop_S _ _ _ H). Qed.

Lemma pass2_inner_S fuel merged current_label j :
  pass2_inner (S fuel) merged current_label j =
    match merged !! j with
    | Some merged_j =>
        if String.eqb (phoneme merged_j) SP
        then pass2_inner fuel merged (set_end current_label (end_ merged_j)) (j + 1)
        else Some (current_label, j)
    | None => Some (current_label, j)
    end.
Proof. reflexivity. Qed.

Lemma pass2_outer_S fuel merged final_merged i :
  pass2_outer (S fuel) merged final_merged i =
    match merged !! i with
    | Some merged_i =>
        if String.eqb (phoneme merged_i) SP then
          r ← pass2_inner (length merged) merged merged_i (i + 1);
          pass2_outer fuel merged (final_merged ++ [r.1]) r.2
        else pass2_outer fuel merged (final_merged ++ [merged_i]) (i + 1)
    | None => Some final_merged
    end.
Proof.
  cbn [pass2_outer]. destruct (merged !! i) as [x|]; [|reflexivity].
  destruct (String.eqb (phoneme x) SP); [|reflexivity].
  by destruct (pass2_inner _ _ _ _) as [[c j]|].
Qed.

(** The inner loop, given fuel beyond the entries left to read. *)
Lemma pass2_inner_spec fuel merged current_label j :
  (length merged - j < fuel)%nat →
  pass2_inner fuel merged current_label j =
    Some (absorb_label current_label (drop j merged),
          (j + run_length (drop j merged))%nat).
Proof.
  revert current_label j.
  induction fuel as [|fuel IH]; intros c j Hfuel; [lia|]. simpl.
  destruct (merged !! j) as [x|] eqn:Hj.
  - rewrite (drop_lookup_cons _ _ _ Hj). simpl. unfold is_SP.
    destruct (String.eqb (phoneme x) SP).
    + apply lookup_lt_Some in Hj.
      replace (j + 1)%nat with (S j) by lia.
      rewrite IH by lia. do 2 f_equal. lia.
    + do 2 f_equal. lia.
  - apply lookup_ge_None in Hj. rewrite drop_ge by lia. simpl.
    do 2 f_equal. lia.
Qed.

Lemma coalesce_SP_cons_cons m r rest :
  coalesce_SP (m :: r :: rest) =
    if is_SP m then
      if is_SP r then
        match coalesce_SP (r :: rest) with
        | y :: ys => set_end m (end_ y) :: ys
        | [] => [m]
        end
      else m :: coalesce_SP (r :: rest)
    else m :: coalesce_SP (r :: rest).
Proof. reflexivity. Qed.

(** [coalesce_SP] at an [SP] entry: that entry absorbs the run behind it. *)
Lemma coalesce_SP_run m rest :
  is_SP m = true →
  coalesce_SP (m :: rest) =
    absorb_label m rest :: coalesce_SP (drop (run_length rest) rest).
Proof.
  revert m. induction rest as [|r rest IH]; intros m Hm.
  - simpl. by rewrite Hm.
  - rewrite coalesce_SP_cons_cons. cbn [absorb_label run_length].
    rewrite Hm. destruct (is_SP r) eqn:Hr; [|reflexivity].
    rewrite (IH r Hr). cbn [drop]. f_equal.
    rewrite (absorb_label_set_end (set_end m (end_ r)) rest).
    cbn [set_end start phoneme]. f_equal.
    by apply absorb_label_end.
Qed.

Lemma coalesce_SP_other m rest :
  is_SP m = false → coalesce_SP (m :: rest) = m :: coalesce_SP rest.
Proof. intros Hm. simpl. by rewrite Hm. Qed.

(** The outer loop, given fuel beyond the entries left to read. *)
Lemma pass2_outer_spec fuel merged final_merged i :
  (length merged - i < fuel)%nat →
  pass2_outer fuel merged final_merged i =
    Some (final_merged ++ coalesce_SP (drop i merged)).
Proof.
  revert final_merged i.
  induction fuel as [|fuel IH]; intros final i Hfuel; [lia|]. simpl.
  destruct (merged !! i) as [x|] eqn:Hi.
  - pose proof (lookup_lt_Some _ _ _ Hi) as Hlt.
    rewrite (drop_lookup_cons _ _ _ Hi).
    destruct (String.eqb (phoneme x) SP) eqn:Hx.
    + replace (i + 1)%nat with (S i) by lia.
      rewrite (coalesce_SP_run x _ Hx).
      rewrite pass2_inner_spec by lia.
      cbn [mbind option_bind]. rewrite IH by lia.
      rewrite <- app_assoc. cbn [app]. do 3 f_equal.
      rewrite drop_drop. f_equal.
    + replace (i + 1)%nat with (S i) by lia.
      rewrite IH by lia. rewrite (coalesce_SP_other x _ Hx).
      by rewrite <- app_assoc.
  - apply lookup_ge_None in Hi. rewrite drop_ge by lia. simpl.
    by rewrite app_nil_r.
Qed.

(** Pass 2 never runs out of the fuel [merge_labels] gives it. *)
Lemma pass2_eq merged : pass2 merged = Some (coalesce_SP merged).
Proof. unfold pass2. rewrite pass2_outer_spec by lia. reflexivity. Qed.

Lemma coalesce_SP_singleton (x : label) : coalesce_SP [x] = [x].
Proof. simpl. by destruct (is_SP x). Qed.

(** Pass 2 keeps the phoneme of the first entry. *)
Lemma coalesce_SP_head l :
  is_SP <$> head (coalesce_SP l) = is_SP <$> head l.
Proof.
  destruct l as [|m [|r rest]]; [reflexivity| |].
  - by rewrite coalesce_SP_singleton.
  - rewrite coalesce_SP_cons_cons.
    destruct (is_SP m) eqn:Hm; [|reflexivity].
    destruct (is_SP r); [|reflexivity].
    destruct (coalesce_SP (r :: rest)); reflexivity.
Qed.

Lemma no_adjacent_SP_cons a l :
  no_adjacent_SP (a :: l) ↔
  ¬ (is_SP a = true ∧ is_SP <$> head l = Some true) ∧ no_adjacent_SP l.
Proof.
  destruct l as [|b l]; simpl.
  - split; intros _; (split; [|exact I]); [intros [_ ?]; discriminate|exact I].
  - split; intros [H1 H2]; (split; [|done]); intros [? ?]; apply H1;
      split; congruence.
Qed.

Lemma coalesce_SP_no_adjacent l : no_adjacent_SP (coalesce_SP l).
Proof.
  induction l as [|m rest IH]; [exact I|].
  destruct rest as [|r rest].
  { rewrite coalesce_SP_singleton. simpl. tauto. }
  rewrite coalesce_SP_cons_cons.
  pose proof (coalesce_SP_head (r :: rest)) as Hhead.
  destruct (is_SP m) eqn:Hm.
  - destruct (is_SP r) eqn:Hr.
    + destruct (coalesce_SP (r :: rest)) as [|y ys]; [simpl; tauto|].
      apply no_adjacent_SP_cons in IH as [Hy IH].
      apply no_adjacent_SP_cons. split; [|exact IH].
      intros [_ Hys]. apply Hy. split; [|exact Hys].
      simpl in Hhead. congruence.
    + apply no_adjacent_SP_cons. split; [|exact IH].
      intros [_ H]. rewrite Hhead in H. simpl in H. congruence.
  - apply no_adjacent_SP_cons. split; [|exact IH].
    intros [H _]. congruence.
Qed.

(** The same property, entry by entry. *)
Lemma no_adjacent_SP_lookup l i a b :
  no_adjacent_SP l → l !! i = Some a → l !! S i = Some b →
  ¬ (phoneme a = SP ∧ phoneme b = SP).
Proof.
  revert i. induction l as [|x l IH]; intros i Hl Ha Hb; [done|].
  destruct i as [|i].
  - simpl in Ha, Hb. injection Ha as ->. destruct l as [|y l]; [done|].
    simpl in Hb. injection Hb as ->. destruct Hl as [Hl _].
    intros [H1 H2]. apply Hl. unfold is_SP. rewrite H1, H2. done.
  - simpl in Ha, Hb. destruct Hl as [_ Hl]. by apply (IH i).
Qed.

(** Pass 2 works on the two sides of a place where no two [SP] entries
    meet as it works on each side alone. *)
Lemma coalesce_SP_app l1 l2 :
  ¬ (is_SP <$> last l1 = Some true ∧ is_SP <$> head l2 = Some true) →
  coalesce_SP (l1 ++ l2) = coalesce_SP l1 ++ coalesce_SP l2.
Proof.
  induction l1 as [|m l1 IH]; intros Hb; [reflexivity|].
  destruct l1 as [|r l1].
  - rewrite coalesce_SP_singleton. cbn [app].
    destruct l2 as [|x l2]; [by rewrite coalesce_SP_singleton|].
    rewrite coalesce_SP_cons_cons.
    destruct (is_SP m) eqn:Hm; [|reflexivity].
    destruct (is_SP x) eqn:Hx; [|reflexivity].
    exfalso. apply Hb. simpl. by rewrite Hm, Hx.
  - cbn [app]. rewrite !coalesce_SP_cons_cons.
    change (r :: l1 ++ l2) with ((r :: l1) ++ l2).
    rewrite IH by (by rewrite last_cons_cons in Hb).
    destruct (is_SP m); [|reflexivity].
    destruct (is_SP r) eqn:Hr; [|reflexivity].
    pose proof (coalesce_SP_head (r :: l1)) as Hhead.
    destruct (coalesce_SP (r :: l1)) as [|y ys]; [discriminate|reflexivity].
Qed.

(** A maximal run of [SP] entries becomes its first entry, moved to the
    end of its last entry. *)
Lemma coalesce_SP_maximal_run x run post :
  is_SP x = true → Forall (λ r, is_SP r = true) run →
  is_SP <$> head post ≠ Some true →
  coalesce_SP (x :: run ++ post)
  = set_end x (end_ (default x (last run))) :: coalesce_SP post.
Proof.
  intros Hx Hrun Hpost. revert x Hx.
  induction Hrun as [|r run Hr Hrun IH]; intros x Hx.
  - cbn [app last default]. rewrite set_end_end.
    change (x :: post) with ([x] ++ post).
    rewrite coalesce_SP_app, coalesce_SP_singleton; [reflexivity|].
    intros [_ H]. done.
  - cbn [app]. rewrite coalesce_SP_cons_cons, Hx, Hr, (IH r Hr).
    do 2 f_equal. destruct run as [|r' run]; [reflexivity|].
    cbn [end_ set_end]. rewrite (last_cons_cons r).
    destruct (last (r' :: run)) eqn:Hlast; [reflexivity|].
    by apply last_None in Hlast.
Qed.

End Pass2.

(** ** The merger *)

Lemma merge_labels_eq (labels : list label) (max_gap_seconds : spec_float) :
  merge_labels labels max_gap_seconds =
    match labels with
    | [] => Returns []
    | first :: rest =>
        match pass1 first rest max_gap_seconds with
        | Some merged => Returns (coalesce_SP merged)
        | None => Raises OverflowError
        end
    end.
Proof.
  destruct labels as [|first rest]; [reflexivity|]. unfold merge_labels.
  destruct (pass1 first rest max_gap_seconds) as [merged|]; [|reflexivity].
  by rewrite pass2_eq.
Qed.

(** C1: an adjacent pair [a], [b] whose gap converts to [gap_seconds] is
    eligible when the groups are equal and [gap_seconds <= max_gap_seconds].
    The iteration of pass 1 that reads [b] after [a] extends the current
    segment to the end of [b] exactly when the pair is eligible, and
    otherwise closes it and starts again from [b].  On a whole list, an
    eligible pair is read as the one segment from the start of [a] to the
    end of [b], and a pair that is not eligible separates the output of
    pass 1 into the output up to [a] and the output from [b].  A list of
    two eligible segments gives the single merged segment. *)
Theorem pass1_adjacent_pair (max_gap_seconds : spec_float)
    (l1 : list label) (a b : label) (l2 : list label) (gap_seconds : spec_float) :
  convert_htk_time_to_seconds (start b - end_ a) = Some gap_seconds →
  let eligible :=
    String.eqb (get_phoneme_group (phoneme a)) (get_phoneme_group (phoneme b))
    && SFleb gap_seconds max_gap_seconds in
  (∀ merged current_label,
     end_ current_label = end_ a →
     pass1_body max_gap_seconds
       (merged, current_label, get_phoneme_group (phoneme a)) b =
       Some (if eligible
             then (merged,
                   relabel_silence (get_phoneme_group (phoneme a))
                     {| start := start current_label; end_ := end_ b;
                        phoneme := phoneme current_label |},
                   get_phoneme_group (phoneme a))
             else (merged ++ [relabel_silence (get_phoneme_group (phoneme a))
                                current_label],
                   b, get_phoneme_group (phoneme b)))) ∧
  (eligible = true →
     pass1_of (l1 ++ a :: b :: l2) max_gap_seconds
     = pass1_of (l1 ++ coalesce a b :: l2) max_gap_seconds ∧
     merge_labels [a; b] max_gap_seconds
     = Returns [relabel_silence (get_phoneme_group (phoneme a)) (coalesce a b)]) ∧
  (eligible = false →
     pass1_of (l1 ++ a :: b :: l2) max_gap_seconds
     = (m1 ← pass1_of (l1 ++ [a]) max_gap_seconds;
        m2 ← pass1_of (b :: l2) max_gap_seconds;
        Some (m1 ++ m2))).
Proof.
  intros Hgap eligible. split; [|split].
  - intros merged c He. rewrite pass1_body_eq, He, Hgap. reflexivity.
  - intros Hcond. split; [by eapply pass1_merge_pair|].
    rewrite merge_labels_eq, pass1_eq. cbn [pass1_loop].
    rewrite pass1_body_eq, Hgap. cbn [mbind option_bind].
    fold eligible. rewrite Hcond. cbn [fmap option_fmap option_map pass1_finish app].
    rewrite coalesce_SP_singleton, relabel_silence_idem. reflexivity.
  - intros Hcond. by eapply pass1_split_pair.
Qed.

Lemma pass1_adjacent_pair_witness :
  pass1_of [Label 0 500000 "s"; Label 600000 900000 "z"; Label 900000 950000 "a"]
    float_0_1
  = pass1_of [Label 0 900000 "s"; Label 900000 950000 "a"] float_0_1 ∧
  merge_labels [Label 0 500000 "s"; Label 600000 900000 "z"] float_0_1
  = Returns [Label 0 900000 "s"].
Proof.
  apply (pass1_adjacent_pair float_0_1 []
           (Label 0 500000 "s") (Label 600000 900000 "z") [Label 900000 950000 "a"]
           (S754_finite false 5764607523034235 (-59))).
  - vm_compute. reflexivity.
  - vm_compute. reflexivity.
Defined.

Lemma gaps_convertible_lookup (first : label) (rest : list label) :
  gaps_convertible first rest ↔
  ∀ i a b, (first :: rest) !! i = Some a → (first :: rest) !! S i = Some b →
           is_Some (convert_htk_time_to_seconds (start b - end_ a)).
Proof.
  revert first. induction rest as [|next rest IH]; intros first.
  - simpl. split; [|done]. intros _ [|i] a b ? ?; done.
  - cbn [gaps_convertible]. rewrite IH. split.
    + intros [H0 H] [|i] a b Ha Hb.
      * simpl in Ha, Hb. by simplify_eq.
      * by apply (H i).
    + intros H. split; [by apply (H O)|].
      intros i a b Ha Hb. by apply (H (S i)).
Qed.

(** C5: the list that [merge_labels] returns never holds two consecutive
    segments labelled [SP]: pass 2 turns each maximal run of [SP] entries,
    wherever it stands in the list, into the first entry of the run with the
    end of the last one. *)
Theorem merge_labels_no_adjacent_SP :
  (∀ (labels : list label) (max_gap_seconds : spec_float) (out : list label),
     merge_labels labels max_gap_seconds = Returns out →
     ∀ i a b, out !! i = Some a → out !! S i = Some b →
              ¬ (phoneme a = SP ∧ phoneme b = SP)) ∧
  (∀ (pre : list label) (x : label) (run post : list label),
     is_SP <$> last pre ≠ Some true →
     is_SP x = true → Forall (λ r, is_SP r = true) run →
     is_SP <$> head post ≠ Some true →
     pass2 (pre ++ x :: run ++ post)
     = (p ← pass2 pre; q ← pass2 post;
        Some (p ++ set_end x (end_ (default x (last run))) :: q))).
Proof.
  split.
  - intros labels thr out Hm. rewrite merge_labels_eq in Hm.
    assert (no_adjacent_SP out) as Hout.
    { destruct labels as [|first rest]; [by injection Hm as <-|].
      destruct (pass1 first rest thr); [|discriminate].
      injection Hm as <-. apply coalesce_SP_no_adjacent. }
    intros i a b. by apply no_adjacent_SP_lookup.
  - intros pre x run post Hpre Hx Hrun Hpost. rewrite !pass2_eq.
    cbn [mbind option_bind].
    rewrite coalesce_SP_app, coalesce_SP_maximal_run; [done..|].
    intros [H _]. done.
Qed.

Lemma merge_labels_no_adjacent_SP_witness :
  ¬ (phoneme (Label 0 200000 "SP") = SP ∧ phoneme (Label 200000 300000 "a") = SP).
Proof.
  apply (proj1 merge_labels_no_adjacent_SP
           [Label 0 100000 "pau"; Label 100000 200000 "SP"; Label 200000 300000 "a"]
           float_0_1
           [Label 0 200000 "SP"; Label 200000 300000 "a"]
           eq_refl O); reflexivity.
Defined.

(** ** Merging twice *)

Section Twice.

Variable max_gap_seconds : spec_float.

Lemma pass1_stable_snoc l x y :
  pass1_stable max_gap_seconds (l ++ [x]) →
  (is_SP x = false → is_SP y = false → stable_pair max_gap_seconds x y) →
  pass1_stable max_gap_seconds ((l ++ [x]) ++ [y]).
Proof.
  intros Hl Hxy. induction l as [|z l IH].
  - simpl. tauto.
  - destruct Hl as [Hz Hl]. specialize (IH Hl).
    split; [|exact IH]. destruct l; exact Hz.
Qed.

(** The last entry counts by its start and its phoneme only. *)
Lemma pass1_stable_last l x x' :
  start x = start x' → phoneme x = phoneme x' →
  pass1_stable max_gap_seconds (l ++ [x]) → pass1_stable max_gap_seconds (l ++ [x']).
Proof.
  intros Hs Hp. induction l as [|z l IH]; [simpl; tauto|].
  intros [Hz Hl]. split; [|by apply IH].
  destruct l as [|w l]; [|exact Hz]. cbn [app] in *.
  intros Hz1 Hx1. destruct Hz as (gap & Hgap & Hcond); [done|..].
  { unfold is_SP in *. by rewrite Hp. }
  exists gap. by rewrite <- Hs, <- Hp.
Qed.

(** What pass 1 keeps true of its state. *)
Lemma pass1_body_stable st next_label st' :
  pass1_body max_gap_seconds st next_label = Some st' →
  pass1_stable max_gap_seconds (pass1_finish st) ∧
    (st.2 ≠ silence → st.2 = get_phoneme_group (phoneme st.1.2)) →
  pass1_stable max_gap_seconds (pass1_finish st') ∧
    (st'.2 ≠ silence → st'.2 = get_phoneme_group (phoneme st'.1.2)).
Proof.
  destruct st as [[m c] g]. rewrite pass1_body_eq. cbn [fst snd pass1_finish].
  destruct (convert_htk_time_to_seconds _) as [gap|] eqn:Hgap; [|discriminate].
  cbn [mbind option_bind].
  destruct (String.eqb g _ && SFleb gap max_gap_seconds) eqn:Hcond;
    intros [= <-] [Hst Hg]; cbn [fst snd pass1_finish].
  - split.
    + eapply pass1_stable_last; [| |exact Hst];
        unfold relabel_silence; by destruct (String.eqb g silence).
    + intros Hne. rewrite (Hg Hne) at 1. unfold relabel_silence.
      apply String.eqb_neq in Hne. by rewrite Hne.
  - split; [|done]. apply pass1_stable_snoc; [done|].
    unfold relabel_silence, is_SP.
    destruct (String.eqb_spec g silence) as [->|Hne]; [discriminate|].
    destruct (String.eqb_spec (get_phoneme_group (phoneme next_label)) silence)
      as [Heq|Hne']; [intros _ H; discriminate H|].
    intros _ _. exists gap. rewrite <- (Hg Hne). done.
Qed.

Lemma pass1_loop_stable rest st st' :
  pass1_loop max_gap_seconds rest st = Some st' →
  pass1_stable max_gap_seconds (pass1_finish st) ∧
    (st.2 ≠ silence → st.2 = get_phoneme_group (phoneme st.1.2)) →
  pass1_stable max_gap_seconds (pass1_finish st') ∧
    (st'.2 ≠ silence → st'.2 = get_phoneme_group (phoneme st'.1.2)).
Proof.
  revert st. induction rest as [|next_label rest IH]; intros st.
  - by intros [= <-].
  - rewrite pass1_loop_cons.
    destruct (pass1_body max_gap_seconds st next_label) as [st1|] eqn:Hb;
      [|discriminate].
    cbn [mbind option_bind]. intros Hl Hst. apply (IH st1 Hl).
    by eapply pass1_body_stable.
Qed.

(** The output of pass 1 is stable. *)
Lemma pass1_stable_output first rest merged :
  pass1 first rest max_gap_seconds = Some merged →
  pass1_stable max_gap_seconds merged.
Proof.
  rewrite pass1_eq.
  destruct (pass1_loop max_gap_seconds rest _) as [st'|] eqn:Hl; [|discriminate].
  intros [= <-]. eapply pass1_loop_stable; [exact Hl|].
  cbn [fst snd pass1_finish app]. split; [simpl; tauto|done].
Qed.

(** Pass 1 leaves a stable list without [SP] and without silence as it is. *)
Lemma pass1_loop_fixed rest x acc :
  pass1_stable max_gap_seconds (x :: rest) →
  Forall (λ y, is_SP y = false ∧ get_phoneme_group (phoneme y) ≠ silence)
         (x :: rest) →
  pass1_finish <$>
    pass1_loop max_gap_seconds rest (acc, x, get_phoneme_group (phoneme x))
  = Some (acc ++ x :: rest).
Proof.
  revert x acc. induction rest as [|y rest IH]; intros x acc Hst Hall.
  - apply Forall_cons_1 in Hall as [[_ Hx] _].
    cbn [pass1_loop fmap option_fmap option_map pass1_finish].
    unfold relabel_silence. apply String.eqb_neq in Hx. by rewrite Hx.
  - apply Forall_cons_1 in Hall as [[Hx1 Hx2] Hall].
    pose proof Hall as [[Hy1 Hy2] _]%Forall_cons_1.
    destruct Hst as [Hxy Hst]. destruct (Hxy Hx1 Hy1) as (gap & Hgap & Hcond).
    rewrite pass1_loop_cons, pass1_body_eq, Hgap. cbn [mbind option_bind].
    rewrite Hcond. unfold relabel_silence at 1.
    apply String.eqb_neq in Hx2. rewrite Hx2.
    rewrite (IH y (acc ++ [x]) Hst Hall). by rewrite <- app_assoc.
Qed.

Lemma coalesce_SP_without_SP l :
  Forall (λ y, is_SP y = false) (coalesce_SP l) → coalesce_SP l = l.
Proof.
  induction l as [|x rest IH]; [done|]. intros Hall.
  pose proof (coalesce_SP_head (x :: rest)) as Hhead.
  destruct (coalesce_SP (x :: rest)) as [|y ys] eqn:Hc; [discriminate|].
  apply Forall_cons_1 in Hall as [Hy Hall].
  injection Hhead as Hhead. rewrite Hy in Hhead.
  rewrite coalesce_SP_other in Hc by done. injection Hc as <- <-.
  by rewrite IH.
Qed.

(** The phoneme of a closed segment that is not [SP] is of no silence
    group. *)
Lemma pass1_output_settled first rest merged :
  pass1 first rest max_gap_seconds = Some merged → Forall settled merged.
Proof.
  assert (Hbody : ∀ st next_label st',
            pass1_body max_gap_seconds st next_label = Some st' →
            Forall settled (pass1_finish st) ∧
              (st.2 ≠ silence → st.2 = get_phoneme_group (phoneme st.1.2)) →
            Forall settled (pass1_finish st') ∧
              (st'.2 ≠ silence → st'.2 = get_phoneme_group (phoneme st'.1.2))).
  { intros [[m c] g] next_label st'. rewrite pass1_body_eq.
    cbn [fst snd pass1_finish].
    destruct (convert_htk_time_to_seconds _) as [gap|]; [|discriminate].
    cbn [mbind option_bind].
    destruct (String.eqb g _ && SFleb gap max_gap_seconds);
      intros [= <-] [Hst Hg]; cbn [fst snd pass1_finish].
    - apply Forall_app in Hst as [Hm Hc]. apply Forall_singleton in Hc.
      split.
      + apply Forall_app. split; [done|]. apply Forall_singleton.
        rewrite relabel_silence_idem. unfold settled, relabel_silence, is_SP.
        destruct (String.eqb_spec g silence) as [->|Hne]; [by left|].
        right. cbn [phoneme set_end]. by rewrite <- (Hg Hne).
      + intros Hne. rewrite (Hg Hne) at 1. unfold relabel_silence.
        apply String.eqb_neq in Hne. by rewrite Hne.
    - split; [|done]. apply Forall_app. split; [done|]. apply Forall_singleton.
      unfold settled, relabel_silence, is_SP.
      destruct (String.eqb_spec (get_phoneme_group (phoneme next_label)) silence)
        as [Heq|Hne]; [by left|by right]. }
  assert (Hloop : ∀ rest st st',
            pass1_loop max_gap_seconds rest st = Some st' →
            Forall settled (pass1_finish st) ∧
              (st.2 ≠ silence → st.2 = get_phoneme_group (phoneme st.1.2)) →
            Forall settled (pass1_finish st') ∧
              (st'.2 ≠ silence → st'.2 = get_phoneme_group (phoneme st'.1.2))).
  { intros l. induction l as [|next_label l IH]; intros st st'.
    - by intros [= <-].
    - rewrite pass1_loop_cons.
      destruct (pass1_body max_gap_seconds st next_label) as [st1|] eqn:Hb;
        [|discriminate].
      cbn [mbind option_bind]. intros Hl Hst. apply (IH st1 _ Hl).
      by eapply Hbody. }
  rewrite pass1_eq.
  destruct (pass1_loop max_gap_seconds rest _) as [st'|] eqn:Hl; [|discriminate].
  intros [= <-]. eapply Hloop; [exact Hl|].
  cbn [fst snd pass1_finish app]. split; [|done].
  apply Forall_singleton. unfold settled, relabel_silence, is_SP.
  destruct (String.eqb_spec (get_phoneme_group (phoneme first)) silence)
    as [Heq|Hne]; [by left|by right].
Qed.

(** Where the first call writes no [SP], the second call changes nothing. *)
Lemma merge_labels_twice_without_SP labels out :
  merge_labels labels max_gap_seconds = Returns out →
  Forall (λ y, is_SP y = false) out →
  merge_labels out max_gap_seconds = Returns out.
Proof.
  rewrite merge_labels_eq. destruct labels as [|first rest]; [by intros [= <-]|].
  destruct (pass1 first rest max_gap_seconds) as [merged|] eqn:Hp; [|discriminate].
  intros [= <-] Hout. pose proof (coalesce_SP_without_SP _ Hout) as Hfix.
  rewrite Hfix in *.
  pose proof (pass1_stable_output _ _ _ Hp) as Hst.
  pose proof (pass1_output_settled _ _ _ Hp) as Hset.
  rewrite merge_labels_eq. destruct merged as [|x merged]; [done|].
  rewrite pass1_eq, (pass1_loop_fixed merged x []).
  - cbn [app fmap option_fmap option_map]. by rewrite Hfix.
  - done.
  - rewrite Forall_forall in *. intros y Hy. split; [by apply Hout|].
    destruct (Hset y Hy) as [Hsp|]; [|done]. rewrite (Hout y Hy) in Hsp. done.
Qed.

End Twice.

(** C3, at a silence followed by a token of no group: the first call
    writes [SP] for the silence; the second call classifies [SP] as
    [unknown], the group of [y], and merges the two.  Where the first call
    writes no [SP] at all, the second call returns its argument. *)
Theorem merge_labels_twice_SP_then_unknown :
  merge_labels [Label 0 1000000 "pau"; Label 1000000 1500000 "y"] float_0_1
  = Returns [Label 0 1000000 "SP"; Label 1000000 1500000 "y"] ∧
  merge_labels [Label 0 1000000 "SP"; Label 1000000 1500000 "y"] float_0_1
  = Returns [Label 0 1500000 "SP"] ∧
  get_phoneme_group "SP" = get_phoneme_group "y" ∧
  (∀ labels max_gap_seconds out,
     merge_labels labels max_gap_seconds = Returns out →
     Forall (λ y, is_SP y = false) out →
     merge_labels out max_gap_seconds = Returns out).
Proof.
  split; [vm_compute; reflexivity|]. split; [vm_compute; reflexivity|].
  split; [vm_compute; reflexivity|].
  intros labels thr out. apply merge_labels_twice_without_SP.
Qed.

Lemma merge_labels_twice_SP_then_unknown_witness :
  merge_labels [Label 0 900000 "s"; Label 2000000 2100000 "e"] float_0_1
  = Returns [Label 0 900000 "s"; Label 2000000 2100000 "e"].
Proof.
  apply (proj2 (proj2 (proj2 merge_labels_twice_SP_then_unknown))
           [Label 0 500000 "s"; Label 600000 900000 "z"; Label 2000000 2100000 "e"]).
  - vm_compute. reflexivity.
  - repeat constructor.
Defined.

(** C7 as stated fails where a gap is beyond the range of a float: the
    conversion raises [OverflowError]. *)
Lemma merge_labels_overflow_counterexample :
  ¬ ∃ out, merge_labels [Label 0 0 "a"; Label (2 ^ 1024) (2 ^ 1024) "a"] float_0_1
           = Returns out.
Proof. intros [out H]. vm_compute in H. discriminate. Qed.

(** C7, amended: [merge_labels] returns the empty list for the empty list;
    its loops never use up their fuel, and pass 2 ends within any fuel
    beyond the length of its list; the call returns a list when every gap
    [next.start - previous.end] it converts is in the range of a float,
    which holds for every gap below [2 ^ 1023] in magnitude, and it raises
    [OverflowError] when one of them is not. *)
Theorem merge_labels_total :
  (∀ max_gap_seconds, merge_labels [] max_gap_seconds = Returns []) ∧
  (∀ labels max_gap_seconds, merge_labels labels max_gap_seconds ≠ OutOfFuel) ∧
  (∀ merged fuel, (length merged < fuel)%nat →
     pass2_outer fuel merged [] 0 = pass2 merged ∧ is_Some (pass2 merged)) ∧
  (∀ labels max_gap_seconds,
     (∀ i a b, labels !! i = Some a → labels !! S i = Some b →
               is_Some (convert_htk_time_to_seconds (start b - end_ a))) →
     ∃ out, merge_labels labels max_gap_seconds = Returns out) ∧
  (∀ labels max_gap_seconds,
     (∀ i a b, labels !! i = Some a → labels !! S i = Some b →
               Z.abs (start b - end_ a) < 2 ^ 1023) →
     ∃ out, merge_labels labels max_gap_seconds = Returns out) ∧
  (∀ labels max_gap_seconds,
     (∃ i a b, labels !! i = Some a ∧ labels !! S i = Some b ∧
               convert_htk_time_to_seconds (start b - end_ a) = None) →
     merge_labels labels max_gap_seconds = Raises OverflowError).
Proof.
  assert (Hret : ∀ labels max_gap_seconds,
     (∀ i a b, labels !! i = Some a → labels !! S i = Some b →
               is_Some (convert_htk_time_to_seconds (start b - end_ a))) →
     ∃ out, merge_labels labels max_gap_seconds = Returns out).
  { intros labels thr Hgaps. rewrite merge_labels_eq.
    destruct labels as [|first rest]; [by eexists|].
    apply gaps_convertible_lookup, (pass1_is_Some thr) in Hgaps as [merged ->].
    by eexists. }
  split; [reflexivity|]. split; [|split; [|split; [|split]]].
  - intros labels thr. rewrite merge_labels_eq.
    destruct labels as [|first rest]; [discriminate|].
    destruct (pass1 first rest thr); discriminate.
  - intros merged fuel Hfuel. rewrite pass2_eq.
    split; [|by eexists]. by rewrite pass2_outer_spec by lia.
  - exact Hret.
  - intros labels thr Hgaps. apply Hret. intros i a b Ha Hb.
    apply convert_htk_time_to_seconds_in_range. by apply (Hgaps i).
  - intros labels thr (i & a & b & Ha & Hb & Hgap). rewrite merge_labels_eq.
    destruct labels as [|first rest]; [done|].
    destruct (pass1 first rest thr) as [merged|] eqn:Hp; [|reflexivity].
    assert (is_Some (pass1 first rest thr)) as Hsome by (by eexists).
    apply pass1_is_Some in Hsome.
    rewrite gaps_convertible_lookup in Hsome.
    specialize (Hsome i a b Ha Hb). rewrite Hgap in Hsome. by destruct Hsome.
Qed.

Lemma merge_labels_total_witness :
  ∃ out, merge_labels [Label 0 100000 "a"; Label 2000000 2100000 "e"] float_0_1
         = Returns out.
Proof.
  apply (proj1 (proj2 (proj2 (proj2 (proj2 merge_labels_total))))).
  intros [|[|i]] a b Ha Hb; simpl in Ha, Hb; try discriminate.
  injection Ha as <-. injection Hb as <-. simpl. lia.
Defined.

(** ** Reading label files *)

Section Parse.

Lemma parse_lines_cons line rest labels :
  parse_lines (line :: rest) labels =
    match parse_line line with
    | None => None
    | Some None => parse_lines rest labels
    | Some (Some l) => parse_lines rest (labels ++ [l])
    end.
Proof.
  cbn [parse_lines]. unfold parse_line, fields.
  case_bool_decide as Hline.
  - case_bool_decide as Hlen.
    + destruct (Str.split (Str.strip line)) as [|p0 [|p1 [|p2 extra]]];
        [simpl in Hlen; lia..|].
      destruct (PyInt.int p0); [|reflexivity].
      destruct (PyInt.int p1); reflexivity.
    + destruct (Str.split (Str.strip line)) as [|p0 [|p1 [|p2 extra]]];
        [reflexivity..|].
      simpl in Hlen. lia.
  - rewrite Hline. reflexivity.
Qed.

(** The parser returns, in order, the segments of the lines that have
    one, unless a line raises. *)
Lemma parse_lines_spec lines labels :
  parse_lines lines labels =
    (ls ← mapM parse_line lines; Some (labels ++ omap id ls)).
Proof.
  revert labels. induction lines as [|line rest IH]; intros labels.
  - simpl. by rewrite app_nil_r.
  - rewrite parse_lines_cons. cbn [mapM].
    destruct (parse_line line) as [[l|]|]; cbn [mbind option_bind];
      [| |reflexivity]; rewrite IH;
      destruct (mapM parse_line rest); simpl; try reflexivity.
    by rewrite <- app_assoc.
Qed.

Lemma parse_lines_app l1 l2 labels :
  parse_lines (l1 ++ l2) labels = parse_lines l1 labels ≫= parse_lines l2.
Proof.
  revert labels. induction l1 as [|line l1 IH]; intros labels; [reflexivity|].
  cbn [app]. rewrite !parse_lines_cons.
  destruct (parse_line line) as [[l|]|]; [apply IH..|reflexivity].
Qed.

Lemma parse_lines_skip pre line post labels :
  parse_line line = Some None →
  parse_lines (pre ++ line :: post) labels = parse_lines (pre ++ post) labels.
Proof.
  intros H. rewrite !parse_lines_app.
  destruct (parse_lines pre labels) as [labels'|]; [|reflexivity].
  cbn [mbind option_bind]. by rewrite parse_lines_cons, H.
Qed.

Lemma parse_lines_None lines labels :
  parse_lines lines labels = None ↔ ∃ line, line ∈ lines ∧ parse_line line = None.
Proof.
  rewrite parse_lines_spec. rewrite <- Exists_exists, <- mapM_None.
  destruct (mapM parse_line lines); simpl; split; done.
Qed.

End Parse.

Lemma parse_line_None (line : list ascii) :
  parse_line line = None ↔
  ∃ p0 p1 p2 extra, fields line = p0 :: p1 :: p2 :: extra ∧
                    (PyInt.int p0 = None ∨ PyInt.int p1 = None).
Proof.
  unfold parse_line.
  destruct (fields line) as [|p0 [|p1 [|p2 extra]]];
    try (split; [discriminate|intros (? & ? & ? & ? & [=] & _)]).
  split.
  - intros H. exists p0, p1, p2, extra. split; [reflexivity|].
    destruct (PyInt.int p0); [|by left]. destruct (PyInt.int p1); [done|by right].
  - intros (? & ? & ? & ? & [= <- <- <- <-] & [-> | ->]); [reflexivity|].
    by destruct (PyInt.int p0).
Qed.

(** C8: a line that is blank after stripping, or that has fewer than three
    fields, contributes nothing; a line with at least three fields
    contributes the segment made of its first three fields, whatever
    follows them; and parsing the file raises exactly when some line with at
    least three fields has a first or second field that [int] rejects. *)
Theorem parse_lab_file_contract :
  (∀ pre line post labels,
     Str.strip line = [] →
     parse_lines (pre ++ line :: post) labels = parse_lines (pre ++ post) labels) ∧
  (∀ pre line post labels,
     (length (fields line) < 3)%nat →
     parse_lines (pre ++ line :: post) labels = parse_lines (pre ++ post) labels) ∧
  (∀ pre line post labels p0 p1 p2 extra,
     fields line = p0 :: p1 :: p2 :: extra →
     parse_lines (pre ++ line :: post) labels =
       (labels' ← parse_lines pre labels;
        start_time ← PyInt.int p0;
        end_time ← PyInt.int p1;
        parse_lines post
          (labels' ++ [Label start_time end_time (string_of_list_ascii p2)]))) ∧
  (∀ content,
     parse_lab_file content = None ↔
     ∃ line p0 p1 p2 extra,
       line ∈ Str.lines (Str.universal_newlines content) ∧
       fields line = p0 :: p1 :: p2 :: extra ∧
       (PyInt.int p0 = None ∨ PyInt.int p1 = None)).
Proof.
  split; [|split; [|split]].
  - intros pre line post labels H. apply parse_lines_skip.
    unfold parse_line, fields. by rewrite H.
  - intros pre line post labels H. apply parse_lines_skip.
    unfold parse_line.
    destruct (fields line) as [|p0 [|p1 [|p2 extra]]]; [reflexivity..|].
    simpl in H. lia.
  - intros pre line post labels p0 p1 p2 extra H. rewrite parse_lines_app.
    destruct (parse_lines pre labels) as [labels'|]; [|reflexivity].
    cbn [mbind option_bind]. rewrite parse_lines_cons. unfold parse_line.
    rewrite H. destruct (PyInt.int p0); [|reflexivity].
    destruct (PyInt.int p1); reflexivity.
  - intros content. unfold parse_lab_file. rewrite parse_lines_None.
    split.
    + intros (line & Hin & Hnone). apply parse_line_None in Hnone.
      destruct Hnone as (p0 & p1 & p2 & extra & Hf & Hint).
      by exists line, p0, p1, p2, extra.
    + intros (line & p0 & p1 & p2 & extra & Hin & Hf & Hint).
      exists line. split; [done|]. apply parse_line_None. eauto 6.
Qed.

Lemma parse_lab_file_contract_witness :
  parse_lab_file (list_ascii_of_string "0 5 a b c
1_0 x7 e
") = None.
Proof.
  apply (proj2 (proj2 (proj2 (proj2 parse_lab_file_contract)) _)).
  exists (list_ascii_of_string "1_0 x7 e
"), (list_ascii_of_string "1_0"), (list_ascii_of_string "x7"),
    (list_ascii_of_string "e"), [].
  split; [|split].
  - vm_compute. apply list_elem_of_further, list_elem_of_here.
  - reflexivity.
  - right. reflexivity.
Defined.

(** ** Integers as text *)

Section PyIntFacts.

Lemma digit_value_digit_char d :
  0 ≤ d ≤ 9 → PyInt.digit_value (PyInt.digit_char d) = Some d.
Proof.
  intros H.
  assert (d = 0 ∨ d = 1 ∨ d = 2 ∨ d = 3 ∨ d = 4 ∨ d = 5 ∨ d = 6 ∨ d = 7
          ∨ d = 8 ∨ d = 9) as Hd by lia.
  repeat (destruct Hd as [->|Hd]; [reflexivity|]). by subst.
Qed.

Lemma is_digit_digit_char d : 0 ≤ d ≤ 9 → is_digit (PyInt.digit_char d) = true.
Proof.
  intros H. unfold is_digit. rewrite (digit_value_digit_char d H).
  by apply bool_decide_eq_true.
Qed.

(** A digit is no whitespace, sign or underscore. *)
Lemma is_digit_plain c :
  is_digit c = true →
  Str.isspace c = false ∧ Ascii.eqb c PyInt.minus = false ∧
  Ascii.eqb c PyInt.plus = false ∧ Ascii.eqb c PyInt.underscore = false.
Proof.
  destruct c as [[] [] [] [] [] [] [] []]; vm_compute; intros H;
    try discriminate H; repeat split.
Qed.

Lemma int_digits_value s acc prev_digit :
  s ≠ [] → forallb is_digit s = true →
  PyInt.int_digits acc prev_digit s = Some (decimal_value acc s).
Proof.
  revert acc prev_digit. induction s as [|c s IH]; intros acc b Hne Hall; [done|].
  apply andb_true_iff in Hall as [Hc Hall].
  pose proof (is_digit_plain c Hc) as (_ & _ & _ & Hu).
  cbn [PyInt.int_digits]. rewrite Hu.
  unfold is_digit in Hc. apply bool_decide_eq_true in Hc as [d Hd].
  rewrite Hd. unfold decimal_value. cbn [fold_left]. rewrite Hd. cbn [default].
  destruct s as [|c' s]; [reflexivity|].
  by apply IH.
Qed.

Lemma digits_all_digits fuel n acc :
  0 ≤ n → forallb is_digit acc = true →
  forallb is_digit (PyInt.digits fuel n acc) = true.
Proof.
  revert n acc. induction fuel as [|fuel IH]; intros n acc Hn Hacc; [done|].
  cbn [PyInt.digits].
  assert (forallb is_digit (PyInt.digit_char (n mod 10) :: acc) = true) as Hacc'.
  { cbn [forallb]. rewrite is_digit_digit_char, Hacc; [done|].
    pose proof (Z.mod_pos_bound n 10). lia. }
  destruct (n <? 10); [done|]. apply IH; [|done]. apply Z.div_pos; lia.
Qed.

Lemma digits_nonempty fuel n acc : PyInt.digits (S fuel) n acc ≠ [].
Proof.
  revert n acc. induction fuel as [|fuel IH]; intros n acc.
  - cbn [PyInt.digits]. by destruct (n <? 10).
  - cbn [PyInt.digits] in *. destruct (n <? 10); [done|]. apply IH.
Qed.

(** The digits written for [n] denote [n]. *)
Lemma digits_value fuel n acc :
  0 ≤ n < 2 ^ Z.of_nat fuel →
  decimal_value 0 (PyInt.digits fuel n acc) = decimal_value n acc.
Proof.
  revert n acc. induction fuel as [|fuel IH]; intros n acc Hn.
  - change (2 ^ Z.of_nat 0) with 1 in Hn. by replace n with 0 by lia.
  - cbn [PyInt.digits].
    pose proof (Z.mod_pos_bound n 10 ltac:(lia)) as Hmod.
    assert (decimal_value 0 (PyInt.digit_char (n mod 10) :: acc)
            = decimal_value (n mod 10) acc) as Hd.
    { unfold decimal_value. cbn [fold_left].
      rewrite digit_value_digit_char by lia. cbn [default]. f_equal. }
    destruct (Z.ltb_spec n 10) as [Hlt|Hge].
    + rewrite Hd. by rewrite Z.mod_small by lia.
    + rewrite IH.
      * unfold decimal_value. cbn [fold_left].
        rewrite digit_value_digit_char by lia. cbn [default]. f_equal.
        unfold id. pose proof (Z.div_mod n 10 ltac:(lia)). lia.
      * split; [apply Z.div_pos; lia|].
        apply Z.div_lt_upper_bound; [lia|].
        rewrite Nat2Z.inj_succ, Z.pow_succ_r in Hn by lia. lia.
Qed.

Lemma is_token_spec s :
  is_token s = true ↔ s ≠ [] ∧ Forall (λ c, Str.isspace c = false) s.
Proof.
  destruct s as [|c s]; [split; [discriminate|by intros [? _]]|].
  unfold is_token. rewrite forallb_forall, Forall_forall.
  split.
  - intros H. split; [done|]. intros x Hx.
    apply list_elem_of_In, H in Hx. by apply negb_true_iff.
  - intros [_ H] x Hx. apply negb_true_iff, H. by apply list_elem_of_In.
Qed.

Lemma digits_no_space s :
  forallb is_digit s = true → Forall (λ c, Str.isspace c = false) s.
Proof.
  rewrite forallb_forall, Forall_forall. intros H x Hx.
  apply list_elem_of_In, H in Hx. by apply is_digit_plain in Hx as [? _].
Qed.

(** The text of a number is one field. *)
Lemma decimal_is_token n : is_token (PyInt.decimal n) = true.
Proof.
  unfold PyInt.decimal. set (m := Z.abs n).
  set (ds := PyInt.digits (S (Z.to_nat (Z.log2 m))) m []).
  assert (Forall (λ c, Str.isspace c = false) ds) as Hds.
  { apply digits_no_space, digits_all_digits; [lia|done]. }
  apply is_token_spec. destruct (n <? 0).
  - split; [done|]. by constructor.
  - split; [apply digits_nonempty|done].
Qed.

Lemma lstrip_no_space c s : Str.isspace c = false → Str.lstrip (c :: s) = c :: s.
Proof. intros H. simpl. by rewrite H. Qed.

Lemma lstrip_token s : is_token s = true → Str.lstrip s = s.
Proof.
  intros [Hne H]%is_token_spec. destruct s as [|c s]; [done|].
  apply lstrip_no_space. by inversion H.
Qed.

Lemma strip_token s : is_token s = true → Str.strip s = s.
Proof.
  intros H. unfold Str.strip, Str.rstrip. rewrite (lstrip_token s H).
  rewrite lstrip_token; [apply rev_involutive|].
  apply is_token_spec in H as [Hne H]. apply is_token_spec. split.
  - intros Hr. apply Hne. by rewrite <- (rev_involutive s), Hr.
  - by apply Forall_rev.
Qed.

Lemma is_space_isspace c : PyInt.is_space c = true → Str.isspace c = true.
Proof.
  destruct c as [[] [] [] [] [] [] [] []]; vm_compute; intros H;
    try discriminate H; reflexivity.
Qed.

Lemma skip_spaces_token s : is_token s = true → PyInt.skip_spaces s = s.
Proof.
  intros [Hne H]%is_token_spec. destruct s as [|c s]; [done|].
  inversion H as [|? ? Hc _]; subst. cbn [PyInt.skip_spaces].
  destruct (PyInt.is_space c) eqn:Hs; [|reflexivity].
  apply is_space_isspace in Hs. congruence.
Qed.

Lemma strip_spaces_token s : is_token s = true → PyInt.strip_spaces s = s.
Proof.
  intros H. unfold PyInt.strip_spaces. rewrite (skip_spaces_token s H).
  rewrite skip_spaces_token; [apply rev_involutive|].
  apply is_token_spec in H as [Hne H]. apply is_token_spec. split.
  - intros Hr. apply Hne. by rewrite <- (rev_involutive s), Hr.
  - by apply Forall_rev.
Qed.

(** Counting digits. *)
Lemma digit_value_range c d : PyInt.digit_value c = Some d → 0 ≤ d ≤ 9.
Proof.
  unfold PyInt.digit_value.
  destruct (_ && _) eqn:H; [|discriminate]. intros [= <-].
  apply andb_true_iff in H as [H1%Z.leb_le H2%Z.leb_le]. lia.
Qed.

Lemma digit_count_nonneg s : 0 ≤ PyInt.digit_count s.
Proof.
  induction s as [|c s IH]; cbn [PyInt.digit_count]; [done|].
  destruct (PyInt.digit_value c); lia.
Qed.

Lemma digit_count_digits s :
  forallb is_digit s = true → PyInt.digit_count s = Z.of_nat (length s).
Proof.
  induction s as [|c s IH]; [done|]. intros [Hc Hs]%andb_true_iff.
  cbn [PyInt.digit_count length]. unfold is_digit in Hc.
  apply bool_decide_eq_true in Hc as [d ->]. rewrite IH by done. lia.
Qed.

Lemma digits_S fuel n acc :
  PyInt.digits (S fuel) n acc =
    if n <? 10 then PyInt.digit_char (n mod 10) :: acc
    else PyInt.digits fuel (n / 10) (PyInt.digit_char (n mod 10) :: acc).
Proof. reflexivity. Qed.

Lemma digits_length_lower fuel n acc :
  Z.of_nat (length acc) + match fuel with O => 0 | S _ => 1 end
  ≤ Z.of_nat (length (PyInt.digits fuel n acc)).
Proof.
  revert n acc. induction fuel as [|fuel IH]; intros n acc;
    cbn [PyInt.digits]; [lia|].
  destruct (n <? 10); [cbn [length]; lia|].
  specialize (IH (n / 10) (PyInt.digit_char (n mod 10) :: acc)).
  cbn [length] in IH. destruct fuel; lia.
Qed.

(** The number of digits written for [n]: [k] are enough exactly for the
    numbers below [10 ^ k]. *)
Lemma digits_length fuel n acc k :
  0 ≤ n < 2 ^ Z.of_nat (S fuel) → 1 ≤ k →
  Z.of_nat (length (PyInt.digits (S fuel) n acc)) ≤ k + Z.of_nat (length acc)
  ↔ n < 10 ^ k.
Proof.
  revert n acc k. induction fuel as [|fuel IH]; intros n acc k Hn Hk.
  - change (2 ^ Z.of_nat 1) with 2 in Hn. cbn [PyInt.digits].
    destruct (Z.ltb_spec n 10); [|lia]. cbn [length].
    assert (10 ^ 1 ≤ 10 ^ k) by (apply Z.pow_le_mono_r; lia). lia.
  - rewrite (digits_S (S fuel)).
    assert (10 ^ 1 ≤ 10 ^ k) as Hpow by (apply Z.pow_le_mono_r; lia).
    change (10 ^ 1) with 10 in Hpow.
    destruct (Z.ltb_spec n 10) as [Hlt|Hge]; [cbn [length]; lia|].
    set (acc' := PyInt.digit_char (n mod 10) :: acc).
    assert (Z.of_nat (length acc') = 1 + Z.of_nat (length acc)) as Hacc'
      by (subst acc'; cbn [length]; lia).
    assert (0 ≤ n / 10 < 2 ^ Z.of_nat (S fuel)) as Hn'.
    { split; [apply Z.div_pos; lia|]. apply Z.div_lt_upper_bound; [lia|].
      rewrite (Nat2Z.inj_succ (S fuel)), Z.pow_succ_r in Hn by lia. lia. }
    destruct (Z.eq_dec k 1) as [->|Hk1].
    + pose proof (digits_length_lower (S fuel) (n / 10) acc') as Hlow.
      change (10 ^ 1) with 10. lia.
    + pose proof (IH (n / 10) acc' (k - 1) Hn' ltac:(lia)) as IH'.
      rewrite Hacc' in IH'.
      assert (n / 10 < 10 ^ (k - 1) ↔ n < 10 ^ k) as Hiff.
      { replace (10 ^ k) with (10 * 10 ^ (k - 1))
          by (rewrite <- Z.pow_succ_r by lia; f_equal; lia).
        pose proof (Z.div_mod n 10 ltac:(lia)) as Hdm.
        pose proof (Z.mod_pos_bound n 10 ltac:(lia)) as Hmod. lia. }
      rewrite <- Hiff, <- IH'. split; lia.
Qed.

Lemma log2_fuel m : 0 ≤ m → 0 ≤ m < 2 ^ Z.of_nat (S (Z.to_nat (Z.log2 m))).
Proof.
  intros Hm. rewrite Nat2Z.inj_succ, Z2Nat.id by apply Z.log2_nonneg.
  destruct (Z.eq_dec m 0) as [->|]; [done|].
  split; [lia|]. apply Z.log2_spec. lia.
Qed.

Lemma digit_count_decimal n :
  PyInt.digit_count (PyInt.decimal n) ≤ PyInt.int_max_str_digits
  ↔ in_str_range n.
Proof.
  unfold PyInt.decimal, in_str_range. set (m := Z.abs n).
  set (fuel := Z.to_nat (Z.log2 m)).
  pose proof (digits_all_digits (S fuel) m [] ltac:(lia) eq_refl) as Hall.
  pose proof (digits_length fuel m [] PyInt.int_max_str_digits
                (log2_fuel m ltac:(lia)) ltac:(done)) as Hlen.
  cbn [length] in Hlen. rewrite Z.add_0_r in Hlen. rewrite <- Hlen.
  destruct (n <? 0); cbn [PyInt.digit_count];
    change (PyInt.digit_value PyInt.minus) with (@None Z); cbv iota;
    by rewrite digit_count_digits.
Qed.

(** [str] writes the text of the numbers in its range, and raises for the
    others. *)
Lemma str_Some n : in_str_range n → PyInt.str n = Some (PyInt.decimal n).
Proof.
  intros H%digit_count_decimal. unfold PyInt.str.
  by destruct (Z.leb_spec (PyInt.digit_count (PyInt.decimal n))
                 PyInt.int_max_str_digits); [|lia].
Qed.

Lemma str_None n : ¬ in_str_range n → PyInt.str n = None.
Proof.
  intros H. unfold PyInt.str.
  destruct (Z.leb_spec (PyInt.digit_count (PyInt.decimal n))
              PyInt.int_max_str_digits) as [Hle|]; [|done].
  by apply digit_count_decimal in Hle.
Qed.

(** What [int] reads is in the range of [str]. *)
Lemma int_digits_bound s acc prev_digit v :
  PyInt.int_digits acc prev_digit s = Some v → 0 ≤ acc →
  acc * 10 ^ PyInt.digit_count s ≤ v < (acc + 1) * 10 ^ PyInt.digit_count s.
Proof.
  revert acc prev_digit. induction s as [|c s IH]; intros acc b.
  - cbn. destruct b; [|discriminate]. intros [= <-]. lia.
  - cbn [PyInt.int_digits PyInt.digit_count].
    pose proof (digit_count_nonneg s) as Hdc.
    destruct (Ascii.eqb_spec c PyInt.underscore) as [->|_].
    + change (PyInt.digit_value PyInt.underscore) with (@None Z). cbv iota.
      destruct b; [|discriminate]. apply IH.
    + destruct (PyInt.digit_value c) as [d|] eqn:Hd; [|discriminate].
      apply digit_value_range in Hd. intros Hv Hacc.
      apply IH in Hv; [|lia]. rewrite Z.pow_add_r by lia.
      change (10 ^ 1) with 10.
      assert (0 < 10 ^ PyInt.digit_count s) by (apply Z.pow_pos_nonneg; lia).
      nia.
Qed.

Lemma literal_bound s v : PyInt.literal s = Some v → 0 ≤ v ∧ in_str_range v.
Proof.
  unfold PyInt.literal, in_str_range.
  destruct (Z.leb_spec (PyInt.digit_count s) PyInt.int_max_str_digits) as [Hle|];
    [|discriminate].
  intros H%int_digits_bound; [|done].
  pose proof (digit_count_nonneg s) as Hdc.
  assert (10 ^ PyInt.digit_count s ≤ 10 ^ PyInt.int_max_str_digits)
    by (apply Z.pow_le_mono_r; lia).
  lia.
Qed.

Lemma int_in_str_range s n : PyInt.int s = Some n → in_str_range n.
Proof.
  unfold PyInt.int. destruct (PyInt.strip_spaces s) as [|c s']; [discriminate|].
  destruct (Ascii.eqb c PyInt.minus).
  - destruct (PyInt.literal s') as [v|] eqn:Hv; [|discriminate].
    intros [= <-]. apply literal_bound in Hv as [Hv Hr].
    unfold in_str_range in *. lia.
  - destruct (Ascii.eqb c PyInt.plus); by intros [_ ?]%literal_bound.
Qed.

(** [int] reads the text of a number in the range of [str] back. *)
Lemma int_decimal n : in_str_range n → PyInt.int (PyInt.decimal n) = Some n.
Proof.
  intros Hr%digit_count_decimal.
  unfold PyInt.int. rewrite (strip_spaces_token _ (decimal_is_token n)).
  unfold PyInt.decimal in *. set (m := Z.abs n) in *.
  set (fuel := Z.to_nat (Z.log2 m)) in *.
  pose proof (log2_fuel m ltac:(lia)) as Hm. fold fuel in Hm.
  pose proof (digits_all_digits (S fuel) m [] ltac:(lia) eq_refl) as Hall.
  pose proof (digits_nonempty fuel m []) as Hne.
  pose proof (digits_value (S fuel) m [] Hm) as Hval.
  change (decimal_value m []) with m in Hval.
  unfold PyInt.literal.
  destruct (Z.ltb_spec n 0) as [Hneg|Hpos].
  - change (Ascii.eqb PyInt.minus PyInt.minus) with true. cbv iota.
    cbn [PyInt.digit_count] in Hr.
    change (PyInt.digit_value PyInt.minus) with (@None Z) in Hr. cbv iota in Hr.
    destruct (Z.leb_spec (PyInt.digit_count (PyInt.digits (S fuel) m []))
                PyInt.int_max_str_digits); [|lia].
    rewrite int_digits_value, Hval by done. simpl. f_equal. lia.
  - destruct (PyInt.digits (S fuel) m []) as [|c ds] eqn:Hds; [done|].
    pose proof Hall as Hc. apply andb_true_iff in Hc as [Hc _].
    apply is_digit_plain in Hc as (_ & -> & -> & _).
    destruct (Z.leb_spec (PyInt.digit_count (c :: ds))
                PyInt.int_max_str_digits); [|lia].
    rewrite int_digits_value, Hval by done. f_equal. lia.
Qed.

End PyIntFacts.

(** ** Fields and lines *)

Section Text.

Lemma split_spaces ws :
  Forall (λ c, Str.isspace c = true) ws → Str.split ws = [].
Proof.
  induction 1 as [|c ws Hc _ IH]; [reflexivity|]. simpl. by rewrite Hc.
Qed.

Lemma split_cons_no_space c s :
  Str.isspace c = false →
  Str.split (c :: s) =
    match s with
    | [] => [[c]]
    | c' :: _ =>
        if Str.isspace c' then [c] :: Str.split s
        else match Str.split s with
             | field :: fields => (c :: field) :: fields
             | [] => [[c]]
             end
    end.
Proof. intros H. cbn [Str.split]. by rewrite H. Qed.

(** Whitespace at the end adds no field. *)
Lemma split_app_spaces s ws :
  Forall (λ c, Str.isspace c = true) ws → Str.split (s ++ ws) = Str.split s.
Proof.
  intros Hws. induction s as [|c s IH]; [by apply split_spaces|].
  destruct (Str.isspace c) eqn:Hc.
  - cbn [app Str.split]. by rewrite Hc.
  - cbn [app]. rewrite !split_cons_no_space by done.
    destruct s as [|c' s].
    + cbn [app]. destruct Hws as [|w ws Hw Hws]; [reflexivity|].
      rewrite Hw. f_equal. apply split_spaces. by constructor.
    + cbn [app] in *. by rewrite IH.
Qed.

Lemma split_lstrip s : Str.split (Str.lstrip s) = Str.split s.
Proof.
  induction s as [|c s IH]; [reflexivity|].
  cbn [Str.lstrip]. destruct (Str.isspace c) eqn:Hc; [|reflexivity].
  cbn [Str.split]. by rewrite Hc.
Qed.

Lemma lstrip_decompose s :
  ∃ ws, s = ws ++ Str.lstrip s ∧ Forall (λ c, Str.isspace c = true) ws.
Proof.
  induction s as [|c s (ws & Hs & Hws)]; [by exists []|].
  cbn [Str.lstrip]. destruct (Str.isspace c) eqn:Hc.
  - exists (c :: ws). split; [by rewrite Hs at 1|by constructor].
  - by exists [].
Qed.

Lemma split_rstrip s : Str.split (Str.rstrip s) = Str.split s.
Proof.
  unfold Str.rstrip.
  destruct (lstrip_decompose (rev s)) as (ws & Hs & Hws).
  apply (f_equal (@rev ascii)) in Hs.
  rewrite rev_involutive, rev_app_distr in Hs.
  rewrite Hs at 2. symmetry. apply split_app_spaces. by apply Forall_rev.
Qed.

(** Stripping a line does not change its fields. *)
Lemma fields_split line : fields line = Str.split line.
Proof. unfold fields, Str.strip. by rewrite split_rstrip, split_lstrip. Qed.

(** A field followed by a whitespace character is the first field. *)
Lemma split_token_sep t c rest :
  is_token t = true → Str.isspace c = true →
  Str.split (t ++ c :: rest) = t :: Str.split rest.
Proof.
  intros [Hne Ht]%is_token_spec Hc.
  induction t as [|x t IH]; [done|].
  inversion Ht as [|? ? Hx Ht']; subst.
  cbn [app]. rewrite split_cons_no_space by done.
  destruct t as [|y t].
  - cbn [app]. rewrite Hc. cbn [Str.split]. by rewrite Hc.
  - cbn [app] in *. inversion Ht' as [|? ? Hy _]; subst. rewrite Hy.
    by rewrite IH.
Qed.

(** The fields every [split] returns are fields. *)
Lemma split_tokens s : Forall (λ t, is_token t = true) (Str.split s).
Proof.
  induction s as [|c s IH]; [constructor|].
  destruct (Str.isspace c) eqn:Hc; [cbn [Str.split]; by rewrite Hc|].
  rewrite split_cons_no_space by done.
  assert (is_token [c] = true) as Hc1 by (simpl; by rewrite Hc).
  destruct s as [|c' s]; [by repeat constructor|].
  destruct (Str.isspace c'); [by constructor|].
  destruct (Str.split (c' :: s)) as [|field fs]; [by repeat constructor|].
  inversion IH as [|? ? Hf Hfs]; subst. constructor; [|done].
  apply is_token_spec in Hf as [_ Hf]. apply is_token_spec.
  split; [done|]. by constructor.
Qed.

Lemma universal_newlines_no_CR s :
  Forall (λ c, c ≠ Str.CR) s → Str.universal_newlines s = s.
Proof.
  induction 1 as [|c s Hc _ IH]; [reflexivity|]. cbn [Str.universal_newlines].
  destruct (Ascii.eqb_spec c Str.CR); [done|]. by rewrite IH.
Qed.

(** Reading undoes the translation that writing does with CR LF. *)
Lemma universal_newlines_write_crlf s :
  Forall (λ c, c ≠ Str.CR) s →
  Str.universal_newlines (Str.write_newlines [Str.CR; Str.LF] s) = s.
Proof.
  induction 1 as [|c s Hc _ IH]; [reflexivity|].
  unfold Str.write_newlines in *. cbn [flat_map].
  destruct (Ascii.eqb_spec c Str.LF) as [->|Hlf].
  - cbn [app Str.universal_newlines].
    change (Ascii.eqb Str.CR Str.CR) with true.
    change (Ascii.eqb Str.LF Str.LF) with true. cbv iota. by rewrite IH.
  - cbn [app Str.universal_newlines].
    destruct (Ascii.eqb_spec c Str.CR); [done|]. by rewrite IH.
Qed.

Lemma lines_app_LF body rest :
  Forall (λ c, c ≠ Str.LF) body →
  Str.lines (body ++ Str.LF :: rest) = (body ++ [Str.LF]) :: Str.lines rest.
Proof.
  induction 1 as [|c body Hc _ IH]; [reflexivity|].
  cbn [app Str.lines]. destruct (Ascii.eqb_spec c Str.LF); [done|].
  by rewrite IH.
Qed.

End Text.

(** ** Writing, then reading *)

Section RoundTrip.

Lemma isspace_LF : Str.isspace Str.LF = true.
Proof. reflexivity. Qed.

Lemma isspace_space : Str.isspace " " = true.
Proof. reflexivity. Qed.

Lemma token_chars t c :
  is_token t = true → c ∈ t → c ≠ Str.LF ∧ c ≠ Str.CR ∧ c ≠ " "%char.
Proof.
  intros [_ Ht]%is_token_spec Hc.
  rewrite Forall_forall in Ht. apply Ht in Hc.
  repeat split; intros ->; discriminate Hc.
Qed.

Lemma fields_line_text l :
  writable l = true →
  fields (line_text l) =
    [PyInt.decimal (start l); PyInt.decimal (end_ l); list_ascii_of_string (phoneme l)].
Proof.
  intros Hl. rewrite fields_split. unfold line_text. cbn [app].
  rewrite split_token_sep by (apply decimal_is_token || reflexivity).
  rewrite split_token_sep by (apply decimal_is_token || reflexivity).
  rewrite split_token_sep by (exact Hl || reflexivity).
  reflexivity.
Qed.

Lemma parse_line_line_text l :
  writable l = true → printable l → parse_line (line_text l) = Some (Some l).
Proof.
  intros Hl [Hs He]. unfold parse_line. rewrite (fields_line_text l Hl).
  rewrite !int_decimal by done. cbn [mbind option_bind].
  rewrite string_of_list_ascii_of_string. by destruct l.
Qed.

(** The line written for a segment, without its final LF. *)
Lemma line_text_body l :
  writable l = true →
  ∃ body, line_text l = body ++ [Str.LF] ∧
          Forall (λ c, c ≠ Str.LF) body ∧ Forall (λ c, c ≠ Str.CR) body.
Proof.
  intros Hl.
  exists (PyInt.decimal (start l) ++ [" "%char] ++ PyInt.decimal (end_ l) ++ [" "%char]
          ++ list_ascii_of_string (phoneme l)).
  split; [unfold line_text; by rewrite <- !app_assoc|].
  pose proof (decimal_is_token (start l)) as Hs.
  pose proof (decimal_is_token (end_ l)) as He.
  split; rewrite !Forall_app, !Forall_singleton;
    repeat split; try discriminate;
    apply Forall_forall; intros c Hc;
    by eapply token_chars in Hc as (? & ? & ?).
Qed.

Lemma file_text_no_CR labels :
  Forall (λ l, writable l = true) labels →
  Forall (λ c, c ≠ Str.CR) (file_text labels).
Proof.
  induction 1 as [|l labels Hl _ IH]; [constructor|].
  unfold file_text. cbn [flat_map].
  destruct (line_text_body l Hl) as (body & -> & _ & Hcr).
  rewrite !Forall_app, Forall_singleton. repeat split; done.
Qed.

Lemma lines_file_text labels :
  Forall (λ l, writable l = true) labels →
  Str.lines (file_text labels) = line_text <$> labels.
Proof.
  induction 1 as [|l labels Hl _ IH]; [reflexivity|].
  unfold file_text. cbn [flat_map fmap list_fmap].
  destruct (line_text_body l Hl) as (body & -> & Hlf & _).
  rewrite <- app_assoc. cbn [app].
  rewrite lines_app_LF by done. f_equal. exact IH.
Qed.


Lemma text_then_parse labels :
  Forall (λ l, writable l = true) labels → Forall printable labels →
  parse_lab_file (file_text labels) = Some labels.
Proof.
  intros H Hp. unfold parse_lab_file.
  rewrite universal_newlines_no_CR by (by apply file_text_no_CR).
  rewrite lines_file_text, parse_lines_spec by done.
  rewrite (mapM_Some_2 parse_line (line_text <$> labels) (Some <$> labels)).
  - simpl. f_equal. clear. induction labels as [|l labels IH]; [reflexivity|].
    simpl. f_equal. apply IH.
  - apply Forall2_fmap, Forall_Forall2_diag.
    rewrite Forall_forall in *. intros l Hl.
    apply parse_line_line_text; auto.
Qed.

(** The writer: it returns exactly on the lists of printable segments, and
    then it has written their text. *)
Lemma write_line_Some l : printable l → write_line l = Some (line_text l).
Proof.
  intros [Hs He]. unfold write_line. by rewrite !str_Some.
Qed.

Lemma write_line_None l : ¬ printable l → write_line l = None.
Proof.
  intros H. unfold write_line.
  destruct (PyInt.str (start l)) as [s|] eqn:Hs; [|reflexivity].
  destruct (PyInt.str (end_ l)) as [e|] eqn:He; [|reflexivity].
  exfalso. apply H. split.
  - destruct (decide (in_str_range (start l))) as [|Hn]; [done|].
    by rewrite str_None in Hs.
  - destruct (decide (in_str_range (end_ l))) as [|Hn]; [done|].
    by rewrite str_None in He.
Qed.

Lemma write_lines_printable labels f :
  Forall printable labels → write_lines labels f = (f ++ file_text labels, true).
Proof.
  intros H. revert f. induction H as [|l labels Hl _ IH]; intros f.
  - cbn. by rewrite app_nil_r.
  - cbn [write_lines]. rewrite write_line_Some by done.
    rewrite IH. unfold file_text. cbn [flat_map]. by rewrite app_assoc.
Qed.

Lemma write_lines_returned labels f f' :
  write_lines labels f = (f', true) → Forall printable labels.
Proof.
  revert f. induction labels as [|l labels IH]; intros f; [constructor|].
  cbn [write_lines].
  destruct (decide (printable l)) as [Hl|Hl].
  - rewrite write_line_Some by done. intros H. constructor; [done|].
    by eapply IH.
  - by rewrite write_line_None.
Qed.

Lemma write_lab_file_returned labels text :
  write_lab_file labels = (text, true) ↔
  Forall printable labels ∧ text = file_text labels.
Proof.
  unfold write_lab_file. split.
  - intros H. pose proof (write_lines_returned _ _ _ H) as Hp.
    rewrite write_lines_printable in H by done. by injection H as <-.
  - intros [Hp ->]. by rewrite write_lines_printable.
Qed.

Lemma write_then_parse labels :
  Forall (λ l, writable l = true) labels → Forall printable labels →
  ∃ text, write_lab_file labels = (text, true) ∧
          parse_lab_file text = Some labels.
Proof.
  intros H Hp. exists (file_text labels).
  split; [by apply write_lab_file_returned|by apply text_then_parse].
Qed.

(** Every segment the parser returns is writable. *)
Lemma parse_line_writable line l :
  parse_line line = Some (Some l) → writable l = true.
Proof.
  unfold parse_line.
  pose proof (split_tokens (Str.strip line)) as Ht. fold (fields line) in Ht.
  destruct (fields line) as [|p0 [|p1 [|p2 extra]]]; try discriminate.
  destruct (PyInt.int p0); [|discriminate].
  destruct (PyInt.int p1); [|discriminate].
  intros [= <-]. unfold writable. cbn [phoneme].
  rewrite list_ascii_of_string_of_list_ascii.
  apply Forall_cons_1 in Ht as [_ Ht]. apply Forall_cons_1 in Ht as [_ Ht].
  by apply Forall_cons_1 in Ht as [Ht _].
Qed.

Lemma parse_lab_file_writable content labels :
  parse_lab_file content = Some labels → Forall (λ l, writable l = true) labels.
Proof.
  unfold parse_lab_file. rewrite parse_lines_spec.
  destruct (mapM parse_line _) as [ls|] eqn:Hls; [|discriminate].
  intros [= <-]. apply mapM_Some_1 in Hls. cbn [app].
  induction Hls as [|line [l|] lines ls Hl _ IH]; [constructor| |exact IH].
  cbn [omap]. constructor; [|exact IH]. by eapply parse_line_writable.
Qed.

(** Every segment the parser returns is printable. *)
Lemma parse_line_printable line l :
  parse_line line = Some (Some l) → printable l.
Proof.
  unfold parse_line.
  destruct (fields line) as [|p0 [|p1 [|p2 extra]]]; try discriminate.
  destruct (PyInt.int p0) as [s|] eqn:Hs; [|discriminate].
  destruct (PyInt.int p1) as [e|] eqn:He; [|discriminate].
  intros [= <-]. split; by eapply int_in_str_range.
Qed.

Lemma parse_lab_file_printable content labels :
  parse_lab_file content = Some labels → Forall printable labels.
Proof.
  unfold parse_lab_file. rewrite parse_lines_spec.
  destruct (mapM parse_line _) as [ls|] eqn:Hls; [|discriminate].
  intros [= <-]. apply mapM_Some_1 in Hls. cbn [app].
  induction Hls as [|line [l|] lines ls Hl _ IH]; [constructor| |exact IH].
  cbn [omap]. constructor; [|exact IH]. by eapply parse_line_printable.
Qed.

End RoundTrip.




(** ** The merger on the heap: what it leaves untouched *)

Module HeapFacts.
Import Heap.
Local Open Scope heap_scope.

Section Keeps.

(** The store before the call. *)
Variable h0 : heap.

Abbreviation keeps := (@keeps_store h0 _).
Abbreviation fresh_addr := (fresh_in h0).

Lemma keeps_ret {A} (a : A) (P : A → Prop) : P a → keeps (ret a) P.
Proof. intros Ha h Hh. by split. Qed.

Lemma keeps_raise {A} (e : exn) (P : A → Prop) : keeps (raise e) P.
Proof. intros h Hh. by split. Qed.

Lemma keeps_out_of_fuel {A} (P : A → Prop) : keeps out_of_fuel P.
Proof. intros h Hh. by split. Qed.

Lemma keeps_bind {A B} (m : M A) (k : A → M B) (P : A → Prop) (Q : B → Prop) :
  keeps m P → (∀ a, P a → keeps (k a) Q) → keeps (bind m k) Q.
Proof.
  intros Hm Hk h Hh. unfold bind.
  destruct (Hm h Hh) as [Hh' Ha].
  destruct (m h) as [[a|e|] h']; simpl in *; [|by split..].
  by apply Hk.
Qed.

Lemma keeps_weaken {A} (m : M A) (P Q : A → Prop) :
  keeps m P → (∀ a, P a → Q a) → keeps m Q.
Proof.
  intros Hm HPQ h Hh. destruct (Hm h Hh) as [Hh' Ha]. split; [done|].
  destruct ((m h).1); auto.
Qed.

Lemma keeps_new (o : obj) : keeps (new o) fresh_addr.
Proof.
  intros h Hh. unfold new. cbn [fst snd].
  assert (h !! fresh (dom h) = None) as Hfresh
    by (apply not_elem_of_dom, is_fresh).
  assert (fresh_addr (fresh (dom h))) as Hf0
    by (by eapply lookup_weaken_None).
  split; [|done]. by apply insert_subseteq_r.
Qed.

Lemma keeps_read_dict l : keeps (read_dict l) (λ _, True).
Proof.
  intros h Hh. unfold read_dict.
  destruct (h !! l) as [[d|items]|]; by split.
Qed.

Lemma keeps_read_list l : keeps (read_list l) (λ _, True).
Proof.
  intros h Hh. unfold read_list.
  destruct (h !! l) as [[d|items]|]; by split.
Qed.

Lemma keeps_write l o : fresh_addr l → keeps (write l o) (λ _, True).
Proof. intros Hl h Hh. split; [|done]. by apply insert_subseteq_r. Qed.

Lemma keeps_dict_copy l : keeps (dict_copy l) fresh_addr.
Proof.
  eapply keeps_bind; [apply keeps_read_dict|]. intros d _. apply keeps_new.
Qed.

Lemma keeps_setitem_end l v : fresh_addr l → keeps (setitem_end l v) (λ _, True).
Proof.
  intros Hl. eapply keeps_bind; [apply keeps_read_dict|].
  intros d _. by apply keeps_write.
Qed.

Lemma keeps_setitem_phoneme l v :
  fresh_addr l → keeps (setitem_phoneme l v) (λ _, True).
Proof.
  intros Hl. eapply keeps_bind; [apply keeps_read_dict|].
  intros d _. by apply keeps_write.
Qed.

Lemma keeps_len l : keeps (len l) (λ _, True).
Proof.
  eapply keeps_bind; [apply keeps_read_list|]. intros items _.
  by apply keeps_ret.
Qed.

Lemma keeps_getitem l i : keeps (getitem l i) (λ _, True).
Proof.
  eapply keeps_bind; [apply keeps_read_list|]. intros items _.
  destruct (items !! i); [by apply keeps_ret|apply keeps_raise].
Qed.

Lemma keeps_append l x : fresh_addr l → keeps (append l x) (λ _, True).
Proof.
  intros Hl. eapply keeps_bind; [apply keeps_read_list|].
  intros items _. by apply keeps_write.
Qed.

Lemma keeps_of_option {A} e (o : option A) : keeps (of_option e o) (λ _, True).
Proof. destruct o; [by apply keeps_ret|apply keeps_raise]. Qed.

Lemma keeps_when b m : keeps m (λ _, True) → keeps (when b m) (λ _, True).
Proof. intros Hm. destruct b; [done|by apply keeps_ret]. Qed.

Lemma keeps_pass1_loop thr labels merged range current_label current_group :
  fresh_addr merged → fresh_addr current_label →
  keeps (pass1_loop thr labels merged range current_label current_group)
        (λ st, fresh_addr st.1).
Proof.
  intros Hm. revert current_label current_group.
  induction range as [|i range IH]; intros c g Hc; [by apply keeps_ret|].
  cbn [pass1_loop].
  eapply keeps_bind; [apply keeps_getitem|]. intros next_label _.
  eapply keeps_bind; [apply keeps_read_dict|]. intros next _.
  eapply keeps_bind; [apply keeps_read_dict|]. intros current _.
  eapply keeps_bind; [apply keeps_of_option|]. intros gap_seconds _.
  destruct (_ && _).
  - eapply keeps_bind; [by apply keeps_setitem_end|]. intros _ _.
    eapply keeps_bind; [by apply keeps_when, keeps_setitem_phoneme|].
    intros _ _. by apply IH.
  - eapply keeps_bind; [by apply keeps_when, keeps_setitem_phoneme|].
    intros _ _.
    eapply keeps_bind; [by apply keeps_append|]. intros _ _.
    eapply keeps_bind; [apply keeps_dict_copy|]. intros c' Hc'.
    by apply IH.
Qed.

Lemma keeps_pass2_inner fuel merged current_label j :
  fresh_addr current_label →
  keeps (pass2_inner fuel merged current_label j) (λ _, True).
Proof.
  intros Hc. revert j.
  induction fuel as [|fuel IH]; intros j; [apply keeps_out_of_fuel|].
  cbn [pass2_inner].
  eapply keeps_bind; [apply keeps_len|]. intros n _.
  case_bool_decide; [|by apply keeps_ret].
  eapply keeps_bind; [apply keeps_getitem|]. intros merged_j _.
  eapply keeps_bind; [apply keeps_read_dict|]. intros d _.
  destruct (String.eqb _ _); [|by apply keeps_ret].
  eapply keeps_bind; [by apply keeps_setitem_end|]. intros _ _. apply IH.
Qed.

Lemma keeps_pass2_outer fuel merged final_merged i :
  fresh_addr final_merged →
  keeps (pass2_outer fuel merged final_merged i) (λ _, True).
Proof.
  intros Hf. revert i.
  induction fuel as [|fuel IH]; intros i; [apply keeps_out_of_fuel|].
  cbn [pass2_outer].
  eapply keeps_bind; [apply keeps_len|]. intros n _.
  case_bool_decide; [|by apply keeps_ret].
  eapply keeps_bind; [apply keeps_getitem|]. intros merged_i _.
  eapply keeps_bind; [apply keeps_dict_copy|]. intros c Hc.
  eapply keeps_bind; [apply keeps_read_dict|]. intros d _.
  destruct (String.eqb _ _).
  - eapply keeps_bind; [by apply keeps_pass2_inner|]. intros j _.
    eapply keeps_bind; [by apply keeps_append|]. intros _ _. apply IH.
  - eapply keeps_bind; [by apply keeps_append|]. intros _ _. apply IH.
Qed.

(** The result is the argument itself (for the empty list) or a list
    object made by the call. *)
Lemma keeps_merge_labels labels thr :
  keeps (Heap.merge_labels labels thr) (λ r, r = labels ∨ fresh_addr r).
Proof.
  unfold Heap.merge_labels.
  eapply keeps_bind; [apply keeps_len|]. intros n _.
  case_bool_decide; [apply keeps_ret; by left|].
  eapply keeps_bind; [apply keeps_new|]. intros merged Hm.
  eapply keeps_bind; [apply keeps_getitem|]. intros labels_0 _.
  eapply keeps_bind; [apply keeps_dict_copy|]. intros c Hc.
  eapply keeps_bind; [apply keeps_read_dict|]. intros current _.
  eapply keeps_bind; [by apply keeps_pass1_loop|]. intros [c' g'] Hc'.
  eapply keeps_bind; [by apply keeps_when, keeps_setitem_phoneme|].
  intros _ _.
  eapply keeps_bind; [by apply keeps_append|]. intros _ _.
  eapply keeps_bind; [apply keeps_new|]. intros final_merged Hf.
  eapply keeps_bind; [apply keeps_len|]. intros m _.
  eapply keeps_bind; [by apply keeps_pass2_outer|]. intros _ _.
  apply keeps_ret. by right.
Qed.

End Keeps.

(** What a list object holds is read from the objects of the store it
    was read from, in every store that extends it. *)
Lemma deref_list_weaken (h h' : heap) l ds :
  h ⊆ h' → deref_list h l = Some ds → deref_list h' l = Some ds.
Proof.
  intros Hh. unfold deref_list.
  destruct (h !! l) as [[d|items]|] eqn:Hl; try discriminate.
  rewrite (lookup_weaken _ _ _ _ Hl Hh).
  rewrite !mapM_Some. intros H. eapply Forall2_impl; [exact H|].
  intros x d. unfold deref_dict.
  destruct (h !! x) as [[d'|items']|] eqn:Hx; try discriminate.
  by rewrite (lookup_weaken _ _ _ _ Hx Hh).
Qed.

End HeapFacts.

(** ** The merger on the heap computes what the merger on lists computes *)

Module HeapRefine.

(** The functions on lists, under names that the import of [Heap] leaves
    free. *)
Abbreviation list_pass1_loop := pass1_loop.
Abbreviation list_pass2_inner := pass2_inner.
Abbreviation list_pass2_outer := pass2_outer.
Abbreviation list_merge_labels := merge_labels.

Import Heap.
Local Open Scope heap_scope.

Lemma bind_returns {A B} (m : M A) (k : A → M B) h a h' :
  m h = (Returns a, h') → bind m k h = k a h'.
Proof. intros H. unfold bind. by rewrite H. Qed.

Lemma bind_raises {A B} (m : M A) (k : A → M B) h e h' :
  m h = (Raises e, h') → bind m k h = (Raises e, h').
Proof. intros H. unfold bind. by rewrite H. Qed.

Lemma bind_out_of_fuel {A B} (m : M A) (k : A → M B) h h' :
  m h = (OutOfFuel, h') → bind m k h = (OutOfFuel, h').
Proof. intros H. unfold bind. by rewrite H. Qed.

Lemma read_dict_eq h l d :
  h !! l = Some (Dict d) → read_dict l h = (Returns d, h).
Proof. intros H. unfold read_dict. by rewrite H. Qed.

Lemma read_list_eq h l items :
  h !! l = Some (PyList items) → read_list l h = (Returns items, h).
Proof. intros H. unfold read_list. by rewrite H. Qed.

Lemma len_eq h l items :
  h !! l = Some (PyList items) → len l h = (Returns (length items), h).
Proof. intros H. unfold len. by rewrite (bind_returns _ _ _ _ _ (read_list_eq _ _ _ H)). Qed.

Lemma getitem_eq h l items i x :
  h !! l = Some (PyList items) → items !! i = Some x →
  getitem l i h = (Returns x, h).
Proof.
  intros H Hi. unfold getitem.
  rewrite (bind_returns _ _ _ _ _ (read_list_eq _ _ _ H)). by rewrite Hi.
Qed.

Lemma setitem_end_eq h l d v :
  h !! l = Some (Dict d) →
  setitem_end l v h = (Returns (), <[l:=Dict (set_end d v)]> h).
Proof.
  intros H. unfold setitem_end.
  by rewrite (bind_returns _ _ _ _ _ (read_dict_eq _ _ _ H)).
Qed.

Lemma setitem_phoneme_eq h l d v :
  h !! l = Some (Dict d) →
  setitem_phoneme l v h = (Returns (), <[l:=Dict (set_phoneme d v)]> h).
Proof.
  intros H. unfold setitem_phoneme.
  by rewrite (bind_returns _ _ _ _ _ (read_dict_eq _ _ _ H)).
Qed.

Lemma append_eq h l items x :
  h !! l = Some (PyList items) →
  append l x h = (Returns (), <[l:=PyList (items ++ [x])]> h).
Proof.
  intros H. unfold append.
  by rewrite (bind_returns _ _ _ _ _ (read_list_eq _ _ _ H)).
Qed.

Lemma dict_copy_eq h l d :
  h !! l = Some (Dict d) →
  dict_copy l h = (Returns (fresh (dom h)), <[fresh (dom h):=Dict d]> h).
Proof.
  intros H. unfold dict_copy.
  by rewrite (bind_returns _ _ _ _ _ (read_dict_eq _ _ _ H)).
Qed.

Lemma fresh_lookup (h : heap) : h !! fresh (dom h) = None.
Proof. apply not_elem_of_dom, is_fresh. Qed.

Lemma holds_lookup h xs vs x :
  holds h xs vs → x ∈ xs → ∃ d, h !! x = Some (Dict d).
Proof.
  intros H Hx. apply list_elem_of_lookup in Hx as [i Hi].
  destruct (Forall2_lookup_l _ _ _ _ _ H Hi) as (d & _ & Hd). by exists d.
Qed.

Lemma holds_fresh h xs vs : holds h xs vs → fresh (dom h) ∉ xs.
Proof.
  intros H Hx. destruct (holds_lookup _ _ _ _ H Hx) as [d Hd].
  by rewrite fresh_lookup in Hd.
Qed.

Lemma holds_insert h xs vs l o :
  holds h xs vs → l ∉ xs → holds (<[l:=o]> h) xs vs.
Proof.
  intros H Hl. unfold holds in *.
  induction H as [|x d xs vs Hx _ IH]; [constructor|].
  apply not_elem_of_cons in Hl as [Hne Hl].
  constructor; [by rewrite lookup_insert_ne|by apply IH].
Qed.

Lemma holds_weaken h h' xs vs : h ⊆ h' → holds h xs vs → holds h' xs vs.
Proof.
  intros Hh H. eapply Forall2_impl; [exact H|].
  intros x d Hx. exact (lookup_weaken _ _ _ _ Hx Hh).
Qed.

Lemma holds_snoc h xs vs x d :
  holds h xs vs → h !! x = Some (Dict d) → holds h (xs ++ [x]) (vs ++ [d]).
Proof. intros H Hx. apply Forall2_app; [done|]. by repeat constructor. Qed.

(** A list object is no element of a list of segments. *)
Lemma holds_not_list h xs vs l items :
  holds h xs vs → h !! l = Some (PyList items) → l ∉ xs.
Proof.
  intros H Hl Hx. destruct (holds_lookup _ _ _ _ H Hx) as [d Hd]. congruence.
Qed.

Lemma deref_list_holds h l xs vs :
  h !! l = Some (PyList xs) → holds h xs vs → deref_list h l = Some vs.
Proof.
  intros Hl H. unfold deref_list. rewrite Hl. apply mapM_Some.
  eapply Forall2_impl; [exact H|]. intros x d Hx. unfold deref_dict. by rewrite Hx.
Qed.

Section Pass1Refine.

Variables (h0 : heap) (labels : positive) (items : list positive).
Variable ds : list label.
Variable max_gap_seconds : spec_float.
Hypothesis Hlabels : h0 !! labels = Some (PyList items).
Hypothesis Hitems : holds h0 items ds.

(** Writing to [current_label] keeps the relation. *)
Lemma pass1_rel_write h ml cl m c c' :
  pass1_rel h0 h ml cl m c → pass1_rel h0 (<[cl:=Dict c']> h) ml cl m c'.
Proof.
  intros (Hsub & Hml & Hcl & Hc & ms & Hms & Hm & Hnin).
  assert (cl ≠ ml) as Hne by congruence.
  split; [by apply insert_subseteq_r|]. split; [done|]. split; [done|].
  split; [by rewrite lookup_insert_eq|].
  exists ms. split; [by rewrite lookup_insert_ne|].
  split; [by apply holds_insert|done].
Qed.

(** Appending [current_label] to [merged] and copying the next segment
    gives the relation for the new [current_label]. *)
Lemma pass1_rel_append_copy h ml cl m c nd :
  pass1_rel h0 h ml cl m c →
  ∃ ms, h !! ml = Some (PyList ms) ∧
    let h2 := <[ml:=PyList (ms ++ [cl])]> h in
    pass1_rel h0 (<[fresh (dom h2):=Dict nd]> h2) ml (fresh (dom h2)) (m ++ [c]) nd.
Proof.
  intros (Hsub & Hml & Hcl & Hc & ms & Hms & Hm & Hnin).
  assert (cl ≠ ml) as Hne by congruence.
  exists ms. split; [done|]. intros h2.
  pose proof (fresh_lookup h2) as Hfresh. set (cl' := fresh (dom h2)) in *.
  assert (h2 !! ml = Some (PyList (ms ++ [cl]))) as Hml2
    by (subst h2; by rewrite lookup_insert_eq).
  assert (h2 !! cl = Some (Dict c)) as Hcl2
    by (subst h2; by rewrite lookup_insert_ne).
  assert (cl' ≠ ml) as Hne1 by congruence.
  assert (cl' ≠ cl) as Hne2 by congruence.
  assert (h0 ⊆ h2) as Hsub2 by (subst h2; by apply insert_subseteq_r).
  assert (holds h2 (ms ++ [cl]) (m ++ [c])) as Hm2.
  { apply holds_snoc; [|done]. subst h2. apply holds_insert; [done|].
    by eapply holds_not_list. }
  split; [apply insert_subseteq_r; [by eapply lookup_weaken_None|done]|].
  split; [done|]. split; [by eapply lookup_weaken_None|].
  split; [by rewrite lookup_insert_eq|].
  exists (ms ++ [cl]). split; [by rewrite lookup_insert_ne|].
  split; [apply holds_insert; [done|]; by eapply holds_fresh|].
  by eapply holds_fresh.
Qed.

(** One iteration on the heap is one iteration on the lists. *)
Lemma pass1_iteration_refines h ml cl m c g i range x nd :
  pass1_rel h0 h ml cl m c →
  items !! i = Some x → h0 !! x = Some (Dict nd) →
  match pass1_body max_gap_seconds (m, c, g) nd with
  | Some (m', c', g') =>
      ∃ cl' h', pass1_rel h0 h' ml cl' m' c' ∧
        Heap.pass1_loop max_gap_seconds labels ml (i :: range) cl g h
        = Heap.pass1_loop max_gap_seconds labels ml range cl' g' h'
  | None =>
      ∃ h', Heap.pass1_loop max_gap_seconds labels ml (i :: range) cl g h
            = (Raises OverflowError, h')
  end.
Proof.
  intros Hrel Hi Hx.
  pose proof Hrel as (Hsub & Hml & Hcl & Hc & ms & Hms & Hm & Hnin).
  pose proof (lookup_weaken _ _ _ _ Hlabels Hsub) as Hlab.
  pose proof (lookup_weaken _ _ _ _ Hx Hsub) as Hxh.
  assert (x ≠ cl) as Hxcl by congruence.
  cbn [Heap.pass1_loop].
  rewrite (bind_returns _ _ _ _ _ (getitem_eq _ _ _ _ _ Hlab Hi)).
  rewrite (bind_returns _ _ _ _ _ (read_dict_eq _ _ _ Hxh)).
  rewrite (bind_returns _ _ _ _ _ (read_dict_eq _ _ _ Hc)).
  unfold pass1_body.
  destruct (convert_htk_time_to_seconds (start nd - end_ c)) as [gap|];
    cbn [mbind option_bind].
  2: { exists h. by apply bind_raises. }
  rewrite (bind_returns _ _ h gap h) by reflexivity.
  destruct (SFleb gap max_gap_seconds && _).
  - rewrite (bind_returns _ _ _ _ _ (setitem_end_eq _ _ _ (end_ nd) Hc)).
    pose proof (pass1_rel_write _ _ _ _ _ (set_end c (end_ nd)) Hrel) as Hrel1.
    destruct (String.eqb g silence && _); cbn [when].
    + pose proof Hrel1 as (_ & _ & _ & Hc1 & _).
      rewrite (bind_returns _ _ _ _ _ (setitem_phoneme_eq _ _ _ SP Hc1)).
      eexists cl, _. split; [|reflexivity].
      eapply pass1_rel_write. exact Hrel1.
    + rewrite (bind_returns _ _ _ tt _ eq_refl). by eexists cl, _.
  - unfold relabel_silence.
    assert (∃ h1, pass1_rel h0 h1 ml cl m
                    (if String.eqb g silence then set_phoneme c SP else c) ∧
                  h1 !! x = Some (Dict nd) ∧
                  when (String.eqb g silence) (setitem_phoneme cl SP) h
                  = (Returns (), h1)) as (h1 & Hrel1 & Hx1 & Hwhen).
    { destruct (String.eqb g silence); cbn [when].
      - eexists. split; [eapply pass1_rel_write; exact Hrel|].
        split; [|by apply setitem_phoneme_eq]. by rewrite lookup_insert_ne.
      - by exists h. }
    rewrite (bind_returns _ _ _ _ _ Hwhen).
    destruct (pass1_rel_append_copy _ _ _ _ _ nd Hrel1) as (ms1 & Hms1 & Hrel2).
    rewrite (bind_returns _ _ _ _ _ (append_eq _ _ _ cl Hms1)).
    assert (x ≠ ml) as Hxml by congruence.
    rewrite (bind_returns _ _ _ _ _ (dict_copy_eq _ x nd
               ltac:(by rewrite lookup_insert_ne))).
    by eexists _, _.
Qed.

(** The loop on the heap is the loop on the lists. *)
Lemma pass1_loop_refines rest k h ml cl m c g :
  (∀ j d, rest !! j = Some d →
          ∃ x, items !! (k + j)%nat = Some x ∧ h0 !! x = Some (Dict d)) →
  pass1_rel h0 h ml cl m c →
  match list_pass1_loop max_gap_seconds rest (m, c, g) with
  | Some (m', c', g') =>
      ∃ cl' h', pass1_rel h0 h' ml cl' m' c' ∧
        Heap.pass1_loop max_gap_seconds labels ml (seq k (length rest)) cl g h
        = (Returns (cl', g'), h')
  | None =>
      ∃ h', Heap.pass1_loop max_gap_seconds labels ml (seq k (length rest)) cl g h
            = (Raises OverflowError, h')
  end.
Proof.
  revert k h cl m c g.
  induction rest as [|nd rest IH]; intros k h cl m c g Hrest Hrel.
  - by exists cl, h.
  - destruct (Hrest O nd eq_refl) as (x & Hi & Hx).
    rewrite Nat.add_0_r in Hi. cbn [length seq]. rewrite pass1_loop_cons.
    pose proof (pass1_iteration_refines h ml cl m c g k
                  (seq (S k) (length rest)) x nd Hrel Hi Hx) as Hstep.
    destruct (pass1_body max_gap_seconds (m, c, g) nd) as [[[m1 c1] g1]|];
      cbn [mbind option_bind]; [|exact Hstep].
    destruct Hstep as (cl1 & h1 & Hrel1 & ->).
    apply IH; [|done]. intros j d Hj.
    destruct (Hrest (S j) d Hj) as (y & Hy & Hyd).
    exists y. split; [|done]. by replace (S k + j)%nat with (k + S j)%nat by lia.
Qed.

(** The relabelling that closes a segment. *)
Lemma pass1_relabel_refines h ml cl m c g :
  pass1_rel h0 h ml cl m c →
  ∃ h1, when (String.eqb g silence) (setitem_phoneme cl SP) h = (Returns (), h1) ∧
        pass1_rel h0 h1 ml cl m (relabel_silence g c).
Proof.
  intros Hrel. unfold relabel_silence.
  destruct (String.eqb g silence); cbn [when]; [|by exists h].
  pose proof Hrel as (_ & _ & _ & Hc & _).
  eexists. split; [by apply setitem_phoneme_eq|].
  eapply pass1_rel_write. exact Hrel.
Qed.

End Pass1Refine.

Section Pass2Refine.

(** The store pass 1 has left, with the list [merged]. *)
Variables (h1 : heap) (ml : positive) (ms : list positive) (m1 : list label).
Hypothesis Hml : h1 !! ml = Some (PyList ms).
Hypothesis Hms : holds h1 ms m1.

Lemma merged_lookup (h : heap) j :
  h1 ⊆ h →
  match m1 !! j with
  | Some d => ∃ x, ms !! j = Some x ∧ h !! x = Some (Dict d) ∧ (j < length ms)%nat
  | None => (length ms ≤ j)%nat
  end.
Proof.
  intros Hsub. pose proof (Forall2_length _ _ _ Hms) as Hlen.
  destruct (m1 !! j) as [d|] eqn:Hj.
  - destruct (Forall2_lookup_r _ _ _ _ _ Hms Hj) as (x & Hx & Hd).
    exists x. split; [done|]. split; [by eapply lookup_weaken|].
    by apply lookup_lt_Some in Hx.
  - apply lookup_ge_None in Hj. lia.
Qed.

(** The inner loop on the heap is the inner loop on the lists; all it
    writes is the end of [current_label]. *)
Lemma pass2_inner_refines fuel h cl c j :
  h1 ⊆ h → h1 !! cl = None → h !! cl = Some (Dict c) →
  match list_pass2_inner fuel m1 c j with
  | Some (c', j') =>
      Heap.pass2_inner fuel ml cl j h = (Returns j', <[cl:=Dict c']> h)
  | None => ∃ h', Heap.pass2_inner fuel ml cl j h = (OutOfFuel, h')
  end.
Proof.
  intros Hsub Hfresh. revert h c j Hsub.
  induction fuel as [|fuel IH]; intros h c j Hsub Hc; [by exists h|].
  cbn [Heap.pass2_inner]. rewrite pass2_inner_S.
  pose proof (lookup_weaken _ _ _ _ Hml Hsub) as Hmlh.
  rewrite (bind_returns _ _ _ _ _ (len_eq _ _ _ Hmlh)).
  pose proof (merged_lookup h j Hsub) as Hj.
  destruct (m1 !! j) as [d|].
  - destruct Hj as (x & Hx & Hd & Hlt).
    rewrite bool_decide_eq_true_2 by done.
    rewrite (bind_returns _ _ _ _ _ (getitem_eq _ _ _ _ _ Hmlh Hx)).
    rewrite (bind_returns _ _ _ _ _ (read_dict_eq _ _ _ Hd)).
    destruct (String.eqb (phoneme d) SP).
    + rewrite (bind_returns _ _ _ _ _ (setitem_end_eq _ _ _ (end_ d) Hc)).
      assert (h1 ⊆ <[cl:=Dict (set_end c (end_ d))]> h) as Hsub'
        by (by apply insert_subseteq_r).
      specialize (IH _ (set_end c (end_ d)) (j + 1)%nat Hsub'
                    ltac:(by rewrite lookup_insert_eq)).
      destruct (list_pass2_inner fuel m1 (set_end c (end_ d)) (j + 1))
        as [[c' j']|]; [|exact IH].
      by rewrite IH, insert_insert_eq.
    + unfold ret. by rewrite insert_id.
  - rewrite bool_decide_eq_false_2 by lia. unfold ret. by rewrite insert_id.
Qed.

(** Appending a new segment to [final_merged] keeps the relation. *)
Lemma pass2_rel_append h fl f c :
  pass2_rel h1 h fl f →
  ∃ fs, h !! fl = Some (PyList fs) ∧
    pass2_rel h1
      (<[fl:=PyList (fs ++ [fresh (dom h)])]> (<[fresh (dom h):=Dict c]> h))
      fl (f ++ [c]).
Proof.
  intros (Hsub & Hfl & fs & Hfs & Hf).
  pose proof (fresh_lookup h) as Hfresh. set (cl := fresh (dom h)) in *.
  assert (cl ≠ fl) as Hne by congruence.
  exists fs. split; [done|].
  split; [apply insert_subseteq_r; [done|];
          apply insert_subseteq_r; [by eapply lookup_weaken_None|done]|].
  split; [done|].
  exists (fs ++ [cl]). split; [by rewrite lookup_insert_eq|].
  apply holds_snoc.
  - apply holds_insert; [|by eapply holds_not_list].
    apply holds_insert; [done|]. by eapply holds_fresh.
  - by rewrite lookup_insert_ne, lookup_insert_eq.
Qed.

(** The outer loop on the heap is the outer loop on the lists. *)
Lemma pass2_outer_refines fuel h fl f i :
  pass2_rel h1 h fl f →
  match list_pass2_outer fuel m1 f i with
  | Some out =>
      ∃ h', Heap.pass2_outer fuel ml fl i h = (Returns (), h') ∧
            pass2_rel h1 h' fl out
  | None => ∃ h', Heap.pass2_outer fuel ml fl i h = (OutOfFuel, h')
  end.
Proof.
  revert h f i. induction fuel as [|fuel IH]; intros h f i Hrel; [by exists h|].
  pose proof Hrel as (Hsub & Hfl & fs & Hfs & Hf).
  cbn [Heap.pass2_outer]. rewrite pass2_outer_S.
  pose proof (lookup_weaken _ _ _ _ Hml Hsub) as Hmlh.
  rewrite (bind_returns _ _ _ _ _ (len_eq _ _ _ Hmlh)).
  pose proof (merged_lookup h i Hsub) as Hi.
  destruct (m1 !! i) as [d|].
  2: { rewrite bool_decide_eq_false_2 by lia. by exists h. }
  destruct Hi as (x & Hx & Hd & Hlt).
  rewrite bool_decide_eq_true_2 by done.
  rewrite (bind_returns _ _ _ _ _ (getitem_eq _ _ _ _ _ Hmlh Hx)).
  rewrite (bind_returns _ _ _ _ _ (dict_copy_eq _ _ _ Hd)).
  pose proof (fresh_lookup h) as Hfresh. set (cl := fresh (dom h)) in *.
  assert (cl ≠ fl) as Hne by congruence.
  assert (h1 !! cl = None) as Hcl1 by (by eapply lookup_weaken_None).
  set (h2 := <[cl:=Dict d]> h).
  assert (h2 !! cl = Some (Dict d)) as Hcl2 by (subst h2; by rewrite lookup_insert_eq).
  assert (h1 ⊆ h2) as Hsub2 by (subst h2; by apply insert_subseteq_r).
  rewrite (bind_returns _ _ _ _ _ (read_dict_eq _ _ _ Hcl2)).
  destruct (String.eqb (phoneme d) SP).
  - pose proof (pass2_inner_refines (length ms) h2 cl d (i + 1) Hsub2 Hcl1 Hcl2)
      as Hinner.
    rewrite <- (Forall2_length _ _ _ Hms).
    destruct (list_pass2_inner (length ms) m1 d (i + 1)) as [[c' j']|];
      cbn [mbind option_bind fst snd].
    2: { destruct Hinner as [h' Hinner]. exists h'. by apply bind_out_of_fuel. }
    rewrite (bind_returns _ _ _ _ _ Hinner).
    subst h2. rewrite insert_insert_eq.
    destruct (pass2_rel_append h fl f c' Hrel) as (fs' & Hfs' & Hrel').
    fold cl in Hrel'.
    rewrite (bind_returns _ _ _ _ _
               (append_eq _ fl fs' cl ltac:(by rewrite lookup_insert_ne))).
    by apply IH.
  - destruct (pass2_rel_append h fl f d Hrel) as (fs' & Hfs' & Hrel').
    fold cl in Hrel'. subst h2.
    rewrite (bind_returns _ _ _ _ _
               (append_eq _ fl fs' cl ltac:(by rewrite lookup_insert_ne))).
    by apply IH.
Qed.

End Pass2Refine.

(** On a store that holds the segment list [ds] at [labels], the merger on
    the heap does what the merger on lists does with [ds]: it returns a
    list object that holds the same segments, or raises the same exception;
    and the store it leaves extends the store it found. *)
Lemma merge_labels_refines (h : heap) labels items ds max_gap_seconds :
  h !! labels = Some (PyList items) → holds h items ds →
  match list_merge_labels ds max_gap_seconds with
  | Returns out =>
      ∃ result h', Heap.merge_labels labels max_gap_seconds h = (Returns result, h')
                   ∧ h ⊆ h' ∧ deref_list h' result = Some out
  | Raises e => ∃ h', Heap.merge_labels labels max_gap_seconds h = (Raises e, h')
  | OutOfFuel => ∃ h', Heap.merge_labels labels max_gap_seconds h = (OutOfFuel, h')
  end.
Proof.
  intros Hlabels Hitems. unfold Heap.merge_labels.
  rewrite (bind_returns _ _ _ _ _ (len_eq _ _ _ Hlabels)).
  destruct Hitems as [|x0 d0 items rest Hx0 Hrest].
  { exists labels, h. split; [reflexivity|]. split; [done|].
    eapply deref_list_holds; [done|constructor]. }
  rewrite bool_decide_eq_false_2 by done.
  (* merged = [] *)
  set (ml := fresh (dom h)). set (ha := <[ml:=PyList []]> h).
  rewrite (bind_returns _ _ h ml ha) by reflexivity.
  pose proof (fresh_lookup h) as Hml. fold ml in Hml.
  assert (h ⊆ ha) as Hsuba by (by apply insert_subseteq_r).
  pose proof (lookup_weaken _ _ _ _ Hlabels Hsuba) as Hlaba.
  rewrite (bind_returns _ _ _ _ _ (getitem_eq _ _ _ 0 x0 Hlaba eq_refl)).
  (* current_label = labels[0].copy() *)
  rewrite (bind_returns _ _ _ _ _
             (dict_copy_eq _ _ _ (lookup_weaken _ _ _ _ Hx0 Hsuba))).
  pose proof (fresh_lookup ha) as Hcl. set (cl := fresh (dom ha)) in *.
  set (hb := <[cl:=Dict d0]> ha).
  assert (hb !! cl = Some (Dict d0)) as Hclb by (subst hb; by rewrite lookup_insert_eq).
  rewrite (bind_returns _ _ _ _ _ (read_dict_eq _ _ _ Hclb)).
  assert (cl ≠ ml) as Hne by (intros ->; subst ha; by rewrite lookup_insert_eq in Hcl).
  assert (h !! cl = None) as Hcl0 by (by eapply lookup_weaken_None).
  assert (pass1_rel h hb ml cl [] d0) as Hrel.
  { split; [subst hb; by apply insert_subseteq_r|]. split; [done|].
    split; [done|]. split; [done|].
    exists []. split; [subst hb ha; by rewrite lookup_insert_ne, lookup_insert_eq|].
    split; [constructor|apply not_elem_of_nil]. }
  (* pass 1 *)
  pose proof (pass1_loop_refines h labels (x0 :: items) max_gap_seconds Hlabels
                rest 1 hb ml cl [] d0 (get_phoneme_group (phoneme d0))) as Hloop.
  replace (length (x0 :: items) - 1)%nat with (length rest)
    by (cbn [length]; rewrite (Forall2_length _ _ _ Hrest); lia).
  rewrite merge_labels_eq, pass1_eq.
  destruct (list_pass1_loop max_gap_seconds rest _) as [[[m c] g]|];
    cbn [fmap option_fmap option_map pass1_finish].
  2: { destruct Hloop as [h' Hloop]; [|done|].
       - intros j d Hj. destruct (Forall2_lookup_r _ _ _ _ _ Hrest Hj) as (x & ? & ?).
         by exists x.
       - exists h'. by apply bind_raises. }
  destruct Hloop as (cl' & h' & Hrel' & Hloop); [|done|].
  { intros j d Hj. destruct (Forall2_lookup_r _ _ _ _ _ Hrest Hj) as (x & ? & ?).
    by exists x. }
  rewrite (bind_returns _ _ _ _ _ Hloop). cbv beta iota.
  (* the last segment *)
  destruct (pass1_relabel_refines h h' ml cl' m c g Hrel') as (h2 & Hwhen & Hrel2).
  rewrite (bind_returns _ _ _ _ _ Hwhen).
  destruct Hrel2 as (Hsub2 & Hml2 & Hcl2 & Hc2 & ms & Hms & Hm & Hnin).
  rewrite (bind_returns _ _ _ _ _ (append_eq _ _ _ cl' Hms)).
  set (h3 := <[ml:=PyList (ms ++ [cl'])]> h2).
  assert (cl' ≠ ml) as Hne' by congruence.
  assert (h3 !! ml = Some (PyList (ms ++ [cl']))) as Hml3
    by (subst h3; by rewrite lookup_insert_eq).
  assert (holds h3 (ms ++ [cl']) (m ++ [relabel_silence g c])) as Hm3.
  { apply holds_snoc; [|subst h3; by rewrite lookup_insert_ne].
    subst h3. apply holds_insert; [done|]. by eapply holds_not_list. }
  assert (h ⊆ h3) as Hsub3 by (subst h3; by apply insert_subseteq_r).
  (* final_merged = [] *)
  set (fl := fresh (dom h3)). set (h4 := <[fl:=PyList []]> h3).
  rewrite (bind_returns _ _ h3 fl h4) by reflexivity.
  pose proof (fresh_lookup h3) as Hfl. fold fl in Hfl.
  assert (h3 ⊆ h4) as Hsub4 by (by apply insert_subseteq_r).
  rewrite (bind_returns _ _ _ _ _ (len_eq _ _ _ (lookup_weaken _ _ _ _ Hml3 Hsub4))).
  assert (pass2_rel h3 h4 fl []) as Hrel4.
  { split; [done|]. split; [done|]. exists [].
    split; [subst h4; by rewrite lookup_insert_eq|constructor]. }
  (* pass 2 *)
  pose proof (pass2_outer_refines h3 ml (ms ++ [cl']) (m ++ [relabel_silence g c])
                Hml3 Hm3 (S (length (ms ++ [cl']))) h4 fl [] 0 Hrel4) as Hp2.
  rewrite pass2_outer_spec in Hp2
    by (rewrite (Forall2_length _ _ _ Hm3); lia).
  destruct Hp2 as (h5 & Hp2 & Hsub5 & _ & fs & Hfs & Hf).
  rewrite (bind_returns _ _ _ _ _ Hp2).
  exists fl, h5. split; [reflexivity|].
  split; [by do 2 (etrans; [|done])|]. by eapply deref_list_holds.
Qed.

End HeapRefine.

(** C9: a call of [merge_labels], whether it returns or raises, leaves
    every object of the store it was called in as it was: the argument list
    holds the same references, and every segment in it the same start, end
    and phoneme.  All the call writes to are objects it has made itself;
    the list it returns is one of them, or the argument itself when that is
    empty.  What it returns holds the segments that the merger on lists
    computes, so the extensions and relabellings have taken place, on the
    copies. *)
Theorem merge_labels_keeps_input (labels : positive) (max_gap_seconds : spec_float)
    (h : gmap positive Heap.obj) :
  let r := Heap.merge_labels labels max_gap_seconds h in
  (∀ l o, h !! l = Some o → r.2 !! l = Some o) ∧
  (∀ ds, Heap.deref_list h labels = Some ds → Heap.deref_list r.2 labels = Some ds) ∧
  (∀ result, r.1 = Returns result → result = labels ∨ h !! result = None) ∧
  (∀ items ds,
     h !! labels = Some (Heap.PyList items) → holds h items ds →
     match merge_labels ds max_gap_seconds with
     | Returns out =>
         ∃ result, r.1 = Returns result ∧ Heap.deref_list r.2 result = Some out
     | Raises e => r.1 = Raises e
     | OutOfFuel => r.1 = OutOfFuel
     end).
Proof.
  intros r.
  destruct (HeapFacts.keeps_merge_labels h labels max_gap_seconds h) as [Hsub Hres];
    [done|].
  fold r in Hsub, Hres. split; [|split; [|split]].
  - intros l o Hl. by eapply lookup_weaken.
  - intros ds. by apply HeapFacts.deref_list_weaken.
  - intros result Hr. by rewrite Hr in Hres.
  - intros items ds Hlabels Hitems.
    pose proof (HeapRefine.merge_labels_refines h labels items ds max_gap_seconds
                  Hlabels Hitems) as Href.
    fold r in Href.
    destruct (merge_labels ds max_gap_seconds) as [out|e|].
    + destruct Href as (result & h' & Hr & _ & Hout). exists result.
      by rewrite Hr.
    + destruct Href as (h' & Hr). by rewrite Hr.
    + destruct Href as (h' & Hr). by rewrite Hr.
Qed.

Lemma merge_labels_keeps_input_witness :
  let ds := [Label 0 100000 "pau"; Label 100000 200000 "sil"; Label 200000 300000 "a"] in
  let '(h, labels) := Heap.store_of ds in
  Heap.deref_list (Heap.merge_labels labels float_0_1 h).2 labels = Some ds.
Proof.
  apply (proj1 (proj2 (merge_labels_keeps_input _ _ _))).
  vm_compute. reflexivity.
Defined.

(** * Further properties *)

(** ** The classifier as a table *)

Lemma lower_char_idempotent (c : ascii) :
  Str.lower_char (Str.lower_char c) = Str.lower_char c.
Proof. destruct c as [[] [] [] [] [] [] [] []]; reflexivity. Qed.

Lemma lower_idempotent (t : string) : Str.lower (Str.lower t) = Str.lower t.
Proof.
  induction t as [|c t IH]; [reflexivity|]. simpl.
  by rewrite lower_char_idempotent, IH.
Qed.

Lemma scan_groups_None (items : list (string * list string)) (p : string) :
  Forall (λ item, p ∉ item.2) items → scan_groups items p = None.
Proof.
  induction 1 as [|[g ms] items Hp _ IH]; [reflexivity|].
  cbn [scan_groups]. by rewrite bool_decide_eq_false_2.
Qed.

Lemma scan_groups_Some_name (items : list (string * list string)) (p g : string) :
  scan_groups items p = Some g → g ∈ items.*1.
Proof.
  induction items as [|[g' ms] items IH]; [discriminate|].
  cbn [scan_groups]. case_bool_decide.
  - intros [= ->]. apply list_elem_of_here.
  - intros H'. apply list_elem_of_further. by apply IH.
Qed.

Lemma elem_of_concat_intro (x : string) (ms : list string) (ls : list (list string)) :
  x ∈ ms → ms ∈ ls → x ∈ concat ls.
Proof.
  intros Hx Hms. induction ls as [|m ls IH]; [by apply elem_of_nil in Hms|].
  cbn [concat]. apply elem_of_app.
  apply elem_of_cons in Hms as [->|Hms]; [by left|right; by apply IH].
Qed.

(** Every token of the table that is a lowercased token gets, from the
    classifier, the group that the effective table gives it. *)
Lemma get_phoneme_group_effective_lower (t : string) :
  get_phoneme_group t
  = default "unknown"%string (scan_groups EFFECTIVE_GROUPS (Str.lower t)).
Proof.
  rewrite get_phoneme_group_lower. cbv zeta.
  pose proof (lower_neq_N t) as HN. pose proof (lower_neq_SP t) as HSP.
  generalize dependent (Str.lower t). intros p HN HSP.
  destruct (decide (p ∈ concat (PHONEME_GROUPS.*2))) as [Hin|Hout].
  - cbn in Hin.
    repeat (apply elem_of_cons in Hin as [->|Hin];
            [first [done | vm_compute; reflexivity]|]).
    by apply elem_of_nil in Hin.
  - assert (∀ items : list (string * list string),
              concat (items.*2) ⊆ concat (PHONEME_GROUPS.*2) →
              scan_groups items p = None) as Hnone.
    { intros items Hsub. apply scan_groups_None, Forall_forall.
      intros [g ms] Hitem Hp. apply Hout, Hsub.
      apply (elem_of_concat_intro p ms); [done|].
      apply list_elem_of_fmap. by exists (g, ms). }
    rewrite bool_decide_eq_false_2.
    + rewrite !Hnone; [done| |done].
      intros x Hx. cbn in Hx. cbn.
      repeat (apply elem_of_cons in Hx as [->|Hx];
              [apply (bool_decide_unpack _); vm_compute; exact I|]).
      by apply elem_of_nil in Hx.
    + intros Hp. apply Hout.
      repeat (apply elem_of_cons in Hp as [->|Hp];
              [apply (bool_decide_unpack _); vm_compute; exact I|]).
      by apply elem_of_nil in Hp.
Qed.

(** X1: the classifier is the first-match scan of the effective table, in
    which every token stands under one group only: the silence test put
    first, the capitalised entries and the entries that an earlier group
    takes change nothing else. *)
Theorem get_phoneme_group_effective :
  (∀ t : string,
     get_phoneme_group t
     = default "unknown"%string (scan_groups EFFECTIVE_GROUPS (Str.lower t))) ∧
  NoDup (concat (EFFECTIVE_GROUPS.*2)).
Proof.
  split; [exact get_phoneme_group_effective_lower|].
  apply (bool_decide_unpack _). vm_compute. exact I.
Qed.

Lemma scan_effective_nasals (p : string) :
  scan_groups EFFECTIVE_GROUPS p = Some "nasals"%string ↔ p = "ng"%string.
Proof.
  split; [|intros ->; reflexivity].
  unfold EFFECTIVE_GROUPS. cbn [scan_groups].
  repeat (case_bool_decide; [discriminate|]).
  case_bool_decide as Hng; [intros _; by apply list_elem_of_singleton in Hng|].
  repeat (case_bool_decide; [discriminate|]). discriminate.
Qed.

Lemma scan_effective_fricatives (p : string) :
  scan_groups EFFECTIVE_GROUPS p = Some "fricatives"%string ↔
  p = "th"%string ∨ p = "dh"%string.
Proof.
  split; [|intros [-> | ->]; reflexivity].
  unfold EFFECTIVE_GROUPS. cbn [scan_groups].
  repeat (case_bool_decide; [discriminate|]).
  case_bool_decide as Hfr.
  - intros _. apply elem_of_cons in Hfr as [->|Hfr]; [by left|].
    apply list_elem_of_singleton in Hfr. by right.
  - repeat (case_bool_decide; [discriminate|]). discriminate.
Qed.

(** X2: the classifier returns one of eight names.  It never returns
    [liquids] or [stops], whose tokens are all consonants before; it returns
    [nasals] for [ng] only, and [fricatives] for [th] and [dh] only. *)
Theorem get_phoneme_group_range (t : string) :
  get_phoneme_group t ∈ ["sibilants"; "vowels"; "consonants"; "nasals";
                         "fricatives"; "silence"; "special"; "unknown"]%string ∧
  get_phoneme_group t ≠ "liquids"%string ∧
  get_phoneme_group t ≠ "stops"%string ∧
  (get_phoneme_group t = "nasals"%string ↔ Str.lower t = "ng"%string) ∧
  (get_phoneme_group t = "fricatives"%string ↔
   Str.lower t = "th"%string ∨ Str.lower t = "dh"%string).
Proof.
  rewrite get_phoneme_group_effective_lower.
  pose proof (scan_effective_nasals (Str.lower t)) as Hn.
  pose proof (scan_effective_fricatives (Str.lower t)) as Hf.
  destruct (scan_groups EFFECTIVE_GROUPS (Str.lower t)) as [g|] eqn:Hscan;
    cbn [default]; unfold id.
  - apply scan_groups_Some_name in Hscan. cbn in Hscan.
    split; [|split; [|split; [|split]]].
    + repeat (apply elem_of_cons in Hscan as [->|Hscan];
              [apply (bool_decide_unpack _); vm_compute; exact I|]).
      by apply elem_of_nil in Hscan.
    + intros ->.
      repeat (apply elem_of_cons in Hscan as [[=]|Hscan]).
      by apply elem_of_nil in Hscan.
    + intros ->.
      repeat (apply elem_of_cons in Hscan as [[=]|Hscan]).
      by apply elem_of_nil in Hscan.
    + rewrite <- Hn. split; congruence.
    + rewrite <- Hf. split; congruence.
  - split; [apply (bool_decide_unpack _); vm_compute; exact I|].
    split; [discriminate|]. split; [discriminate|].
    split; (split; [discriminate|]); intros H.
    + apply Hn in H. discriminate.
    + apply Hf in H. discriminate.
Qed.

(** X3: the classifier ignores case: two tokens with the same lowercased
    form have the same group, and so have a token and its lowercased form. *)
Theorem get_phoneme_group_case_insensitive :
  (∀ t t' : string, Str.lower t = Str.lower t' →
     get_phoneme_group t = get_phoneme_group t') ∧
  (∀ t : string, get_phoneme_group (Str.lower t) = get_phoneme_group t).
Proof.
  split.
  - intros t t' H. by rewrite !get_phoneme_group_lower, H.
  - intros t. by rewrite !get_phoneme_group_lower, lower_idempotent.
Qed.

Lemma get_phoneme_group_case_insensitive_witness :
  get_phoneme_group "Sh" = get_phoneme_group "sH".
Proof.
  apply (proj1 get_phoneme_group_case_insensitive). reflexivity.
Defined.

(** ** What the merger keeps of its input *)

Section Marks.

Variable max_gap_seconds : spec_float.

Lemma marks_app l1 l2 : marks (l1 ++ l2) = marks l1 ++ marks l2.
Proof. unfold marks. apply flat_map_app. Qed.

Lemma marks_length l : length (marks l) = (2 * length l)%nat.
Proof. induction l as [|a l IH]; simpl; lia. Qed.

Lemma marks_relabel g c : marks [relabel_silence g c] = marks [c].
Proof. unfold relabel_silence. by destruct (String.eqb g silence). Qed.

(** An iteration of pass 1 drops time marks, or none: it adds none and
    moves none. *)
Lemma pass1_body_marks st next_label st' :
  pass1_body max_gap_seconds st next_label = Some st' →
  marks (pass1_finish st') `sublist_of` marks (pass1_finish st) ++ marks [next_label].
Proof.
  destruct st as [[m c] g]. rewrite pass1_body_eq.
  destruct (convert_htk_time_to_seconds _) as [gap|]; [|discriminate].
  cbn [mbind option_bind].
  destruct (String.eqb g _ && SFleb gap max_gap_seconds);
    intros [= <-]; cbn [pass1_finish]; rewrite !marks_app, !marks_relabel.
  - rewrite <- app_assoc. apply sublist_app; [done|]. cbn.
    apply sublist_skip, sublist_cons, sublist_cons, sublist_skip. done.
  - by rewrite <- app_assoc.
Qed.

Lemma pass1_loop_marks rest st st' :
  pass1_loop max_gap_seconds rest st = Some st' →
  marks (pass1_finish st') `sublist_of` marks (pass1_finish st) ++ marks rest.
Proof.
  revert st. induction rest as [|next_label rest IH]; intros st.
  - intros [= <-]. by rewrite app_nil_r.
  - rewrite pass1_loop_cons.
    destruct (pass1_body max_gap_seconds st next_label) as [st1|] eqn:Hb;
      [|discriminate].
    cbn [mbind option_bind]. intros Hl.
    etrans; [by apply IH|].
    change (next_label :: rest) with ([next_label] ++ rest).
    rewrite marks_app, app_assoc. apply sublist_app; [|done].
    by apply pass1_body_marks.
Qed.

Lemma pass1_marks first rest merged :
  pass1 first rest max_gap_seconds = Some merged →
  marks merged `sublist_of` marks (first :: rest).
Proof.
  rewrite pass1_eq.
  destruct (pass1_loop max_gap_seconds rest _) as [st'|] eqn:Hl; [|discriminate].
  intros [= <-]. apply pass1_loop_marks in Hl. cbn [pass1_finish app] in Hl.
  by rewrite marks_relabel in Hl.
Qed.

(** Pass 2 likewise. *)
Lemma coalesce_SP_marks l : marks (coalesce_SP l) `sublist_of` marks l.
Proof.
  induction l as [|m rest IH]; [done|].
  destruct rest as [|r rest]; [by rewrite coalesce_SP_singleton|].
  rewrite coalesce_SP_cons_cons.
  destruct (is_SP m); [|by apply sublist_skip, sublist_skip].
  destruct (is_SP r); [|by apply sublist_skip, sublist_skip].
  destruct (coalesce_SP (r :: rest)) as [|y ys].
  - cbn. apply sublist_skip, sublist_skip, sublist_nil_l.
  - cbn in *. apply sublist_skip, sublist_cons.
    etrans; [|exact IH]. by apply sublist_cons.
Qed.

Lemma merge_labels_marks labels out :
  merge_labels labels max_gap_seconds = Returns out →
  marks out `sublist_of` marks labels.
Proof.
  rewrite merge_labels_eq. destruct labels as [|first rest]; [by intros [= <-]|].
  destruct (pass1 first rest max_gap_seconds) as [merged|] eqn:Hp; [|discriminate].
  intros [= <-]. etrans; [apply coalesce_SP_marks|by apply pass1_marks].
Qed.

Lemma StronglySorted_sublist (l1 l2 : list Z) :
  l1 `sublist_of` l2 → StronglySorted Z.le l2 → StronglySorted Z.le l1.
Proof.
  induction 1 as [|x l1 l2 Hsub IH|x l1 l2 Hsub IH]; [done| |].
  - intros [Hx Hl2]%StronglySorted_cons. apply StronglySorted_cons.
    split; [|by apply IH]. rewrite Forall_forall in *. intros y Hy.
    apply Hx. by eapply elem_of_sublist.
  - intros [_ Hl2]%StronglySorted_cons. by apply IH.
Qed.

(** The output of pass 1 is never empty. *)
Lemma pass1_nonempty first rest merged :
  pass1 first rest max_gap_seconds = Some merged → merged ≠ [].
Proof.
  rewrite pass1_eq.
  destruct (pass1_loop max_gap_seconds rest _) as [[[m c] g]|]; [|discriminate].
  intros [= <-]. cbn [pass1_finish]. by destruct m.
Qed.

Lemma coalesce_SP_nonempty l : l ≠ [] → coalesce_SP l ≠ [].
Proof.
  intros Hl Hc. pose proof (coalesce_SP_head l) as Hh. rewrite Hc in Hh.
  by destruct l.
Qed.

End Marks.

Section Kept.

Variable max_gap_seconds : spec_float.

(** The first start and the last end. *)
Lemma pass1_body_head_start st next_label st' :
  pass1_body max_gap_seconds st next_label = Some st' →
  start <$> head (pass1_finish st') = start <$> head (pass1_finish st).
Proof.
  destruct st as [[m c] g]. rewrite pass1_body_eq.
  destruct (convert_htk_time_to_seconds _) as [gap|]; [|discriminate].
  cbn [mbind option_bind].
  destruct (String.eqb g _ && SFleb gap max_gap_seconds);
    intros [= <-]; cbn [pass1_finish].
  - destruct m; [|reflexivity]. cbn. by rewrite !relabel_silence_start.
  - by destruct m.
Qed.

Lemma pass1_head_start first rest merged :
  pass1 first rest max_gap_seconds = Some merged →
  start <$> head merged = Some (start first).
Proof.
  rewrite pass1_eq.
  assert (∀ l st st', pass1_loop max_gap_seconds l st = Some st' →
            start <$> head (pass1_finish st') = start <$> head (pass1_finish st))
    as Hloop.
  { intros l. induction l as [|x l IH]; intros st st'; [by intros [= <-]|].
    rewrite pass1_loop_cons.
    destruct (pass1_body max_gap_seconds st x) as [st1|] eqn:Hb; [|discriminate].
    cbn [mbind option_bind]. intros Hl.
    rewrite (IH _ _ Hl). by eapply pass1_body_head_start. }
  destruct (pass1_loop max_gap_seconds rest _) as [st'|] eqn:Hl; [|discriminate].
  intros [= <-]. rewrite (Hloop _ _ _ Hl). cbn.
  by rewrite relabel_silence_start.
Qed.

Lemma pass1_last_end first rest merged :
  pass1 first rest max_gap_seconds = Some merged →
  end_ <$> last merged = Some (end_ (default first (last rest))).
Proof.
  rewrite pass1_eq.
  destruct (pass1_loop max_gap_seconds rest _) as [[[m c] g]|] eqn:Hl;
    [|discriminate].
  intros [= <-]. cbn [pass1_finish]. rewrite last_snoc. cbn.
  rewrite relabel_silence_end. f_equal.
  destruct rest as [|x rest _] using rev_ind.
  - by injection Hl as _ <- _.
  - rewrite last_snoc. cbn. by apply pass1_loop_tracks in Hl as [-> _].
Qed.

Lemma coalesce_SP_head_start l :
  start <$> head (coalesce_SP l) = start <$> head l.
Proof.
  destruct l as [|m [|r rest]]; [reflexivity| |].
  - by rewrite coalesce_SP_singleton.
  - rewrite coalesce_SP_cons_cons. destruct (is_SP m); [|reflexivity].
    destruct (is_SP r); [|reflexivity].
    by destruct (coalesce_SP (r :: rest)).
Qed.

Lemma coalesce_SP_last_end l :
  end_ <$> last (coalesce_SP l) = end_ <$> last l.
Proof.
  induction l as [|m rest IH]; [reflexivity|].
  destruct rest as [|r rest]; [by rewrite coalesce_SP_singleton|].
  rewrite coalesce_SP_cons_cons, (last_cons_cons m r rest).
  pose proof (coalesce_SP_nonempty (r :: rest) ltac:(done)) as Hne.
  destruct (is_SP m).
  - destruct (is_SP r).
    + destruct (coalesce_SP (r :: rest)) as [|y [|z ys]]; [done| |].
      * by rewrite <- IH.
      * rewrite <- IH. by rewrite !last_cons_cons.
    + destruct (coalesce_SP (r :: rest)) as [|y ys]; [done|].
      by rewrite last_cons_cons.
  - destruct (coalesce_SP (r :: rest)) as [|y ys]; [done|].
    by rewrite last_cons_cons.
Qed.

(** Phonemes: a property of phonemes that [SP] has and that every input
    phoneme has, every output phoneme has. *)
Section Phonemes.

Variable Q : string → Prop.
Hypothesis Q_SP : Q SP.

Lemma relabel_silence_Q g c : Q (phoneme c) → Q (phoneme (relabel_silence g c)).
Proof. unfold relabel_silence. by destruct (String.eqb g silence). Qed.

Lemma pass1_loop_phonemes rest m c g st' :
  pass1_loop max_gap_seconds rest (m, c, g) = Some st' →
  Forall (λ x, Q (phoneme x)) m → Q (phoneme c) →
  Forall (λ x, Q (phoneme x)) rest →
  Forall (λ x, Q (phoneme x)) (pass1_finish st').
Proof.
  revert m c g. induction rest as [|x rest IH]; intros m c g.
  - intros [= <-] Hm Hc _. apply Forall_app. split; [done|].
    apply Forall_singleton. by apply relabel_silence_Q.
  - rewrite pass1_loop_cons, pass1_body_eq.
    destruct (convert_htk_time_to_seconds _) as [gap|]; [|discriminate].
    cbn [mbind option_bind]. intros Hl Hm Hc [Hx Hrest]%Forall_cons_1.
    destruct (String.eqb g _ && SFleb gap max_gap_seconds).
    + apply (IH _ _ _ Hl); [done| |done].
      apply relabel_silence_Q. exact Hc.
    + apply (IH _ _ _ Hl); [|done..].
      apply Forall_app. split; [done|].
      apply Forall_singleton. by apply relabel_silence_Q.
Qed.

Lemma coalesce_SP_phonemes l :
  Forall (λ x, Q (phoneme x)) l → Forall (λ x, Q (phoneme x)) (coalesce_SP l).
Proof.
  induction l as [|m rest IH]; [done|]. intros [Hm Hrest]%Forall_cons_1.
  specialize (IH Hrest).
  destruct rest as [|r rest]; [rewrite coalesce_SP_singleton; by constructor|].
  rewrite coalesce_SP_cons_cons.
  destruct (is_SP m); [|by constructor].
  destruct (is_SP r); [|by constructor].
  destruct (coalesce_SP (r :: rest)) as [|y ys]; [by repeat constructor|].
  apply Forall_cons_1 in IH as [_ Hys]. by constructor.
Qed.

Lemma merge_labels_phonemes_Forall labels out :
  merge_labels labels max_gap_seconds = Returns out →
  Forall (λ x, Q (phoneme x)) labels → Forall (λ x, Q (phoneme x)) out.
Proof.
  rewrite merge_labels_eq. destruct labels as [|first rest]; [by intros [= <-]|].
  rewrite pass1_eq.
  destruct (pass1_loop max_gap_seconds rest _) as [st'|] eqn:Hl; [|discriminate].
  intros [= <-] [Hf Hrest]%Forall_cons_1. apply coalesce_SP_phonemes.
  by eapply pass1_loop_phonemes.
Qed.

End Phonemes.

End Kept.

(** X4: the time marks of the list that [merge_labels] returns (start, end,
    start, end, ...) are a subsequence of the time marks of its argument:
    the call drops marks and neither adds nor reorders any.  So where the
    marks of the argument never decrease, those of the result never do. *)
Theorem merge_labels_time_marks (labels : list label)
    (max_gap_seconds : spec_float) (out : list label) :
  merge_labels labels max_gap_seconds = Returns out →
  marks out `sublist_of` marks labels ∧
  (StronglySorted Z.le (marks labels) → StronglySorted Z.le (marks out)).
Proof.
  intros H. apply merge_labels_marks in H. split; [done|].
  by apply StronglySorted_sublist.
Qed.

Lemma merge_labels_time_marks_witness :
  marks [Label 0 900000 "s"; Label 2000000 2100000 "e"]
    `sublist_of`
  marks [Label 0 500000 "s"; Label 600000 900000 "z"; Label 2000000 2100000 "e"].
Proof.
  apply (merge_labels_time_marks
           [Label 0 500000 "s"; Label 600000 900000 "z"; Label 2000000 2100000 "e"]
           float_0_1).
  vm_compute. reflexivity.
Defined.

(** X5: the list that [merge_labels] returns is no longer than its
    argument, and it is empty only for the empty argument. *)
Theorem merge_labels_length (labels : list label)
    (max_gap_seconds : spec_float) (out : list label) :
  merge_labels labels max_gap_seconds = Returns out →
  (length out ≤ length labels)%nat ∧ (out = [] ↔ labels = []).
Proof.
  intros H. split.
  - apply merge_labels_marks, sublist_length in H.
    rewrite !marks_length in H. lia.
  - rewrite merge_labels_eq in H.
    destruct labels as [|first rest]; [by injection H as <-|].
    destruct (pass1 first rest max_gap_seconds) as [merged|] eqn:Hp;
      [|discriminate].
    injection H as <-. split; [|discriminate].
    intros Hc. apply pass1_nonempty in Hp.
    by apply coalesce_SP_nonempty in Hp.
Qed.

Lemma merge_labels_length_witness :
  (length [Label 0 900000 "s"; Label 2000000 2100000 "e"] ≤
   length [Label 0 500000 "s"; Label 600000 900000 "z";
           Label 2000000 2100000 "e"])%nat.
Proof.
  apply (merge_labels_length
           [Label 0 500000 "s"; Label 600000 900000 "z"; Label 2000000 2100000 "e"]
           float_0_1).
  vm_compute. reflexivity.
Defined.

(** X6: the list that [merge_labels] returns for a list that is not empty
    starts where the first segment of the argument starts and ends where its
    last segment ends. *)
Theorem merge_labels_span (first : label) (rest : list label)
    (max_gap_seconds : spec_float) (out : list label) :
  merge_labels (first :: rest) max_gap_seconds = Returns out →
  start <$> head out = Some (start first) ∧
  end_ <$> last out = Some (end_ (default first (last rest))).
Proof.
  rewrite merge_labels_eq.
  destruct (pass1 first rest max_gap_seconds) as [merged|] eqn:Hp; [|discriminate].
  intros [= <-]. split.
  - rewrite coalesce_SP_head_start. by eapply pass1_head_start.
  - rewrite coalesce_SP_last_end. by eapply pass1_last_end.
Qed.

Lemma merge_labels_span_witness :
  start <$> head [Label 0 900000 "s"; Label 2000000 2100000 "SP"] = Some 0 ∧
  end_ <$> last [Label 0 900000 "s"; Label 2000000 2100000 "SP"] = Some 2100000.
Proof.
  apply (merge_labels_span (Label 0 500000 "s")
           [Label 600000 900000 "z"; Label 2000000 2050000 "pau";
            Label 2050000 2100000 "sil"] float_0_1).
  vm_compute. reflexivity.
Defined.

Lemma get_phoneme_group_SP : get_phoneme_group SP ≠ silence.
Proof. discriminate. Qed.

(** X7: [merge_labels] invents no phoneme: every phoneme of the list it
    returns is [SP] or a phoneme of its argument.  And it leaves no silence
    under its own name: no phoneme of the result is classified as
    silence. *)
Theorem merge_labels_phonemes (labels : list label)
    (max_gap_seconds : spec_float) (out : list label) :
  merge_labels labels max_gap_seconds = Returns out →
  Forall (λ x, phoneme x = SP ∨ phoneme x ∈ phoneme <$> labels) out ∧
  Forall (λ x, get_phoneme_group (phoneme x) ≠ silence) out.
Proof.
  intros H. split.
  - apply (merge_labels_phonemes_Forall max_gap_seconds
             (λ p, p = SP ∨ p ∈ phoneme <$> labels) (or_introl eq_refl) labels out H).
    apply Forall_forall. intros a Ha. right. by apply list_elem_of_fmap_2.
  - rewrite merge_labels_eq in H.
    destruct labels as [|first rest]; [injection H as <-; constructor|].
    destruct (pass1 first rest max_gap_seconds) as [merged|] eqn:Hp;
      [|discriminate].
    injection H as <-.
    apply (coalesce_SP_phonemes (λ p, get_phoneme_group p ≠ silence)).
    apply pass1_output_settled in Hp.
    eapply Forall_impl; [exact Hp|]. intros x [Hsp|Hx]; [|done].
    apply String.eqb_eq in Hsp. rewrite Hsp. apply get_phoneme_group_SP.
Qed.

Lemma merge_labels_phonemes_witness :
  Forall (λ x, get_phoneme_group (phoneme x) ≠ silence)
    [Label 0 900000 "s"; Label 2000000 2100000 "SP"].
Proof.
  apply (merge_labels_phonemes
           [Label 0 500000 "s"; Label 600000 900000 "z";
            Label 2000000 2050000 "pau"; Label 2050000 2100000 "sil"] float_0_1).
  vm_compute. reflexivity.
Defined.

(** ** Segments that touch or overlap *)

Section Sign.

Lemma binary_round_aux_sign s mx ex l :
  0 ≤ mx → has_sign s (binary_round_aux 53 1024 s mx ex l).
Proof.
  intros Hmx. unfold binary_round_aux, shr_fexp.
  set (n1 := fexp 53 1024 (Zdigits2 mx + ex) - ex).
  pose proof (shr_spec (shr_record_of_loc mx l) ex n1) as [Hm1 _].
  { by destruct l as [|[]]. }
  destruct (shr (shr_record_of_loc mx l) ex n1) as [mrs1 e1]. cbn [fst] in Hm1.
  assert (shr_m (shr_record_of_loc mx l) = mx) as Hrec by (by destruct l as [|[]]).
  rewrite Hrec in Hm1.
  assert (0 ≤ shr_m mrs1) as Hm1' by (rewrite Hm1; apply Z.div_pos; lia).
  pose proof (round_nearest_even_bounds (shr_m mrs1) (loc_of_shr_record mrs1)) as Hr.
  set (m1 := round_nearest_even (shr_m mrs1) (loc_of_shr_record mrs1)) in *.
  set (n2 := fexp 53 1024 (Zdigits2 m1 + e1) - e1).
  pose proof (shr_spec (shr_record_of_loc m1 loc_Exact) e1 n2) as [Hm2 _];
    [simpl; lia|].
  destruct (shr (shr_record_of_loc m1 loc_Exact) e1 n2) as [mrs2 e2].
  cbn [fst shr_record_of_loc shr_m] in Hm2.
  assert (0 ≤ shr_m mrs2) as Hm2' by (rewrite Hm2; apply Z.div_pos; lia).
  destruct (shr_m mrs2) as [|p|p]; [done| |lia].
  by destruct (_ <=? _).
Qed.

Lemma float_of_int_sign n x :
  float_of_int n = Some x → has_sign (bool_decide (n < 0)) x.
Proof.
  unfold float_of_int.
  destruct n as [|m|m]; cbn [binary_normalize].
  - by intros [= <-].
  - unfold binary_round. destruct (shl_align _ _ _) as [mz ez].
    pose proof (binary_round_aux_sign false (Zpos mz) ez loc_Exact ltac:(lia)) as Hs.
    destruct (binary_round_aux _ _ _ _ _ _); intros [= <-]; done.
  - unfold binary_round. destruct (shl_align _ _ _) as [mz ez].
    pose proof (binary_round_aux_sign true (Zpos mz) ez loc_Exact ltac:(lia)) as Hs.
    destruct (binary_round_aux _ _ _ _ _ _); intros [= <-]; done.
Qed.

(** The seconds of a number of ticks have the sign of the ticks. *)
Lemma convert_htk_time_to_seconds_sign htk_time x :
  convert_htk_time_to_seconds htk_time = Some x →
  has_sign (bool_decide (htk_time < 0)) x.
Proof.
  unfold convert_htk_time_to_seconds.
  destruct (float_of_int htk_time) as [y|] eqn:Hy; [|discriminate].
  apply float_of_int_sign in Hy. cbn [mbind option_bind]. intros [= <-].
  unfold float_1e_7.
  destruct y as [s|s| |s m e]; cbn [SFmul has_sign] in *; try done.
  - by rewrite xorb_false_r.
  - by rewrite xorb_false_r.
  - rewrite xorb_false_r, <- Hy. by apply binary_round_aux_sign.
Qed.

(** No time is above a threshold that is not below zero, unless it is
    above zero. *)
Lemma SFleb_nonpositive x thr :
  has_sign true x ∨ x = S754_zero false →
  SFleb (S754_zero false) thr = true → SFleb x thr = true.
Proof.
  intros Hx. unfold SFleb, SFcompare.
  destruct Hx as [Hx| ->]; [|done].
  destruct x as [s|s| |s m e]; cbn [has_sign] in Hx; try done; subst s;
    destruct thr as [s'|[]| |[] m' e']; try done.
Qed.

Lemma convert_nonpositive_gap d x thr :
  d ≤ 0 → convert_htk_time_to_seconds d = Some x →
  SFleb (S754_zero false) thr = true → SFleb x thr = true.
Proof.
  intros Hd Hx. apply SFleb_nonpositive.
  destruct (Z.eq_dec d 0) as [->|Hne].
  - right. vm_compute in Hx. by injection Hx as <-.
  - left. apply convert_htk_time_to_seconds_sign in Hx.
    by rewrite bool_decide_eq_true_2 in Hx by lia.
Qed.

End Sign.

Section Chains.

Variable max_gap_seconds : spec_float.

Lemma merge_labels_singleton_pass1 merged x :
  pass1_of merged max_gap_seconds = Some [x] → merged ≠ [] →
  merge_labels merged max_gap_seconds = Returns [x].
Proof.
  intros H Hne. rewrite merge_labels_eq. destruct merged as [|first rest]; [done|].
  cbn [pass1_of] in H. by rewrite H, coalesce_SP_singleton.
Qed.

Lemma all_eligible_same x y rest :
  end_ x = end_ y → get_phoneme_group (phoneme x) = get_phoneme_group (phoneme y) →
  all_eligible max_gap_seconds x rest → all_eligible max_gap_seconds y rest.
Proof.
  intros He Hg. destruct rest as [|z rest]; [done|].
  cbn [all_eligible]. by rewrite He, Hg.
Qed.

(** A run of segments in which every adjacent pair is eligible becomes one
    segment in pass 1. *)
Lemma pass1_chain first rest :
  all_eligible max_gap_seconds first rest →
  pass1_of (first :: rest) max_gap_seconds
  = Some [relabel_silence (get_phoneme_group (phoneme first))
            (set_end first (end_ (default first (last rest))))].
Proof.
  revert first. induction rest as [|b rest IH]; intros first Hall.
  - cbn [pass1_of last default]. rewrite pass1_eq, set_end_end. reflexivity.
  - destruct Hall as [(gap & Hgap & Hcond) Hall].
    pose proof (pass1_merge_pair max_gap_seconds [] first b rest gap Hgap Hcond)
      as Hpair.
    cbn [app] in Hpair. rewrite Hpair, IH.
    + do 3 f_equal. cbn [coalesce set_end]. f_equal.
      destruct rest as [|c rest]; [reflexivity|]. rewrite (last_cons_cons b).
      destruct (last (c :: rest)) eqn:Hlast; [reflexivity|].
      by apply last_None in Hlast.
    + apply andb_true_iff in Hcond as [Hg _]. apply String.eqb_eq in Hg.
      eapply all_eligible_same; [| |exact Hall]; [reflexivity|by rewrite <- Hg].
Qed.

End Chains.

(** X8: two adjacent segments of one group that touch or overlap (the
    second starts at or before the end of the first) are merged under every
    threshold that is not below zero, wherever they stand in the list. *)
Theorem touching_segments_merge (max_gap_seconds : spec_float)
    (l1 : list label) (a b : label) (l2 : list label) :
  SFleb (S754_zero false) max_gap_seconds = true →
  start b ≤ end_ a → - 2 ^ 1023 < start b - end_ a →
  get_phoneme_group (phoneme a) = get_phoneme_group (phoneme b) →
  pass1_of (l1 ++ a :: b :: l2) max_gap_seconds
  = pass1_of (l1 ++ coalesce a b :: l2) max_gap_seconds ∧
  merge_labels [a; b] max_gap_seconds
  = Returns [relabel_silence (get_phoneme_group (phoneme a)) (coalesce a b)].
Proof.
  intros Hthr Hle Hrange Hg.
  destruct (convert_htk_time_to_seconds_in_range (start b - end_ a)) as [gap Hgap];
    [lia|].
  assert (SFleb gap max_gap_seconds = true) as Hgap_le.
  { eapply convert_nonpositive_gap; [|exact Hgap|exact Hthr]. lia. }
  assert (String.eqb (get_phoneme_group (phoneme a)) (get_phoneme_group (phoneme b))
          && SFleb gap max_gap_seconds = true) as Hcond.
  { rewrite Hgap_le, andb_true_r. by apply String.eqb_eq. }
  split; [by eapply pass1_merge_pair|].
  apply merge_labels_singleton_pass1; [|done].
  rewrite (pass1_chain max_gap_seconds a [b]); [reflexivity|].
  split; [by exists gap|exact I].
Qed.

Lemma touching_segments_merge_witness :
  merge_labels [Label 0 500000 "a"; Label 400000 900000 "A"]
    (S754_zero false)
  = Returns [Label 0 900000 "a"].
Proof.
  apply (touching_segments_merge (S754_zero false) []
           (Label 0 500000 "a") (Label 400000 900000 "A") []);
    [reflexivity|simpl; lia|simpl; lia|reflexivity].
Defined.

(** X9: a list in which every adjacent pair is eligible (equal groups, gap
    within the threshold) is merged into one segment, from the start of the
    first to the end of the last, under the phoneme of the first, or [SP]
    for silence. *)
Theorem merge_labels_chain (max_gap_seconds : spec_float)
    (first : label) (rest : list label) :
  all_eligible max_gap_seconds first rest →
  merge_labels (first :: rest) max_gap_seconds
  = Returns [relabel_silence (get_phoneme_group (phoneme first))
               (set_end first (end_ (default first (last rest))))].
Proof.
  intros Hall. apply merge_labels_singleton_pass1; [|done].
  by apply pass1_chain.
Qed.

Lemma merge_labels_chain_witness :
  merge_labels [Label 0 100000 "pau"; Label 100000 200000 "sil";
                Label 250000 300000 "PAU"] float_0_1
  = Returns [Label 0 300000 "SP"].
Proof.
  apply (merge_labels_chain float_0_1 (Label 0 100000 "pau")
           [Label 100000 200000 "sil"; Label 250000 300000 "PAU"]).
  split; [|split; [|exact I]].
  - exists (S754_zero false). split; vm_compute; reflexivity.
  - exists (S754_finite false 5764607523034235 (-60)).
    split; vm_compute; reflexivity.
Defined.

(** ** Reading what was written *)

Lemma is_token_SP : is_token (list_ascii_of_string SP) = true.
Proof. reflexivity. Qed.

Lemma merge_labels_writable labels max_gap_seconds out :
  merge_labels labels max_gap_seconds = Returns out →
  Forall (λ l, writable l = true) labels → Forall (λ l, writable l = true) out.
Proof.
  intros H.
  apply (merge_labels_phonemes_Forall max_gap_seconds
           (λ p, is_token (list_ascii_of_string p) = true) is_token_SP labels out H).
Qed.

Lemma Forall_of_sublist {A} (P : A → Prop) (l1 l2 : list A) :
  l1 `sublist_of` l2 → Forall P l2 → Forall P l1.
Proof.
  intros Hs. rewrite !Forall_forall. intros H x Hx. apply H.
  by eapply elem_of_sublist.
Qed.

Lemma printable_marks labels :
  Forall printable labels ↔ Forall in_str_range (marks labels).
Proof.
  induction labels as [|l labels IH]; [split; constructor|].
  change (marks (l :: labels)) with (start l :: end_ l :: marks labels).
  rewrite !Forall_cons, IH. unfold printable. tauto.
Qed.

Lemma merge_labels_printable labels max_gap_seconds out :
  merge_labels labels max_gap_seconds = Returns out →
  Forall printable labels → Forall printable out.
Proof.
  intros H%merge_labels_marks. rewrite !printable_marks.
  by apply Forall_of_sublist.
Qed.

(** X10: the segments read from a file have phonemes that are one field
    each, and so they survive being written and read again: the writer
    returns on them, and the parser returns the same list for the text it
    has written. *)
Theorem parse_write_parse (content : list ascii) (labels : list label) :
  parse_lab_file content = Some labels →
  Forall (λ l, is_token (list_ascii_of_string (phoneme l)) = true) labels ∧
  ∃ text, write_lab_file labels = (text, true) ∧
          parse_lab_file text = Some labels.
Proof.
  intros H. pose proof (parse_lab_file_printable _ _ H) as Hp.
  apply parse_lab_file_writable in H.
  split; [exact H|by apply write_then_parse].
Qed.

Lemma parse_write_parse_witness :
  ∃ text,
    write_lab_file [Label 0 5 "a"; Label 10 (-7) "e"] = (text, true) ∧
    parse_lab_file text = Some [Label 0 5 "a"; Label 10 (-7) "e"].
Proof.
  apply (proj2 (parse_write_parse (list_ascii_of_string "  +0 5 a b c

x y
1_0 -7 e") [Label 0 5 "a"; Label 10 (-7) "e"] ltac:(vm_compute; reflexivity))).
Defined.

(** X11: read, merge, write: the writer returns on the merged segments of
    a file that was read, and the text it has written for them reads back
    as exactly those segments, whatever the threshold. *)
Theorem refined_file_reads_back (content : list ascii) (labels : list label)
    (max_gap_seconds : spec_float) (merged_labels : list label) :
  parse_lab_file content = Some labels →
  merge_labels labels max_gap_seconds = Returns merged_labels →
  ∃ text, write_lab_file merged_labels = (text, true) ∧
          parse_lab_file text = Some merged_labels.
Proof.
  intros Hp Hm. apply write_then_parse.
  - eapply merge_labels_writable; [exact Hm|].
    by eapply parse_lab_file_writable.
  - eapply merge_labels_printable; [exact Hm|].
    by eapply parse_lab_file_printable.
Qed.

Lemma refined_file_reads_back_witness :
  ∃ text,
    write_lab_file [Label 0 200000 "SP"; Label 200000 300000 "a"] = (text, true) ∧
    parse_lab_file text = Some [Label 0 200000 "SP"; Label 200000 300000 "a"].
Proof.
  apply (refined_file_reads_back (list_ascii_of_string "0 100000 pau
100000 200000 sil
200000 300000 a
")
           [Label 0 100000 "pau"; Label 100000 200000 "sil"; Label 200000 300000 "a"]
           float_0_1 [Label 0 200000 "SP"; Label 200000 300000 "a"]);
    vm_compute; reflexivity.
Defined.

(** ** Line ends *)

Lemma universal_newlines_write_cr s :
  Forall (λ c, c ≠ Str.CR) s →
  Str.universal_newlines (Str.write_newlines [Str.CR] s) = s.
Proof.
  induction 1 as [|c s Hc Hs IH]; [reflexivity|].
  unfold Str.write_newlines in *. cbn [flat_map].
  destruct (Ascii.eqb_spec c Str.LF) as [->|Hlf].
  - cbn [app Str.universal_newlines].
    change (Ascii.eqb Str.CR Str.CR) with true. cbv iota.
    destruct s as [|c' s]; [reflexivity|].
    cbn [flat_map] in *. apply Forall_cons_1 in Hs as [Hc' _].
    destruct (Ascii.eqb_spec c' Str.LF) as [->|Hlf'].
    + cbn [app] in *.
      change (Ascii.eqb Str.CR Str.LF) with false. cbv iota. by rewrite IH.
    + cbn [app] in *. destruct (Ascii.eqb_spec c' Str.LF); [done|].
      by rewrite IH.
  - cbn [app Str.universal_newlines].
    destruct (Ascii.eqb_spec c Str.CR); [done|]. by rewrite IH.
Qed.

(** X12: a label file reads the same whether its lines end in LF, in CR LF
    or in CR. *)
Theorem parse_lab_file_line_ends (content : list ascii) :
  Forall (λ c, c ≠ Str.CR) content →
  parse_lab_file (Str.write_newlines [Str.CR; Str.LF] content)
  = parse_lab_file content ∧
  parse_lab_file (Str.write_newlines [Str.CR] content) = parse_lab_file content.
Proof.
  intros H. unfold parse_lab_file.
  by rewrite universal_newlines_write_crlf, universal_newlines_write_cr,
    universal_newlines_no_CR.
Qed.

Lemma parse_lab_file_line_ends_witness :
  parse_lab_file (Str.write_newlines [Str.CR; Str.LF]
                    (list_ascii_of_string "0 5 a
5 9 e
"))
  = parse_lab_file (list_ascii_of_string "0 5 a
5 9 e
").
Proof.
  apply (proj1 (parse_lab_file_line_ends (list_ascii_of_string "0 5 a
5 9 e
") ltac:(repeat constructor; discriminate))).
Defined.

(** ** Gaps *)

Section Gaps.

Variable max_gap_seconds : spec_float.

Lemma gaps_snoc l x :
  gaps (l ++ [x]) =
    gaps l ++ match last l with Some y => [(end_ y, start x)] | None => [] end.
Proof.
  induction l as [|a l IH]; [reflexivity|].
  destruct l as [|b l]; [reflexivity|].
  change (gaps ((a :: b :: l) ++ [x]))
    with ((end_ a, start b) :: gaps ((b :: l) ++ [x])).
  rewrite IH, (last_cons_cons a). reflexivity.
Qed.

Lemma gaps_snoc_start l x y : start x = start y → gaps (l ++ [x]) = gaps (l ++ [y]).
Proof. intros H. by rewrite !gaps_snoc, H. Qed.

Lemma gaps_snoc_snoc l x y :
  gaps (l ++ [x; y]) = gaps (l ++ [x]) ++ [(end_ x, start y)].
Proof.
  change [x; y] with ([x] ++ [y]). rewrite app_assoc, (gaps_snoc (l ++ [x])).
  by rewrite last_snoc.
Qed.

Lemma gaps_head_end x y l : end_ x = end_ y → gaps (x :: l) = gaps (y :: l).
Proof. intros H. destruct l; [reflexivity|]. cbn [gaps]. by rewrite H. Qed.

(** Pass 1 keeps a gap or drops it: it makes none. *)
Lemma pass1_loop_gaps rest seen prev m c g st' :
  pass1_loop max_gap_seconds rest (m, c, g) = Some st' →
  end_ c = end_ prev →
  gaps (m ++ [c]) `sublist_of` gaps (seen ++ [prev]) →
  gaps (pass1_finish st') `sublist_of` gaps (seen ++ prev :: rest).
Proof.
  revert seen prev m c g.
  induction rest as [|next rest IH]; intros seen prev m c g.
  - intros [= <-] _ H. cbn [pass1_finish].
    by rewrite (gaps_snoc_start m _ c) by apply relabel_silence_start.
  - rewrite pass1_loop_cons, pass1_body_eq.
    destruct (convert_htk_time_to_seconds _) as [gap|]; [|discriminate].
    cbn [mbind option_bind]. intros Hl He H.
    change (seen ++ prev :: next :: rest) with (seen ++ [prev] ++ next :: rest).
    rewrite app_assoc.
    destruct (String.eqb g _ && SFleb gap max_gap_seconds).
    + eapply IH; [exact Hl|by rewrite relabel_silence_end|].
      rewrite <- app_assoc. cbn [app]. rewrite gaps_snoc_snoc.
      rewrite (gaps_snoc_start m _ c) by by rewrite relabel_silence_start.
      by apply sublist_inserts_r.
    + eapply IH; [exact Hl|reflexivity|].
      rewrite <- !app_assoc. cbn [app]. rewrite !gaps_snoc_snoc.
      rewrite relabel_silence_end, He.
      apply sublist_app; [|done].
      by rewrite (gaps_snoc_start m _ c) by apply relabel_silence_start.
Qed.

Lemma pass1_gaps first rest merged :
  pass1 first rest max_gap_seconds = Some merged →
  gaps merged `sublist_of` gaps (first :: rest).
Proof.
  rewrite pass1_eq.
  destruct (pass1_loop max_gap_seconds rest _) as [st'|] eqn:Hl; [|discriminate].
  intros [= <-]. by apply (pass1_loop_gaps rest [] first) in Hl.
Qed.

(** Pass 2 likewise. *)
Lemma coalesce_SP_gaps l : gaps (coalesce_SP l) `sublist_of` gaps l.
Proof.
  induction l as [|m rest IH]; [done|].
  destruct rest as [|r rest]; [by rewrite coalesce_SP_singleton|].
  pose proof (coalesce_SP_head_start (r :: rest)) as Hh.
  rewrite coalesce_SP_cons_cons.
  destruct (coalesce_SP (r :: rest)) as [|y ys]; [discriminate|].
  injection Hh as Hh.
  assert (gaps (m :: y :: ys) `sublist_of` gaps (m :: r :: rest)) as Hkeep.
  { cbn [gaps] in *. rewrite Hh. by apply sublist_skip. }
  destruct (is_SP m); [|exact Hkeep].
  destruct (is_SP r); [|exact Hkeep].
  rewrite (gaps_head_end _ y) by reflexivity.
  etrans; [exact IH|]. by apply sublist_cons.
Qed.

Lemma merge_labels_gaps_sublist labels out :
  merge_labels labels max_gap_seconds = Returns out →
  gaps out `sublist_of` gaps labels.
Proof.
  rewrite merge_labels_eq. destruct labels as [|first rest]; [by intros [= <-]|].
  destruct (pass1 first rest max_gap_seconds) as [merged|] eqn:Hp; [|discriminate].
  intros [= <-]. etrans; [apply coalesce_SP_gaps|by apply pass1_gaps].
Qed.

Lemma gaps_convertible_gaps first rest :
  gaps_convertible first rest ↔
  Forall (λ p, is_Some (convert_htk_time_to_seconds (p.2 - p.1))) (gaps (first :: rest)).
Proof.
  revert first. induction rest as [|next rest IH]; intros first.
  - cbn. split; [constructor|done].
  - cbn [gaps_convertible gaps]. rewrite Forall_cons, IH. reflexivity.
Qed.

End Gaps.

(** X13: [merge_labels] makes no gap: the end of a segment of the result
    and the start of the segment after it are the end and the start of two
    adjacent segments of the argument, in the order of the argument.  So
    segments that were contiguous stay contiguous, and the result can be
    merged again under any threshold without an exception. *)
Theorem merge_labels_gaps (labels : list label) (max_gap_seconds : spec_float)
    (out : list label) :
  merge_labels labels max_gap_seconds = Returns out →
  gaps out `sublist_of` gaps labels ∧
  (Forall (λ p, p.1 = p.2) (gaps labels) → Forall (λ p, p.1 = p.2) (gaps out)) ∧
  (∀ max_gap_seconds', ∃ out', merge_labels out max_gap_seconds' = Returns out').
Proof.
  intros H. pose proof (merge_labels_gaps_sublist _ _ _ H) as Hsub.
  split; [exact Hsub|]. split; [by apply Forall_of_sublist|].
  intros thr'. rewrite merge_labels_eq in H.
  destruct labels as [|first rest]; [injection H as <-; by eexists|].
  destruct (pass1 first rest max_gap_seconds) as [merged|] eqn:Hp; [|discriminate].
  assert (is_Some (pass1 first rest max_gap_seconds)) as Hs by (by eexists).
  apply pass1_is_Some, gaps_convertible_gaps in Hs.
  apply (Forall_of_sublist _ _ _ Hsub) in Hs.
  destruct out as [|y ys]; [by eexists|].
  apply gaps_convertible_gaps, (pass1_is_Some thr') in Hs as [merged' Hm'].
  rewrite merge_labels_eq, Hm'. by eexists.
Qed.

Lemma merge_labels_gaps_witness :
  gaps [Label 0 900000 "s"; Label 2000000 2100000 "SP"]
  `sublist_of`
  gaps [Label 0 500000 "s"; Label 600000 900000 "z";
        Label 2000000 2050000 "pau"; Label 2050000 2100000 "sil"].
Proof.
  apply (proj1 (merge_labels_gaps
           [Label 0 500000 "s"; Label 600000 900000 "z";
            Label 2000000 2050000 "pau"; Label 2050000 2100000 "sil"] float_0_1
           [Label 0 900000 "s"; Label 2000000 2100000 "SP"]
           ltac:(vm_compute; reflexivity))).
Defined.

(** ** The batch run *)

Section Batch.

Variable max_gap_seconds : spec_float.

(** The writer returns on what the merger makes of a file that was read. *)
Lemma written_returns content labels merged_labels :
  parse_lab_file content = Some labels →
  merge_labels labels max_gap_seconds = Returns merged_labels →
  write_lab_file merged_labels = (file_text merged_labels, true).
Proof.
  intros Hp Hm. apply write_lab_file_returned. split; [|reflexivity].
  eapply merge_labels_printable; [exact Hm|].
  by eapply parse_lab_file_printable.
Qed.

Lemma refined_cases content :
  match refined max_gap_seconds content with
  | Some text =>
      ∃ labels merged_labels,
        parse_lab_file content = Some labels ∧ labels ≠ [] ∧
        merge_labels labels max_gap_seconds = Returns merged_labels ∧
        write_lab_file merged_labels = (text, true)
  | None =>
      parse_lab_file content = None ∨ parse_lab_file content = Some [] ∨
      ∃ labels, parse_lab_file content = Some labels ∧
                merge_labels labels max_gap_seconds = Raises OverflowError
  end.
Proof.
  unfold refined.
  destruct (parse_lab_file content) as [[|first rest]|] eqn:Hp;
    [by right; left| |by left].
  pose proof (merge_labels_eq (first :: rest) max_gap_seconds) as Heq.
  destruct (merge_labels (first :: rest) max_gap_seconds) as [merged|e|] eqn:Hm.
  - exists (first :: rest), merged. do 3 (split; [done|]).
    by rewrite (written_returns _ _ _ Hp Hm).
  - right; right. exists (first :: rest). split; [done|].
    destruct (pass1 first rest max_gap_seconds); [discriminate|]. by rewrite Hm.
  - destruct (pass1 first rest max_gap_seconds); discriminate.
Qed.

(** An iteration writes the refined text under the name of its file, or
    leaves the output directory as it is. *)
Lemma process_lab_file_output output printed name content :
  ∃ printed',
    process_lab_file max_gap_seconds (output, printed) (name, content)
    = Some (match refined max_gap_seconds content with
            | Some text => <[name := text]> output
            | None => output
            end, printed').
Proof.
  unfold process_lab_file, refined.
  destruct (parse_lab_file content) as [[|first rest]|] eqn:Hp;
    [by eexists| |by eexists].
  rewrite bool_decide_eq_false_2 by done.
  pose proof (merge_labels_eq (first :: rest) max_gap_seconds) as Heq.
  destruct (merge_labels (first :: rest) max_gap_seconds) as [merged|e|] eqn:Hm;
    [|by eexists|].
  - rewrite (written_returns _ _ _ Hp Hm). by eexists.
  - destruct (pass1 first rest max_gap_seconds); discriminate.
Qed.

Lemma process_loop_output lab_files output printed :
  NoDup lab_files.*1 →
  ∃ output' printed',
    process_loop max_gap_seconds lab_files (output, printed)
    = Some (output', printed') ∧
    (∀ name content, (name, content) ∈ lab_files →
       output' !! name
       = from_option Some (output !! name) (refined max_gap_seconds content)) ∧
    (∀ name, name ∉ lab_files.*1 → output' !! name = output !! name).
Proof.
  revert output printed.
  induction lab_files as [|[name content] lab_files IH]; intros output printed Hnd.
  - exists output, printed. split; [reflexivity|]. split; [|done].
    intros name content H. by apply elem_of_nil in H.
  - rewrite fmap_cons in Hnd. apply NoDup_cons in Hnd as [Hname Hnd].
    cbn [process_loop].
    destruct (process_lab_file_output output printed name content)
      as [printed1 ->].
    cbn [mbind option_bind].
    set (output1 := match refined max_gap_seconds content with
                    | Some text => <[name:=text]> output
                    | None => output
                    end).
    destruct (IH output1 printed1 Hnd) as (output' & printed' & -> & Hin & Hout).
    assert (∀ name', name' ≠ name → output1 !! name' = output !! name') as Hother.
    { intros name' Hne. subst output1.
      destruct (refined max_gap_seconds content); [|reflexivity].
      by rewrite lookup_insert_ne. }
    exists output', printed'. split; [reflexivity|]. split.
    + intros name' content' [[= -> ->]|H]%elem_of_cons.
      * rewrite (Hout name Hname). subst output1.
        destruct (refined max_gap_seconds content); [|reflexivity].
        by rewrite lookup_insert_eq.
      * rewrite (Hin _ _ H), Hother; [reflexivity|].
        intros ->. apply Hname. apply list_elem_of_fmap.
        by exists (name, content').
    + intros name' Hnot. rewrite fmap_cons, not_elem_of_cons in Hnot.
      destruct Hnot as [Hne Hnot]. by rewrite (Hout _ Hnot), Hother.
Qed.

End Batch.

(** X14: a batch run over files of distinct names handles each file on its
    own.  It writes, under the name of the file, the text of the merged
    segments of every file that parses to a list that is not empty and
    whose merge returns, and the writer returns on them; for a file that does not parse, that has no
    segment, or whose merge raises, it writes nothing, so that what the
    output directory held under that name stays; and it touches no other
    name.  No file stops the run. *)
Theorem process_lab_files_output (lab_files : list (string * list ascii))
    (output : gmap string (list ascii)) (max_gap_seconds : spec_float) :
  NoDup lab_files.*1 →
  ∃ output' printed,
    process_lab_files lab_files output max_gap_seconds = Some (output', printed) ∧
    (∀ name content labels merged_labels,
       (name, content) ∈ lab_files →
       parse_lab_file content = Some labels → labels ≠ [] →
       merge_labels labels max_gap_seconds = Returns merged_labels →
       ∃ text, write_lab_file merged_labels = (text, true) ∧
               output' !! name = Some text) ∧
    (∀ name content,
       (name, content) ∈ lab_files →
       parse_lab_file content = None ∨ parse_lab_file content = Some [] ∨
       (∃ labels e, parse_lab_file content = Some labels ∧
                    merge_labels labels max_gap_seconds = Raises e) →
       output' !! name = output !! name) ∧
    (∀ name, name ∉ lab_files.*1 → output' !! name = output !! name).
Proof.
  intros Hnd. unfold process_lab_files. case_bool_decide as Hnil.
  { subst lab_files. exists output, [NoLabFiles]. split; [reflexivity|].
    split; [|split; [|done]].
    - intros ???? H. by apply elem_of_nil in H.
    - intros ?? H. by apply elem_of_nil in H. }
  destruct (process_loop_output max_gap_seconds lab_files output
              [Found (length lab_files)] Hnd)
    as (output' & printed' & -> & Hin & Hout).
  cbn [mbind option_bind fst snd]. eexists _, _. split; [reflexivity|].
  split; [|split; [|exact Hout]].
  - intros name content labels merged Hf Hp Hne Hm. rewrite (Hin _ _ Hf).
    pose proof (refined_cases max_gap_seconds content) as Hr.
    destruct (refined max_gap_seconds content) as [text|].
    + destruct Hr as (labels' & merged' & Hp' & _ & Hm' & Hw).
      assert (merged' = merged) as -> by congruence. by exists text.
    + destruct Hr as [Hr|[Hr|(labels' & Hp' & Hm')]]; congruence.
  - intros name content Hf Hfail. rewrite (Hin _ _ Hf).
    pose proof (refined_cases max_gap_seconds content) as Hr.
    destruct (refined max_gap_seconds content) as [text|]; [|reflexivity].
    destruct Hr as (labels' & merged' & Hp' & Hne & Hm' & _).
    destruct Hfail as [Hfail|[Hfail|(labels & e & Hp & Hm)]]; congruence.
Qed.

Lemma process_lab_files_output_witness :
  ∃ output' printed,
    process_lab_files
      [("a.lab"%string, list_ascii_of_string "0 100000 pau
100000 200000 sil
");
       ("b.lab"%string, list_ascii_of_string "0 x a
")]
      (<["b.lab"%string := list_ascii_of_string "old"]> ∅) float_0_1
    = Some (output', printed) ∧
    (∃ text, write_lab_file [Label 0 200000 "SP"] = (text, true) ∧
             output' !! "a.lab"%string = Some text) ∧
    output' !! "b.lab"%string = Some (list_ascii_of_string "old").
Proof.
  destruct (process_lab_files_output
      [("a.lab"%string, list_ascii_of_string "0 100000 pau
100000 200000 sil
");
       ("b.lab"%string, list_ascii_of_string "0 x a
")]
      (<["b.lab"%string := list_ascii_of_string "old"]> ∅) float_0_1)
    as (output' & printed & Hrun & Hwritten & Hkept & _).
  - apply (bool_decide_unpack _). vm_compute. exact I.
  - exists output', printed. split; [exact Hrun|]. split.
    + eapply Hwritten.
      * apply list_elem_of_here.
      * vm_compute. reflexivity.
      * discriminate.
      * vm_compute. reflexivity.
    + rewrite (Hkept "b.lab"%string (list_ascii_of_string "0 x a
")).
      * reflexivity.
      * apply list_elem_of_further, list_elem_of_here.
      * left. vm_compute. reflexivity.
Defined.

(** ** What a batch run reports *)

Section Report.

Variable max_gap_seconds : spec_float.

Lemma process_lab_file_messages output printed lab_file :
  ∃ output',
    process_lab_file max_gap_seconds (output, printed) lab_file
    = Some (output', printed ++ file_messages max_gap_seconds lab_file).
Proof.
  destruct lab_file as [name content].
  unfold file_messages, process_lab_file.
  destruct (parse_lab_file content) as [[|first rest]|];
    [eexists; by rewrite <- app_assoc| |eexists; by rewrite <- app_assoc].
  rewrite bool_decide_eq_false_2 by done.
  pose proof (merge_labels_eq (first :: rest) max_gap_seconds) as Heq.
  destruct (merge_labels (first :: rest) max_gap_seconds) as [merged|e|];
    [|eexists; by rewrite <- !app_assoc|].
  - destruct (write_lab_file merged) as [f []]; eexists;
      by rewrite <- !app_assoc.
  - destruct (pass1 first rest max_gap_seconds); discriminate.
Qed.

Lemma process_loop_messages lab_files output printed :
  ∃ output',
    process_loop max_gap_seconds lab_files (output, printed)
    = Some (output', printed ++ flat_map (file_messages max_gap_seconds) lab_files).
Proof.
  revert output printed.
  induction lab_files as [|lab_file lab_files IH]; intros output printed.
  - exists output. by rewrite app_nil_r.
  - cbn [process_loop flat_map].
    destruct (process_lab_file_messages output printed lab_file) as [output1 ->].
    cbn [mbind option_bind].
    destruct (IH output1 (printed ++ file_messages max_gap_seconds lab_file))
      as [output' ->].
    exists output'. by rewrite app_assoc.
Qed.

Lemma elem_of_flat_map {A B} (f : A → list B) (l : list A) (y : B) :
  y ∈ flat_map f l ↔ ∃ x, x ∈ l ∧ y ∈ f x.
Proof.
  induction l as [|a l IH]; cbn [flat_map].
  - split; [by intros ?%elem_of_nil|]. by intros (x & ?%elem_of_nil & _).
  - rewrite elem_of_app, IH. split.
    + intros [H|(x & Hx & H)]; [exists a|exists x]; split; try done.
      * apply list_elem_of_here.
      * by apply list_elem_of_further.
    + intros (x & [->|Hx]%elem_of_cons & H); [by left|right; by exists x].
Qed.

(** The verdict on a file, read off its messages. *)
Lemma file_messages_verdict name content :
  let printed := file_messages max_gap_seconds (name, content) in
  (∀ msg, msg ∈ printed →
     match msg with
     | Processing n | EmptyFile n | Saved n | ErrorDuringProcessing n => n = name
     | OriginalLabels _ | AfterMerging _ => True
     | _ => False
     end) ∧
  (Saved name ∈ printed ↔ is_Some (refined max_gap_seconds content)) ∧
  (EmptyFile name ∈ printed ↔ parse_lab_file content = Some []) ∧
  (ErrorDuringProcessing name ∈ printed ↔
     parse_lab_file content = None ∨
     ∃ labels e, parse_lab_file content = Some labels ∧
                 merge_labels labels max_gap_seconds = Raises e).
Proof.
  unfold file_messages, process_lab_file, refined.
  destruct (parse_lab_file content) as [[|first rest]|] eqn:Hp; cbn [snd app].
  - split; [|split; [|split]].
    + intros msg H. repeat (apply elem_of_cons in H as [->|H]; [done|]).
      by apply elem_of_nil in H.
    + split; [|by intros [? [=]]]. intros H.
      repeat (apply elem_of_cons in H as [[=]|H]). by apply elem_of_nil in H.
    + split; [done|]. intros _. apply list_elem_of_further, list_elem_of_here.
    + split; [|by intros [[=]|(? & ? & [= <-] & [=])]]. intros H.
      repeat (apply elem_of_cons in H as [[=]|H]). by apply elem_of_nil in H.
  - rewrite bool_decide_eq_false_2 by done.
    pose proof (merge_labels_eq (first :: rest) max_gap_seconds) as Heq.
    destruct (merge_labels (first :: rest) max_gap_seconds) as [merged|e|]
      eqn:Hmerge;
      [rewrite (written_returns _ _ _ _ Hp Hmerge)|
       |destruct (pass1 first rest max_gap_seconds); discriminate];
      cbn [snd app]; (split; [|split; [|split]]).
    + intros msg H. repeat (apply elem_of_cons in H as [->|H]; [done|]).
      by apply elem_of_nil in H.
    + split; [by eexists|]. intros _. do 3 apply list_elem_of_further.
      apply list_elem_of_here.
    + split; [|done]. intros H.
      repeat (apply elem_of_cons in H as [[=]|H]). by apply elem_of_nil in H.
    + split; [|intros [[=]|(? & ? & [= <-] & Hm)]; congruence]. intros H.
      repeat (apply elem_of_cons in H as [[=]|H]). by apply elem_of_nil in H.
    + intros msg H. repeat (apply elem_of_cons in H as [->|H]; [done|]).
      by apply elem_of_nil in H.
    + split; [|by intros [? [=]]]. intros H.
      repeat (apply elem_of_cons in H as [[=]|H]). by apply elem_of_nil in H.
    + split; [|done]. intros H.
      repeat (apply elem_of_cons in H as [[=]|H]). by apply elem_of_nil in H.
    + split; [|intros _; do 2 apply list_elem_of_further; apply list_elem_of_here].
      intros _. right. by exists (first :: rest), e.
  - split; [|split; [|split]].
    + intros msg H. repeat (apply elem_of_cons in H as [->|H]; [done|]).
      by apply elem_of_nil in H.
    + split; [|by intros [? [=]]]. intros H.
      repeat (apply elem_of_cons in H as [[=]|H]). by apply elem_of_nil in H.
    + split; [|done]. intros H.
      repeat (apply elem_of_cons in H as [[=]|H]). by apply elem_of_nil in H.
    + split; [by left|]. intros _. apply list_elem_of_further, list_elem_of_here.
Qed.

End Report.

(** X15: what a batch run over files of distinct names prints is true of
    what it does: it reports a file as saved exactly when the writer has
    returned and the file holds the text of its merged segments, as empty exactly when the file holds no segment, and as
    failed exactly when the file does not parse or its merge raises. *)
Theorem process_lab_files_report (lab_files : list (string * list ascii))
    (output : gmap string (list ascii)) (max_gap_seconds : spec_float)
    (name : string) (content : list ascii) :
  NoDup lab_files.*1 → (name, content) ∈ lab_files →
  ∃ output' printed,
    process_lab_files lab_files output max_gap_seconds = Some (output', printed) ∧
    (Saved name ∈ printed ↔
       ∃ labels merged_labels,
         parse_lab_file content = Some labels ∧ labels ≠ [] ∧
         merge_labels labels max_gap_seconds = Returns merged_labels ∧
         ∃ text, write_lab_file merged_labels = (text, true) ∧
                 output' !! name = Some text) ∧
    (EmptyFile name ∈ printed ↔ parse_lab_file content = Some []) ∧
    (ErrorDuringProcessing name ∈ printed ↔
       parse_lab_file content = None ∨
       ∃ labels e, parse_lab_file content = Some labels ∧
                   merge_labels labels max_gap_seconds = Raises e).
Proof.
  intros Hnd Hin. unfold process_lab_files.
  rewrite bool_decide_eq_false_2 by (intros ->; by apply elem_of_nil in Hin).
  destruct (process_loop_output max_gap_seconds lab_files output
              [Found (length lab_files)] Hnd)
    as (output' & printed' & Hrun & Hwritten & _).
  destruct (process_loop_messages max_gap_seconds lab_files output
              [Found (length lab_files)]) as [output'' Hmsgs].
  rewrite Hrun in Hmsgs. injection Hmsgs as <- ->. rewrite Hrun.
  cbn [mbind option_bind fst snd]. eexists _, _. split; [reflexivity|].
  destruct (file_messages_verdict max_gap_seconds name content)
    as (_ & Hsaved & Hempty & Herror).
  assert (∀ msg,
    match msg with
    | Saved n | EmptyFile n | ErrorDuringProcessing n => n = name
    | _ => False
    end →
    (msg ∈ ([Found (length lab_files)]
              ++ flat_map (file_messages max_gap_seconds) lab_files) ++ [Completed]
     ↔ msg ∈ file_messages max_gap_seconds (name, content))) as Hmine.
  { intros msg Hmsg. rewrite !elem_of_app, !list_elem_of_singleton.
    rewrite elem_of_flat_map. split.
    - intros [[->|([name' content'] & Hin' & Hm)]| ->]; [done| |done].
      destruct (file_messages_verdict max_gap_seconds name' content')
        as (Hnames & _).
      specialize (Hnames msg Hm).
      assert (name' = name) as -> by (by destruct msg; subst).
      assert (content' = content) as ->; [|done].
      clear -Hnd Hin Hin'.
      induction lab_files as [|[n c] lab_files IH]; [by apply elem_of_nil in Hin|].
      rewrite fmap_cons in Hnd. apply NoDup_cons in Hnd as [Hn Hnd].
      apply elem_of_cons in Hin as [Heq|Hin];
        apply elem_of_cons in Hin' as [Heq'|Hin']; simplify_eq; try done.
      + exfalso. apply Hn, list_elem_of_fmap.
        eexists; split; [|eassumption]; reflexivity.
      + exfalso. apply Hn, list_elem_of_fmap.
        eexists; split; [|eassumption]; reflexivity.
      + by apply IH.
    - intros Hm. left. right. by exists (name, content). }
  rewrite (Hmine (Saved name) eq_refl), (Hmine (EmptyFile name) eq_refl),
    (Hmine (ErrorDuringProcessing name) eq_refl).
  split; [|by split].
  rewrite Hsaved, (Hwritten _ _ Hin).
  pose proof (refined_cases max_gap_seconds content) as Hr.
  destruct (refined max_gap_seconds content) as [text|].
  - destruct Hr as (labels & merged & Hp & Hne & Hm & Hw).
    split; [|by eexists]. intros _. exists labels, merged.
    do 3 (split; [done|]). by exists text.
  - split; [by intros [? [=]]|]. intros (labels & merged & Hp & Hne & Hm & _).
    destruct Hr as [Hr|[Hr|(labels' & Hp' & Hm')]]; congruence.
Qed.

Lemma process_lab_files_report_witness :
  ∃ output' printed,
    process_lab_files
      [("a.lab"%string, list_ascii_of_string "0 100000 pau
100000 200000 sil
");
       ("b.lab"%string, list_ascii_of_string "0 x a
")] ∅ float_0_1
    = Some (output', printed) ∧
    (ErrorDuringProcessing "b.lab" ∈ printed ↔
       parse_lab_file (list_ascii_of_string "0 x a
") = None ∨
       ∃ labels e, parse_lab_file (list_ascii_of_string "0 x a
") = Some labels ∧
                   merge_labels labels float_0_1 = Raises e).
Proof.
  destruct (process_lab_files_report
      [("a.lab"%string, list_ascii_of_string "0 100000 pau
100000 200000 sil
");
       ("b.lab"%string, list_ascii_of_string "0 x a
")] ∅ float_0_1 "b.lab"%string (list_ascii_of_string "0 x a
"))
    as (output' & printed & Hrun & _ & _ & Herror).
  - apply (bool_decide_unpack _). vm_compute. exact I.
  - apply list_elem_of_further, list_elem_of_here.
  - by exists output', printed.
Defined.

(** ** Moving a list in time *)

Section Shift.

Variable max_gap_seconds : spec_float.
Variable d : Z.

Lemma shift_relabel g c :
  shift d (relabel_silence g c) = relabel_silence g (shift d c).
Proof. unfold relabel_silence. by destruct (String.eqb g silence). Qed.

Lemma pass1_body_shift m c g next_label :
  pass1_body max_gap_seconds (shift d <$> m, shift d c, g) (shift d next_label)
  = (λ st : pass1_state, (shift d <$> st.1.1, shift d st.1.2, st.2))
      <$> pass1_body max_gap_seconds (m, c, g) next_label.
Proof.
  rewrite !pass1_body_eq. cbn [shift start end_ phoneme].
  replace (start next_label + d - (end_ c + d))
    with (start next_label - end_ c) by lia.
  destruct (convert_htk_time_to_seconds _) as [gap|]; [|reflexivity].
  cbn [mbind option_bind fmap option_fmap option_map].
  destruct (String.eqb g _ && SFleb gap max_gap_seconds); cbn [fst snd].
  - by rewrite shift_relabel.
  - rewrite fmap_app. cbn [fmap list_fmap]. by rewrite shift_relabel.
Qed.

Lemma pass1_loop_shift rest m c g :
  pass1_loop max_gap_seconds (shift d <$> rest) (shift d <$> m, shift d c, g)
  = (λ st : pass1_state, (shift d <$> st.1.1, shift d st.1.2, st.2))
      <$> pass1_loop max_gap_seconds rest (m, c, g).
Proof.
  revert m c g. induction rest as [|next_label rest IH]; intros m c g;
    [reflexivity|].
  rewrite fmap_cons, !pass1_loop_cons, pass1_body_shift.
  destruct (pass1_body max_gap_seconds (m, c, g) next_label) as [[[m' c'] g']|];
    [|reflexivity].
  apply IH.
Qed.

Lemma pass1_shift (first : label) (rest : list label) :
  pass1 (shift d first) (shift d <$> rest) max_gap_seconds
  = (λ merged : list label, shift d <$> merged)
      <$> pass1 first rest max_gap_seconds.
Proof.
  rewrite !pass1_eq. change (phoneme (shift d first)) with (phoneme first).
  pose proof (pass1_loop_shift rest [] first (get_phoneme_group (phoneme first)))
    as H.
  change (shift d <$> []) with (@nil label) in H. rewrite H.
  destruct (pass1_loop max_gap_seconds rest _) as [[[m c] g]|]; [|reflexivity].
  cbn [fmap option_fmap option_map fst snd pass1_finish].
  rewrite fmap_app. cbn [fmap list_fmap]. by rewrite shift_relabel.
Qed.

Lemma coalesce_SP_shift l : coalesce_SP (shift d <$> l) = shift d <$> coalesce_SP l.
Proof.
  induction l as [|m rest IH]; [reflexivity|].
  destruct rest as [|r rest]; [by rewrite !fmap_cons, !coalesce_SP_singleton|].
  rewrite (fmap_cons _ m), (fmap_cons _ r), !coalesce_SP_cons_cons.
  rewrite <- (fmap_cons _ r), IH.
  change (is_SP (shift d m)) with (is_SP m).
  change (is_SP (shift d r)) with (is_SP r).
  destruct (is_SP m); [|reflexivity]. destruct (is_SP r); [|reflexivity].
  by destruct (coalesce_SP (r :: rest)).
Qed.

End Shift.

(** X16: only gaps count, not times: [merge_labels] on a list moved in time
    by [d] ticks does what it does on the list, moved by [d] ticks; it
    raises when and only when it raises on the list. *)
Theorem merge_labels_shift (d : Z) (labels : list label)
    (max_gap_seconds : spec_float) :
  merge_labels (shift d <$> labels) max_gap_seconds
  = match merge_labels labels max_gap_seconds with
    | Returns out => Returns (shift d <$> out)
    | Raises e => Raises e
    | OutOfFuel => OutOfFuel
    end.
Proof.
  rewrite !merge_labels_eq. destruct labels as [|first rest]; [reflexivity|].
  rewrite fmap_cons, pass1_shift.
  destruct (pass1 first rest max_gap_seconds) as [merged|]; [|reflexivity].
  cbn [fmap option_fmap option_map]. by rewrite coalesce_SP_shift.
Qed.

(** ** Where the time conversion overflows *)

Section FloatOverflow.

Lemma Zdigits2_lower m : 0 < m → 2 ^ (Zdigits2 m - 1) ≤ m.
Proof.
  intros Hm. destruct m as [|p|p]; [lia| |lia]. simpl Zdigits2.
  rewrite digits2_pos_size.
  pose proof (Pos.size_le p) as Hle.
  assert (Zpos (2 ^ Pos.size p) ≤ Zpos p~0) as Hle' by exact Hle.
  rewrite Pos2Z.inj_pow in Hle'.
  replace (Zpos (Pos.size p)) with (1 + (Zpos (Pos.size p) - 1)) in Hle' by lia.
  rewrite Z.pow_add_r in Hle' by lia. lia.
Qed.

Lemma Zdigits2_ge m k : 0 ≤ k → 2 ^ k ≤ m → k + 1 ≤ Zdigits2 m.
Proof.
  intros Hk Hm. assert (0 < m) as Hpos by (pose proof (Z.pow_pos_nonneg 2 k); lia).
  destruct m as [|p|p]; [lia| |lia]. simpl Zdigits2.
  rewrite digits2_pos_size.
  pose proof (Pos.size_gt p) as Hgt.
  assert (Zpos p < Zpos (2 ^ Pos.size p)) as Hgt' by exact Hgt.
  rewrite Pos2Z.inj_pow in Hgt'.
  destruct (Z.le_gt_cases (k + 1) (Zpos (Pos.size p))) as [|Hlt]; [done|].
  exfalso.
  assert (2 ^ Zpos (Pos.size p) ≤ 2 ^ k) by (apply Z.pow_le_mono_r; lia).
  lia.
Qed.

(** Dropping the digits that the format has no room for leaves a mantissa
    that is not zero. *)
Lemma shifted_mantissa_pos m n :
  0 < m → n ≤ Zdigits2 m - 1 → 0 < m / 2 ^ Z.max 0 n.
Proof.
  intros Hm Hn. pose proof (Zdigits2_lower m Hm) as Hlow.
  assert (0 ≤ Zdigits2 m - 1).
  { destruct m as [|p|p]; [lia| |lia]. simpl. lia. }
  assert (2 ^ Z.max 0 n ≤ m).
  { etrans; [|exact Hlow]. apply Z.pow_le_mono_r; lia. }
  assert (0 < 2 ^ Z.max 0 n) by (apply Z.pow_pos_nonneg; lia).
  assert (1 ≤ m / 2 ^ Z.max 0 n); [|lia].
  apply Z.div_le_lower_bound; lia.
Qed.

(** Rounding a value from [2 ^ 1024] on gives an infinity. *)
Lemma binary_round_aux_infinity s mx ex :
  0 ≤ ex ≤ 1024 → 2 ^ (1024 - ex) ≤ mx →
  binary_round_aux 53 1024 s mx ex loc_Exact = S754_infinity s.
Proof.
  intros Hex Hge.
  assert (0 < mx) as Hpos by (pose proof (Z.pow_pos_nonneg 2 (1024 - ex)); lia).
  pose proof (Zdigits2_ge mx (1024 - ex) ltac:(lia) Hge) as Hd.
  unfold binary_round_aux, shr_fexp.
  set (n1 := fexp 53 1024 (Zdigits2 mx + ex) - ex).
  pose proof (shr_spec (shr_record_of_loc mx loc_Exact) ex n1) as [Hm1 He1];
    [simpl; lia|].
  destruct (shr (shr_record_of_loc mx loc_Exact) ex n1) as [mrs1 e1].
  simpl in Hm1, He1.
  assert (n1 = Zdigits2 mx - 53) as Hn1 by (subst n1; unfold fexp, emin; lia).
  assert (972 ≤ e1) as He1' by lia.
  assert (0 < shr_m mrs1) as Hm1'.
  { rewrite Hm1. apply shifted_mantissa_pos; lia. }
  set (m1 := round_nearest_even (shr_m mrs1) (loc_of_shr_record mrs1)).
  pose proof (round_nearest_even_bounds (shr_m mrs1) (loc_of_shr_record mrs1)) as Hr.
  fold m1 in Hr.
  set (n2 := fexp 53 1024 (Zdigits2 m1 + e1) - e1).
  pose proof (shr_spec (shr_record_of_loc m1 loc_Exact) e1 n2) as [Hm2 He2];
    [simpl; lia|].
  destruct (shr (shr_record_of_loc m1 loc_Exact) e1 n2) as [mrs2 e2].
  simpl in Hm2, He2.
  assert (0 < Zdigits2 m1).
  { destruct m1 as [|p|p]; [lia| |lia]. simpl. lia. }
  assert (n2 = Zdigits2 m1 - 53) as Hn2 by (subst n2; unfold fexp, emin; lia).
  assert (0 < shr_m mrs2) as Hm2'.
  { rewrite Hm2. apply shifted_mantissa_pos; lia. }
  destruct (shr_m mrs2) as [|p|p]; [lia| |lia].
  destruct (Z.leb_spec e2 (1024 - 53)); [lia|reflexivity].
Qed.

Lemma binary_round_infinity s m :
  2 ^ 1024 ≤ Zpos m → binary_round 53 1024 s m 0 = S754_infinity s.
Proof.
  intros Hge. unfold binary_round, shl_align.
  pose proof (Zdigits2_ge (Zpos m) 1024 ltac:(lia) Hge) as Hd.
  simpl Zdigits2 in Hd.
  set (e := fexp 53 1024 (Z.pos (digits2_pos m) + 0)).
  assert (972 ≤ e) as He by (subst e; unfold fexp, emin; lia).
  destruct (e - 0) as [|d'|d'] eqn:Hd'; [lia| |lia].
  apply binary_round_aux_infinity; [lia|done].
Qed.

Lemma float_of_int_overflow n : 2 ^ 1024 ≤ Z.abs n → float_of_int n = None.
Proof.
  intros Hn. unfold float_of_int.
  assert (0 < 2 ^ 1024) by (by apply Z.pow_pos_nonneg).
  destruct n as [|m|m]; [simpl in Hn; lia| |]; simpl binary_normalize;
    by rewrite binary_round_infinity by (simpl in Hn; lia).
Qed.

End FloatOverflow.

(** X17: the time conversion raises [OverflowError] for every number of
    ticks of magnitude [2 ^ 1024] or more, and so does [merge_labels] on
    every list in which some segment starts that far from the end of the
    segment before it, whatever the phonemes and the threshold. *)
Theorem merge_labels_overflow :
  (∀ htk_time, 2 ^ 1024 ≤ Z.abs htk_time →
     convert_htk_time_to_seconds htk_time = None) ∧
  (∀ labels max_gap_seconds i a b,
     labels !! i = Some a → labels !! S i = Some b →
     2 ^ 1024 ≤ Z.abs (start b - end_ a) →
     merge_labels labels max_gap_seconds = Raises OverflowError).
Proof.
  assert (∀ htk_time, 2 ^ 1024 ≤ Z.abs htk_time →
            convert_htk_time_to_seconds htk_time = None) as Hconv.
  { intros n Hn. unfold convert_htk_time_to_seconds.
    by rewrite float_of_int_overflow. }
  split; [exact Hconv|].
  intros labels thr i a b Ha Hb Hgap. rewrite merge_labels_eq.
  destruct labels as [|first rest]; [done|].
  destruct (pass1 first rest thr) as [merged|] eqn:Hp; [|reflexivity].
  assert (is_Some (pass1 first rest thr)) as Hsome by (by eexists).
  apply pass1_is_Some in Hsome. rewrite gaps_convertible_lookup in Hsome.
  specialize (Hsome i a b Ha Hb). rewrite (Hconv _ Hgap) in Hsome.
  by destruct Hsome.
Qed.

Lemma merge_labels_overflow_witness :
  merge_labels [Label 0 0 "a"; Label 5 7 "e"; Label (7 - 2 ^ 1024) 0 "pau"]
    float_0_1
  = Raises OverflowError.
Proof.
  apply (proj2 merge_labels_overflow
           [Label 0 0 "a"; Label 5 7 "e"; Label (7 - 2 ^ 1024) 0 "pau"]
           float_0_1 1%nat (Label 5 7 "e") (Label (7 - 2 ^ 1024) 0 "pau"));
    [reflexivity|reflexivity|].
  apply Z.leb_le. vm_compute. reflexivity.
Defined.

(** ** The merger on the heap: what it returns is new *)

Module HeapFresh.
Import Heap.
Local Open Scope heap_scope.

Lemma returns_with_bind {A B} (m : M A) (k : A → M B) h (Q : B → heap → Prop) :
  returns_with m h (λ a h', returns_with (k a) h' Q) →
  returns_with (bind m k) h Q.
Proof. unfold returns_with, bind. by destruct (m h) as [[a|e|] h']. Qed.

Lemma returns_with_ret {A} (a : A) h (Q : A → heap → Prop) :
  Q a h → returns_with (ret a) h Q.
Proof. done. Qed.

Lemma returns_with_new o h (Q : positive → heap → Prop) :
  Q (fresh (dom h)) (<[fresh (dom h) := o]> h) → returns_with (new o) h Q.
Proof. done. Qed.

Lemma returns_with_read_dict l h (Q : label → heap → Prop) :
  (∀ d, h !! l = Some (Dict d) → Q d h) → returns_with (read_dict l) h Q.
Proof.
  intros H. unfold returns_with, read_dict.
  destruct (h !! l) as [[d|items]|]; try done. by apply H.
Qed.

Lemma returns_with_read_list l h (Q : list positive → heap → Prop) :
  (∀ items, h !! l = Some (PyList items) → Q items h) →
  returns_with (read_list l) h Q.
Proof.
  intros H. unfold returns_with, read_list.
  destruct (h !! l) as [[d|items]|]; try done. by apply H.
Qed.

Lemma returns_with_len l h (Q : nat → heap → Prop) :
  (∀ items, h !! l = Some (PyList items) → Q (length items) h) →
  returns_with (len l) h Q.
Proof.
  intros H. apply returns_with_bind, returns_with_read_list.
  intros items Hl. by apply returns_with_ret, H.
Qed.

Lemma returns_with_getitem l i h (Q : positive → heap → Prop) :
  (∀ x, Q x h) → returns_with (getitem l i) h Q.
Proof.
  intros H. apply returns_with_bind, returns_with_read_list.
  intros items Hl. destruct (items !! i); [|done]. by apply returns_with_ret.
Qed.

Lemma returns_with_dict_copy l h (Q : positive → heap → Prop) :
  (∀ d, Q (fresh (dom h)) (<[fresh (dom h) := Dict d]> h)) →
  returns_with (dict_copy l) h Q.
Proof.
  intros H. apply returns_with_bind, returns_with_read_dict.
  intros d _. by apply returns_with_new.
Qed.

Lemma returns_with_setitem_end l v h (Q : unit → heap → Prop) :
  (∀ d, h !! l = Some (Dict d) → Q () (<[l := Dict (set_end d v)]> h)) →
  returns_with (setitem_end l v) h Q.
Proof.
  intros H. apply returns_with_bind, returns_with_read_dict.
  intros d Hl. by apply H.
Qed.

Lemma returns_with_append l x h (Q : unit → heap → Prop) :
  (∀ items, h !! l = Some (PyList items) →
     Q () (<[l := PyList (items ++ [x])]> h)) →
  returns_with (append l x) h Q.
Proof.
  intros H. apply returns_with_bind, returns_with_read_list.
  intros items Hl. by apply H.
Qed.

(** A computation that keeps the store [h0], followed by another. *)
Lemma returns_with_keeps {A B} h0 (m : M A) (P : A → Prop) (k : A → M B) h
    (Q : B → heap → Prop) :
  keeps_store h0 m P → h0 ⊆ h →
  (∀ a h', h0 ⊆ h' → P a → returns_with (k a) h' Q) →
  returns_with (bind m k) h Q.
Proof.
  intros Hm Hh Hk. apply returns_with_bind. unfold returns_with at 1.
  destruct (Hm h Hh) as [Hh' Ha].
  destruct (m h) as [[a|e|] h']; simpl in *; [|done..]. by apply Hk.
Qed.

Lemma fresh_lookup_None (h : heap) : h !! fresh (dom h) = None.
Proof. apply not_elem_of_dom, is_fresh. Qed.

Section Pass2Fresh.

(** The store before the call, and the list [final_merged]. *)
Variable h0 : heap.
Variable final_merged : positive.

(** The inner loop writes to [current_label] only. *)
Lemma pass2_inner_fresh fuel merged current_label j h :
  h0 ⊆ h → h0 !! current_label = None → current_label ≠ final_merged →
  returns_with (pass2_inner fuel merged current_label j) h
    (λ _ h', h0 ⊆ h' ∧ h' !! final_merged = h !! final_merged ∧
             ∀ x, is_Some (h !! x) → is_Some (h' !! x)).
Proof.
  intros Hh Hc Hne. revert j h Hh.
  induction fuel as [|fuel IH]; intros j h Hh; [done|].
  cbn [pass2_inner]. apply returns_with_bind, returns_with_len. intros items Hitems.
  case_bool_decide; [|by apply returns_with_ret].
  apply returns_with_bind, returns_with_getitem. intros merged_j.
  apply returns_with_bind, returns_with_read_dict. intros d Hd.
  destruct (String.eqb (phoneme d) SP); [|by apply returns_with_ret].
  apply returns_with_bind, returns_with_setitem_end. intros c Hcur.
  set (h1 := <[current_label := Dict (set_end c (end_ d))]> h).
  assert (h0 ⊆ h1) as Hh1.
  { subst h1. by apply insert_subseteq_r. }
  specialize (IH (j + 1)%nat h1 Hh1). unfold returns_with in *.
  destruct (pass2_inner fuel merged current_label (j + 1) h1) as [[j'|e|] h'];
    [|done..].
  destruct IH as (Hh' & Hf & Hgrow). split; [done|]. split.
  - rewrite Hf. subst h1. by rewrite lookup_insert_ne.
  - intros x Hx. apply Hgrow. subst h1.
    destruct (decide (x = current_label)) as [->|Hx'].
    + rewrite lookup_insert_eq. by eexists.
    + by rewrite lookup_insert_ne.
Qed.

(** The outer loop appends copies to [final_merged]. *)
Lemma pass2_outer_fresh fuel merged i h :
  h0 ⊆ h → h0 !! final_merged = None → fresh_items h0 h final_merged →
  returns_with (pass2_outer fuel merged final_merged i) h
    (λ _ h', h0 ⊆ h' ∧ fresh_items h0 h' final_merged).
Proof.
  intros Hh Hfl. revert i h Hh.
  induction fuel as [|fuel IH]; intros i h Hh Hitems; [done|].
  cbn [pass2_outer]. apply returns_with_bind, returns_with_len. intros ms Hms.
  case_bool_decide; [|by apply returns_with_ret].
  apply returns_with_bind, returns_with_getitem. intros merged_i.
  apply returns_with_bind, returns_with_dict_copy. intros d.
  set (c := fresh (dom h)). set (h1 := <[c := Dict d]> h).
  pose proof (fresh_lookup_None h) as Hc. fold c in Hc.
  destruct Hitems as (items & Hl & Hnd & Hall).
  assert (h0 ⊆ h1) as Hh1.
  { etrans; [exact Hh|]. by apply insert_subseteq. }
  assert (h0 !! c = None) as Hc0 by (by apply (lookup_weaken_None h0 h)).
  assert (c ≠ final_merged) as Hne by (intros ->; congruence).
  assert (h1 !! final_merged = Some (PyList items)) as Hl1.
  { subst h1. by rewrite lookup_insert_ne. }
  assert (∀ h2, h0 ⊆ h2 → h2 !! final_merged = Some (PyList items) →
                (∀ x, is_Some (h1 !! x) → is_Some (h2 !! x)) →
                returns_with
                  (append final_merged c;;
                   pass2_outer fuel merged final_merged (i + 1)) h2
                  (λ _ h', h0 ⊆ h' ∧ fresh_items h0 h' final_merged) ∧
                ∀ j, returns_with
                  (append final_merged c;;
                   pass2_outer fuel merged final_merged j) h2
                  (λ _ h', h0 ⊆ h' ∧ fresh_items h0 h' final_merged)) as Hrest.
  { intros h2 Hh2 Hl2 Hgrow.
    assert (∀ j, returns_with
                  (append final_merged c;;
                   pass2_outer fuel merged final_merged j) h2
                  (λ _ h', h0 ⊆ h' ∧ fresh_items h0 h' final_merged)) as Hj;
      [|by split].
    intros j. apply returns_with_bind, returns_with_append.
    intros items' Hl2'. rewrite Hl2 in Hl2'. injection Hl2' as <-.
    apply IH.
    - by apply insert_subseteq_r.
    - exists (items ++ [c]). split; [by rewrite lookup_insert_eq|]. split.
      + apply NoDup_app. split; [done|]. split; [|apply NoDup_singleton].
        intros x Hx ->%list_elem_of_singleton.
        rewrite Forall_forall in Hall. destruct (Hall c Hx) as [_ [o Ho]].
        congruence.
      + apply Forall_app. split.
        * eapply Forall_impl; [exact Hall|]. intros x [Hx0 Hx]. split; [done|].
          destruct (decide (x = final_merged)) as [->|Hxf];
            [rewrite lookup_insert_eq; by eexists|].
          rewrite lookup_insert_ne by done. apply Hgrow. subst h1.
          destruct (decide (x = c)) as [->|Hxc];
            [rewrite lookup_insert_eq; by eexists|].
          by rewrite lookup_insert_ne.
        * apply Forall_singleton. split; [done|].
          rewrite lookup_insert_ne by done. apply Hgrow. subst h1.
          rewrite lookup_insert_eq. by eexists. }
  apply returns_with_bind, returns_with_read_dict. intros d' _.
  destruct (String.eqb (phoneme d') SP).
  - apply returns_with_bind.
    pose proof (pass2_inner_fresh (length ms) merged c (i + 1) h1 Hh1 Hc0 Hne)
      as Hinner.
    unfold returns_with at 1. unfold returns_with at 1 in Hinner.
    destruct (pass2_inner (length ms) merged c (i + 1) h1) as [[j|e|] h2];
      [|done..].
    destruct Hinner as (Hh2 & Hl2 & Hgrow).
    apply Hrest; [done|congruence|done].
  - by apply Hrest.
Qed.

End Pass2Fresh.

Lemma merge_labels_fresh labels max_gap_seconds h :
  returns_with (merge_labels labels max_gap_seconds) h
    (λ result h',
       (result = labels ∧ h' = h ∧ h !! labels = Some (PyList [])) ∨
       (h !! result = None ∧ fresh_items h h' result)).
Proof.
  unfold merge_labels. apply returns_with_bind, returns_with_len. intros items Hitems.
  case_bool_decide as Hn.
  { apply returns_with_ret. left. by destruct items. }
  eapply returns_with_keeps; [apply HeapFacts.keeps_new|done|].
  intros merged h1 Hh1 Hm.
  eapply returns_with_keeps; [apply HeapFacts.keeps_getitem|done|].
  intros labels_0 h2 Hh2 _.
  eapply returns_with_keeps; [apply HeapFacts.keeps_dict_copy|done|].
  intros c h3 Hh3 Hc.
  eapply returns_with_keeps; [apply HeapFacts.keeps_read_dict|done|].
  intros current h4 Hh4 _.
  eapply returns_with_keeps; [by apply HeapFacts.keeps_pass1_loop|done|].
  intros [c' g'] h5 Hh5 Hc'.
  eapply returns_with_keeps;
    [by apply HeapFacts.keeps_when, HeapFacts.keeps_setitem_phoneme|done|].
  intros _ h6 Hh6 _.
  eapply returns_with_keeps; [by apply HeapFacts.keeps_append|done|].
  intros _ h7 Hh7 _.
  apply returns_with_bind, returns_with_new.
  set (final_merged := fresh (dom h7)). set (h8 := <[final_merged := PyList []]> h7).
  pose proof (fresh_lookup_None h7) as Hf7. fold final_merged in Hf7.
  assert (h !! final_merged = None) as Hf by (by apply (lookup_weaken_None h h7)).
  apply returns_with_bind, returns_with_len. intros ms Hms.
  apply returns_with_bind.
  pose proof (pass2_outer_fresh h final_merged (S (length ms)) merged 0 h8) as Hp2.
  unfold returns_with at 1. unfold returns_with at 1 in Hp2.
  destruct (pass2_outer (S (length ms)) merged final_merged 0 h8) as [[[]|e|] h9];
    [|done..].
  apply returns_with_ret. right. split; [done|]. apply Hp2.
  - etrans; [exact Hh7|]. by apply insert_subseteq.
  - done.
  - exists []. split; [subst h8; by rewrite lookup_insert_eq|].
    split; constructor.
Qed.

End HeapFresh.

(** X18: what [merge_labels] returns for a list that is not empty is new:
    the list object did not exist before the call, nor did any of the
    segment objects it holds, and it holds no object twice.  So no segment
    of the result is a segment of the argument, and a later assignment to
    one changes no other.  Only for the empty list is the result the
    argument itself. *)
Theorem merge_labels_result_fresh (labels : positive)
    (max_gap_seconds : spec_float) (h : gmap positive Heap.obj)
    (result : positive) :
  let r := Heap.merge_labels labels max_gap_seconds h in
  r.1 = Returns result →
  (result = labels ∧ r.2 = h ∧ h !! labels = Some (Heap.PyList [])) ∨
  (h !! result = None ∧
   ∃ items, r.2 !! result = Some (Heap.PyList items) ∧ NoDup items ∧
            Forall (λ x, h !! x = None) items).
Proof.
  intros r Hr.
  pose proof (HeapFresh.merge_labels_fresh labels max_gap_seconds h) as H.
  unfold returns_with in H. fold r in H.
  destruct r as [o h']. simpl in Hr. subst o.
  destruct H as [H|[Hres (items & Hl & Hnd & Hall)]]; [by left|right].
  split; [done|]. exists items. split; [done|]. split; [done|].
  eapply Forall_impl; [exact Hall|]. by intros x [? _].
Qed.

Lemma merge_labels_result_fresh_witness :
  let ds := [Label 0 100000 "pau"; Label 100000 200000 "sil"; Label 200000 300000 "a"] in
  let '(h, labels) := Heap.store_of ds in
  let r := Heap.merge_labels labels float_0_1 h in
  (8%positive = labels ∧ r.2 = h ∧ h !! labels = Some (Heap.PyList [])) ∨
  (h !! 8%positive = None ∧
   ∃ items, r.2 !! 8%positive = Some (Heap.PyList items) ∧ NoDup items ∧
            Forall (λ x, h !! x = None) items).
Proof.
  apply (merge_labels_result_fresh _ _ _ 8%positive).
  vm_compute. reflexivity.
Defined.

(** ** Nothing is left to merge *)

Section Maximal.

Variable max_gap_seconds : spec_float.

Lemma coalesce_SP_head_phoneme l :
  phoneme <$> head (coalesce_SP l) = phoneme <$> head l.
Proof.
  destruct l as [|m [|r rest]]; [reflexivity| |].
  - by rewrite coalesce_SP_singleton.
  - rewrite coalesce_SP_cons_cons. destruct (is_SP m); [|reflexivity].
    destruct (is_SP r); [|reflexivity].
    by destruct (coalesce_SP (r :: rest)).
Qed.

(** Pass 2 brings no two entries together that pass 1 could merge. *)
Lemma coalesce_SP_stable l :
  pass1_stable max_gap_seconds l → pass1_stable max_gap_seconds (coalesce_SP l).
Proof.
  induction l as [|m rest IH]; [done|].
  destruct rest as [|r rest]; [by rewrite coalesce_SP_singleton|].
  intros [Hmr Hrest]. specialize (IH Hrest).
  pose proof (coalesce_SP_head_start (r :: rest)) as Hstart.
  pose proof (coalesce_SP_head_phoneme (r :: rest)) as Hphoneme.
  rewrite coalesce_SP_cons_cons.
  destruct (coalesce_SP (r :: rest)) as [|y ys]; [discriminate|].
  injection Hstart as Hstart. injection Hphoneme as Hphoneme.
  assert (pass1_stable max_gap_seconds (m :: y :: ys)) as Hkeep.
  { split; [|exact IH]. unfold is_SP, stable_pair in *.
    rewrite Hstart, Hphoneme. exact Hmr. }
  destruct (is_SP m) eqn:Hm; [|exact Hkeep].
  destruct (is_SP r); [|exact Hkeep].
  destruct IH as [_ IH]. split; [|exact IH].
  destruct ys as [|z ys]; [done|]. intros Hx. unfold is_SP in *.
  cbn [set_end phoneme] in Hx. congruence.
Qed.

Lemma pass1_stable_lookup l i x y :
  pass1_stable max_gap_seconds l → l !! i = Some x → l !! S i = Some y →
  is_SP x = false → is_SP y = false → stable_pair max_gap_seconds x y.
Proof.
  revert i. induction l as [|a l IH]; intros i Hst Hx Hy; [done|].
  destruct Hst as [Ha Hst]. destruct i as [|i].
  - destruct l as [|b l]; [done|]. injection Hx as <-. injection Hy as <-.
    exact Ha.
  - by apply (IH i).
Qed.

End Maximal.

(** X19: [merge_labels] leaves nothing to merge between segments that are
    not [SP]: two adjacent segments of the result, neither of them labelled
    [SP], are of different groups or lie further apart than the
    threshold. *)
Theorem merge_labels_maximal (labels : list label) (max_gap_seconds : spec_float)
    (out : list label) (i : nat) (x y : label) :
  merge_labels labels max_gap_seconds = Returns out →
  out !! i = Some x → out !! S i = Some y →
  phoneme x ≠ SP → phoneme y ≠ SP →
  ∃ gap_seconds,
    convert_htk_time_to_seconds (start y - end_ x) = Some gap_seconds ∧
    (get_phoneme_group (phoneme x) ≠ get_phoneme_group (phoneme y) ∨
     SFleb gap_seconds max_gap_seconds = false).
Proof.
  rewrite merge_labels_eq. destruct labels as [|first rest]; [by intros [= <-]|].
  destruct (pass1 first rest max_gap_seconds) as [merged|] eqn:Hp; [|discriminate].
  intros [= <-] Hx Hy Hxsp Hysp.
  apply pass1_stable_output, coalesce_SP_stable in Hp.
  destruct (pass1_stable_lookup _ _ _ _ _ Hp Hx Hy) as (gap & Hgap & Hcond).
  - by apply String.eqb_neq.
  - by apply String.eqb_neq.
  - exists gap. split; [exact Hgap|].
    apply andb_false_iff in Hcond as [Hg|Hle]; [left|by right].
    by apply String.eqb_neq.
Qed.

Lemma merge_labels_maximal_witness :
  ∃ gap_seconds,
    convert_htk_time_to_seconds (2000000 - 900000) = Some gap_seconds ∧
    (get_phoneme_group "s" ≠ get_phoneme_group "e" ∨
     SFleb gap_seconds float_0_1 = false).
Proof.
  apply (merge_labels_maximal
           [Label 0 500000 "s"; Label 600000 900000 "z"; Label 2000000 2100000 "e"]
           float_0_1 [Label 0 900000 "s"; Label 2000000 2100000 "e"] 0
           (Label 0 900000 "s") (Label 2000000 2100000 "e"));
    [vm_compute; reflexivity|reflexivity|reflexivity|discriminate|discriminate].
Defined.

(** ** The sign of a time in seconds *)

(** X20: the seconds that [convert_htk_time_to_seconds] returns are never
    NaN and have the sign of the ticks: the sign bit is set exactly when
    the number of ticks is below zero.  Zero ticks are [+0.0]. *)
Theorem convert_htk_time_to_seconds_signed :
  (∀ htk_time x,
     convert_htk_time_to_seconds htk_time = Some x →
     x ≠ S754_nan ∧
     (htk_time < 0 → SFleb x (S754_zero false) = true ∧ x ≠ S754_zero false) ∧
     (0 ≤ htk_time → SFleb (S754_zero false) x = true)) ∧
  convert_htk_time_to_seconds 0 = Some (S754_zero false).
Proof.
  split; [|reflexivity]. intros n x Hx.
  apply convert_htk_time_to_seconds_sign in Hx.
  split; [by intros ->|]. split.
  - intros Hn. rewrite bool_decide_eq_true_2 in Hx by done.
    destruct x as [s|s| |s m e]; cbn [has_sign] in Hx; try done; by subst s.
  - intros Hn. rewrite bool_decide_eq_false_2 in Hx by lia.
    destruct x as [s|s| |s m e]; cbn [has_sign] in Hx; try done; by subst s.
Qed.

Lemma convert_htk_time_to_seconds_signed_witness :
  SFleb (S754_finite true 5764607523034235 (-60)) (S754_zero false) = true ∧
  S754_finite true 5764607523034235 (-60) ≠ S754_zero false.
Proof.
  apply (proj1 (proj2 (proj1 convert_htk_time_to_seconds_signed (-50000)
                         (S754_finite true 5764607523034235 (-60))
                         ltac:(vm_compute; reflexivity)))).
  lia.
Defined.
